(** * Fuelink: node pool, voice handshake, queue and player

    A shallow embedding of the orchestration core of Fuelink
    (NodeManager, Node, Connection, Queue, Player) and the properties
    of it that the specification states.

    Conventions of the embedding.
    - A JavaScript number is a [Z] where the code uses it as an index, a
      counter or a time in milliseconds, and a [Q] where it is a
      priority, a load score or a delay; these are finite, and such an
      index is an integer.  The two indices of the queue's move and swap
      are any [Js.Number]: a finite value, whole or not, NaN or an
      infinity.
    - A field of type [string|null] is an [option string]; JavaScript
      truthiness of such a field is [Js.truthy] (null and the empty
      string are falsy).
    - A class is a record, a method a function from the receiver's state
      to a result and the new state.  What a method emits, sends or
      schedules is appended to an explicit log.
    - An [async] method is run to completion: the model has no
      interleaving of two methods of the same object. *)

From Stdlib Require Import ZArith QArith Qround Lia Lqa Ascii Sorted.
From stdpp Require Import base list strings gmap.

Local Open Scope Z_scope.

(** ** JavaScript values *)

Module Js.

(** [!!s] for a [string|null] field. *)
Definition truthy (s : option string) : bool :=
  match s with
  | Some EmptyString => false
  | Some _ => true
  | None => false
  end.

(** The loosely typed payloads that travel between Connection, Player
    and Node: property access on an object that lacks the property
    yields [undefined]. *)
#[local] Unset Elimination Schemes.
Inductive Value :=
| Undefined
| Null
| Str (s : string)
| Obj (fields : list (string * Value)).
#[local] Set Elimination Schemes.

Fixpoint lookupField (k : string) (fields : list (string * Value)) : Value :=
  match fields with
  | [] => Undefined
  | (k', v) :: rest => if String.eqb k k' then v else lookupField k rest
  end.

(** [v.k] *)
Definition get (k : string) (v : Value) : Value :=
  match v with
  | Obj fields => lookupField k fields
  | _ => Undefined
  end.

Definition ofField (s : option string) : Value :=
  match s with
  | Some x => Str x
  | None => Null
  end.

(** A JavaScript number where the code takes one from its caller: a
    finite value, [NaN], or one of the two infinities.  (The sign of
    zero is not kept: no comparison, [splice] or property access tells
    -0 from 0.) *)
Inductive Number :=
| Num (x : Q)
| NaN
| Infinity
| NegInfinity.

(** An integer as a number. *)
Definition int (z : Z) : Number := Num (inject_Z z).

(** [a < b]: false when either side is [NaN]. *)
Definition lt (a b : Number) : bool :=
  match a, b with
  | NaN, _ | _, NaN => false
  | Num x, Num y => negb (Qle_bool y x)
  | NegInfinity, NegInfinity => false
  | NegInfinity, _ => true
  | _, NegInfinity => false
  | Infinity, _ => false
  | Num _, Infinity => true
  end.

(** [a >= b]: false when either side is [NaN]. *)
Definition ge (a b : Number) : bool :=
  match a, b with
  | NaN, _ | _, NaN => false
  | _, _ => negb (lt a b)
  end.

(** A finite value truncated toward zero. *)
Definition truncate (x : Q) : Z := if Qle_bool 0 x then Qfloor x else Qceiling x.

(** The index at which [array.splice(start, ...)] begins on an array of
    the given length: [start] goes through ToIntegerOrInfinity, which
    takes [NaN] to 0 and truncates; a negative value counts from the
    end; the result is clamped to the array. *)
Definition spliceStart (start : Number) (length : Z) : Z :=
  match start with
  | Num x =>
      let relative := truncate x in
      if relative <? 0 then Z.max (length + relative) 0 else Z.min relative length
  | NaN => 0
  | Infinity => length
  | NegInfinity => 0
  end.

(** The array index that a number names as a property key: a whole
    number that is not negative.  Any other number ([NaN], [1.5], [-1],
    an infinity) names an ordinary property of the array object, not an
    element.  (The bound 2^32 - 2 on indices is beyond any array
    here.) *)
Definition arrayIndex (n : Number) : option nat :=
  match n with
  | Num x =>
      if Qle_bool 0 x && Qeq_bool x (inject_Z (Qfloor x))
      then Some (Z.to_nat (Qfloor x)) else None
  | _ => None
  end.

(** [array[n]] on an array without properties of its own other than its
    elements; [None] is [undefined]. *)
Definition element {A} (n : Number) (array : list (option A)) : option A :=
  match arrayIndex n with
  | Some k => default None (array !! k)
  | None => None
  end.

(** [array[n] = v]: an index at or beyond the length extends the array
    (the slots between read as [undefined]); a key that is not an index
    sets a property and leaves the elements alone. *)
Definition store {A} (n : Number) (v : option A) (array : list (option A))
  : list (option A) :=
  match arrayIndex n with
  | Some k =>
      if (k <? length array)%nat then <[k := v]> array
      else array ++ replicate (k - length array) None ++ [v]
  | None => array
  end.

End Js.

(** [l.length] as a JavaScript number. *)
Definition len {A} (l : list A) : Z := Z.of_nat (length l).

(** ** Track (structures/Track.js) *)

Record Track := mkTrack {
  encoded : option string;
  identifier : string;
  title : string;
  duration : Z
}.

(** ** Util (utils/Util.js) *)

Module Util.

(** [[array[i], array[j]] = [array[j], array[i]]] for two indices of the
    array; both reads come before both writes. *)
Definition exchange {A} (i j : nat) (l : list A) : list A :=
  match l !! i, l !! j with
  | Some a, Some b => <[j := a]> (<[i := b]> l)
  | _, _ => l (* not reached: both indices are in the array *)
  end.

(** The loop of [shuffle]: [i] runs down to 1, and the draw of the step
    is [random drawn], the [drawn]-th value of [Math.random()]. *)
Fixpoint shuffleFrom {A} (i : nat) (random : nat -> Q) (drawn : nat) (l : list A) : list A :=
  match i with
  | O => l
  | S k =>
      let j := Z.to_nat (Qfloor (random drawn * inject_Z (Z.of_nat i + 1))) in
      shuffleFrom k random (S drawn) (exchange i j l)
  end.

(** [Util.shuffle(array)] (Fisher-Yates) *)
Definition shuffle {A} (random : nat -> Q) (l : list A) : list A :=
  shuffleFrom (length l - 1) random 0 l.

(** [Util.clamp(num, min, max)] *)
Definition clamp (num lo hi : Z) : Z := Z.min (Z.max num lo) hi.

(** [array.slice(start, end)]: a negative index counts from the end and
    both are clamped to the array. *)
Definition slice {A} (start stop : Z) (l : list A) : list A :=
  let clampIndex (k : Z) :=
    if k <? 0 then Z.max (len l + k) 0 else Z.min k (len l) in
  take (Z.to_nat (clampIndex stop) - Z.to_nat (clampIndex start))
       (drop (Z.to_nat (clampIndex start)) l).

(** The loop of [chunk]: [i] advances by [size] while it is below the
    length; [fuel] bounds the number of rounds. *)
Fixpoint chunkFrom {A} (fuel : nat) (i size : Z) (l : list A) : option (list (list A)) :=
  if i <? len l then
    match fuel with
    | O => None
    | S fuel' =>
        match chunkFrom fuel' (i + size) size l with
        | Some rest => Some (slice i (i + size) l :: rest)
        | None => None
        end
    end
  else Some [].

(** [Util.chunk(array, size)] *)
Definition chunk {A} (fuel : nat) (l : list A) (size : Z) : option (list (list A)) :=
  chunkFrom fuel 0 size l.

End Util.

(** ** Queue (structures/Queue.js) *)

Module Queue.

Inductive LoopMode := OFF | TRACK | QUEUE.

Definition LoopMode_eqb (a b : LoopMode) : bool :=
  match a, b with
  | OFF, OFF | TRACK, TRACK | QUEUE, QUEUE => true
  | _, _ => false
  end.

(** The autoplay provider is a function value; the queue holds a handle
    to it and the Player model interprets the handle. *)
Definition ProviderId := nat.

Record t := mk {
  tracks : list Track;
  priorityTracks : list Track;
  current : option Track;
  previous : option Track;
  loop : LoopMode;
  autoplay : bool;
  autoplayProvider : option ProviderId;
  history : list Track;
  maxHistorySize : Z
}.

(** [new Queue(player)] *)
Definition create : t :=
  {| tracks := []; priorityTracks := []; current := None; previous := None;
     loop := OFF; autoplay := false; autoplayProvider := None;
     history := []; maxHistorySize := 50 |}.

Definition setTracks (v : list Track) (q : t) : t :=
  mk v (priorityTracks q) (current q) (previous q) (loop q) (autoplay q)
     (autoplayProvider q) (history q) (maxHistorySize q).
Definition setPriorityTracks (v : list Track) (q : t) : t :=
  mk (tracks q) v (current q) (previous q) (loop q) (autoplay q)
     (autoplayProvider q) (history q) (maxHistorySize q).
Definition setCurrent (v : option Track) (q : t) : t :=
  mk (tracks q) (priorityTracks q) v (previous q) (loop q) (autoplay q)
     (autoplayProvider q) (history q) (maxHistorySize q).
Definition setPrevious (v : option Track) (q : t) : t :=
  mk (tracks q) (priorityTracks q) (current q) v (loop q) (autoplay q)
     (autoplayProvider q) (history q) (maxHistorySize q).
Definition setHistory (v : list Track) (q : t) : t :=
  mk (tracks q) (priorityTracks q) (current q) (previous q) (loop q) (autoplay q)
     (autoplayProvider q) v (maxHistorySize q).
Definition setLoop (v : LoopMode) (q : t) : t :=
  mk (tracks q) (priorityTracks q) (current q) (previous q) v (autoplay q)
     (autoplayProvider q) (history q) (maxHistorySize q).

(** What the queue emits on its own emitter. *)
Inductive Event :=
| QUEUE_ADD (added : list Track)
| QUEUE_REMOVE (removed : option Track) (index : Z).

(** [get size()] *)
Definition size (q : t) : Z := len (tracks q) + len (priorityTracks q).

(** [get upcoming()], also the [combined] array of move, swap and jump. *)
Definition upcoming (q : t) : list Track := priorityTracks q ++ tracks q.

Record AddOptions := mkAddOptions {
  position : option Z;
  priority : bool
}.

Definition defaultAddOptions : AddOptions :=
  {| position := None; priority := false |}.

(** [arr.splice(start, 0, x)]: a negative start counts from the end, and
    the start is clamped to the array. *)
Definition spliceInsert {A} (start : Z) (x : A) (l : list A) : list A :=
  let i := if start <? 0 then Z.max (len l + start) 0 else Z.min start (len l) in
  take (Z.to_nat i) l ++ x :: drop (Z.to_nat i) l.

Definition addOne (options : AddOptions) (q : t) (track : Track) : t :=
  if priority options then setPriorityTracks (priorityTracks q ++ [track]) q
  else match position options with
       | Some p => setTracks (spliceInsert p track (tracks q)) q
       | None => setTracks (tracks q ++ [track]) q
       end.

(** [add(tracks, options)]; the requester stamp on a track is not
    modelled. *)
Definition add (added : list Track) (options : AddOptions) (q : t)
  : list Track * t * list Event :=
  (added, fold_left (addOne options) added q, [QUEUE_ADD added]).

(** [remove(index)] *)
Definition remove (index : Z) (q : t) : option Track * t * list Event :=
  if index <? 0 then (None, q, [])
  else if index <? len (priorityTracks q) then
    let removed := priorityTracks q !! Z.to_nat index in
    (removed,
     setPriorityTracks (delete (Z.to_nat index) (priorityTracks q)) q,
     [QUEUE_REMOVE removed index])
  else
    let mainIndex := index - len (priorityTracks q) in
    if mainIndex <? len (tracks q) then
      let removed := tracks q !! Z.to_nat mainIndex in
      (removed,
       setTracks (delete (Z.to_nat mainIndex) (tracks q)) q,
       [QUEUE_REMOVE removed index])
    else (None, q, []).

(** The "Rebuild queues" step shared by move and swap: the first
    assignment slices by the old priority length, the second by the
    length of the lane just assigned. *)
Definition rebuild (combined : list Track) (q : t) : t :=
  let q1 := setPriorityTracks (take (length (priorityTracks q)) combined) q in
  setTracks (drop (length (priorityTracks q1)) combined) q1.

(** The tracks of an array in which no slot holds [undefined]. *)
Fixpoint tracksOf (slots : list (option Track)) : option (list Track) :=
  match slots with
  | [] => Some []
  | Some track :: rest => option_map (cons track) (tracksOf rest)
  | None :: _ => None
  end.

(** What move and swap leave: a queue whose lanes hold tracks, or, when
    a slot of the array they sliced holds [undefined], the two lanes
    with their slots (the other fields of the queue are as before). *)
Inductive Written :=
| Lanes (q : t)
| Holes (priority main : list (option Track)).

(** "Rebuild queues" on an array of slots. *)
Definition rebuildSlots (combined : list (option Track)) (q : t) : Written :=
  match tracksOf combined with
  | Some tracks => Lanes (rebuild tracks q)
  | None =>
      let priority := take (length (priorityTracks q)) combined in
      Holes priority (drop (length priority) combined)
  end.

(** The queue a call has written, for a call that leaves a track in
    every slot, as every call with whole-number indices does. *)
Definition written (q : t) (w : Written) : t :=
  match w with
  | Lanes q' => q'
  | Holes _ _ => q (* not reached from whole-number indices *)
  end.

(** The range check of move and swap on one argument:
    [index < 0 || index >= this.size]. *)
Definition outside (index : Js.Number) (q : t) : bool :=
  Js.lt index (Js.int 0) || Js.ge index (Js.int (size q)).

(** [move(from, to)]; [const [track] = combined.splice(from, 1)] leaves
    [track] undefined when the splice removed nothing. *)
Definition move (from to : Js.Number) (q : t) : bool * Written :=
  if outside from q || outside to q
  then (false, Lanes q)
  else
    let combined := map Some (upcoming q) in
    let i := Z.to_nat (Js.spliceStart from (len combined)) in
    let track := default None (combined !! i) in
    let combined1 := delete i combined in
    let j := Z.to_nat (Js.spliceStart to (len combined1)) in
    (true, rebuildSlots (take j combined1 ++ track :: drop j combined1) q).

(** [swap(index1, index2)]: both reads come before both writes. *)
Definition swap (index1 index2 : Js.Number) (q : t) : bool * Written :=
  if outside index1 q || outside index2 q
  then (false, Lanes q)
  else
    let combined := map Some (upcoming q) in
    let a := Js.element index2 combined in
    let b := Js.element index1 combined in
    (true, rebuildSlots (Js.store index2 b (Js.store index1 a combined)) q).

(** [_addToHistory(track)] *)
Definition _addToHistory (track : Track) (q : t) : t :=
  let pushed := history q ++ [track] in
  if len pushed >? maxHistorySize q
  then setHistory (drop 1 pushed) q
  else setHistory pushed q.

(** [next()] *)
Definition next (q : t) : option Track * t :=
  let q1 :=
    match current q with
    | Some c => _addToHistory c (setPrevious (Some c) q)
    | None => q
    end in
  match loop q1, current q1 with
  | TRACK, Some c => (Some c, q1)
  | _, _ =>
    match priorityTracks q1 with
    | p :: rest => (Some p, setPriorityTracks rest (setCurrent (Some p) q1))
    | [] =>
      match tracks q1 with
      | m :: rest =>
          let q2 := setTracks rest (setCurrent (Some m) q1) in
          let q3 :=
            match loop q2, previous q2 with
            | QUEUE, Some prev => setTracks (tracks q2 ++ [prev]) q2
            | _, _ => q2
            end in
          (Some m, q3)
      | [] =>
          match loop q1, previous q1 with
          | QUEUE, Some prev => (Some prev, setCurrent (Some prev) q1)
          | _, _ => (None, setCurrent None q1)
          end
      end
    end
  end.

(** [jump(position)] *)
Definition jump (position : Z) (q : t) : option Track * t :=
  if (position <? 0) || (position >=? size q) then (None, q)
  else
    let q1 :=
      match current q with
      | Some c => _addToHistory c q
      | None => q
      end in
    let combined := upcoming q1 in
    let skipped := take (Z.to_nat position) combined in
    let combined1 := drop (Z.to_nat position) combined in
    let q2 := fold_left (fun acc s => _addToHistory s acc) skipped q1 in
    let q3 := setCurrent (head combined1) q2 in
    let combined2 := tail combined1 in
    let priorityCount := Z.max 0 (len (priorityTracks q3) - position - 1) in
    let q4 := setPriorityTracks (take (Z.to_nat priorityCount) combined2) q3 in
    let q5 := setTracks (drop (Z.to_nat priorityCount) combined2) q4 in
    (current q5, q5).

(** [back()] *)
Definition back (q : t) : option Track * t :=
  match history q with
  | [] => (None, q)
  | _ =>
    let q1 :=
      match current q with
      | Some c => setPriorityTracks (c :: priorityTracks q) q
      | None => q
      end in
    let q2 := setHistory (removelast (history q1)) (setCurrent (last (history q1)) q1) in
    let q3 := setPrevious (last (history q2)) q2 in
    (current q3, q3)
  end.

(** [at(index)] *)
Definition at_ (index : Z) (q : t) : option Track :=
  if index <? 0 then None
  else if index <? len (priorityTracks q) then priorityTracks q !! Z.to_nat index
  else tracks q !! Z.to_nat (index - len (priorityTracks q)).

(** [clear(includePriority)] *)
Definition clear (includePriority : bool) (q : t) : Z * t :=
  let count := if includePriority then size q else len (tracks q) in
  let q1 := setTracks [] q in
  (count, if includePriority then setPriorityTracks [] q1 else q1).

(** [next()] called [n] times in a row: the tracks returned, oldest
    first, and the queue left behind. *)
Fixpoint nextN (n : nat) (q : t) : list (option Track) * t :=
  match n with
  | O => ([], q)
  | S k =>
      let '(r, q1) := next q in
      let '(rs, q2) := nextN k q1 in
      (r :: rs, q2)
  end.

(** The loop of [removeRange]: [i] runs from [end] down to [start]; a
    removed track is put in front of those removed before it. *)
Fixpoint removeRangeFrom (rounds : nat) (i : Z) (q : t) (removed : list Track)
  : list Track * t * list Event :=
  match rounds with
  | O => (removed, q, [])
  | S k =>
      let '(track, q1, e1) := remove i q in
      let removed1 :=
        match track with
        | Some x => x :: removed
        | None => removed
        end in
      let '(result, q2, e2) := removeRangeFrom k (i - 1) q1 removed1 in
      (result, q2, e1 ++ e2)
  end.

(** [removeRange(start, end)] *)
Definition removeRange (start stop : Z) (q : t) : list Track * t * list Event :=
  removeRangeFrom (Z.to_nat (stop - start + 1)) stop q [].

(** [shuffle()]; the queueShuffle notification is left out. *)
Definition shuffle (random : nat -> Q) (q : t) : t :=
  setTracks (Util.shuffle random (tracks q)) q.

(** [reverse()] *)
Definition reverse (q : t) : t := setTracks (rev (tracks q)) q.

(** [get isEmpty()] *)
Definition isEmpty (q : t) : bool :=
  (size q =? 0) && negb (bool_decide (is_Some (current q))).

(** [get duration()], a track without duration counting as 0 *)
Definition totalDuration (q : t) : Z :=
  let currentDur := match current q with Some c => duration c | None => 0 end in
  let queueDur := fold_left (fun acc x => acc + duration x) (upcoming q) 0 in
  currentDur + queueDur.

(** [clearHistory()] *)
Definition clearHistory (q : t) : t := setHistory [] q.

(** A call on a queue from outside, with integers for indices, and a
    sequence of such calls. *)
Inductive Call :=
| CallAdd (added : list Track) (options : AddOptions)
| CallRemove (index : Z)
| CallRemoveRange (start stop : Z)
| CallClear (includePriority : bool)
| CallShuffle (random : nat -> Q)
| CallMove (from to : Z)
| CallSwap (index1 index2 : Z)
| CallReverse
| CallNext
| CallJump (position : Z)
| CallBack
| CallClearHistory.

Definition call (q : t) (c : Call) : t :=
  match c with
  | CallAdd added options => snd (fst (add added options q))
  | CallRemove index => snd (fst (remove index q))
  | CallRemoveRange start stop => snd (fst (removeRange start stop q))
  | CallClear includePriority => snd (clear includePriority q)
  | CallShuffle random => shuffle random q
  | CallMove from to => written q (snd (move (Js.int from) (Js.int to) q))
  | CallSwap index1 index2 => written q (snd (swap (Js.int index1) (Js.int index2) q))
  | CallReverse => reverse q
  | CallNext => snd (next q)
  | CallJump position => snd (jump position q)
  | CallBack => snd (back q)
  | CallClearHistory => clearHistory q
  end.

Definition calls (q : t) (cs : list Call) : t := fold_left call cs q.

End Queue.

(** ** Node (structures/Node.js) *)

Module Node.

Inductive NodeState := CONNECTING | CONNECTED | RECONNECTING | DISCONNECTED | DESTROYED.

Definition NodeState_eqb (a b : NodeState) : bool :=
  match a, b with
  | CONNECTING, CONNECTING | CONNECTED, CONNECTED | RECONNECTING, RECONNECTING
  | DISCONNECTED, DISCONNECTED | DESTROYED, DESTROYED => true
  | _, _ => false
  end.

Record FrameStats := mkFrameStats {
  deficit : Q;
  nulled : Q
}.

(** The fields of a stats payload that the penalty reads; [cpu] holds
    [cpu.systemLoad]. *)
Record NodeStats := mkNodeStats {
  players : Q;
  playingPlayers : Q;
  cpu : option Q;
  frameStats : option FrameStats
}.

(** [_ws]: no socket, a socket that is not open, an open socket. *)
Inductive Socket := NoSocket | SocketNotOpen | SocketOpen.

Record t := mk {
  name : string;
  retryAmount : Z;
  retryDelay : Q;
  priority : Q;
  regions : list string;
  state : NodeState;
  sessionId : option string;
  stats : option NodeStats;
  _ws : Socket;
  _reconnectAttempts : Z;
  _reconnectTimeout : option Q
}.

Record NodeOptions := mkNodeOptions {
  opt_name : string;
  opt_retryAmount : option Z;
  opt_retryDelay : option Q;
  opt_priority : option Q;
  opt_regions : option (list string)
}.

(** [new Node(manager, options)] with [Defaults.NODE]. *)
Definition create (options : NodeOptions) : t :=
  {| name := opt_name options;
     retryAmount := default 5 (opt_retryAmount options);
     retryDelay := default (5000 # 1)%Q (opt_retryDelay options);
     priority := default (1 # 1)%Q (opt_priority options);
     regions := default [] (opt_regions options);
     state := DISCONNECTED;
     sessionId := None;
     stats := None;
     _ws := NoSocket;
     _reconnectAttempts := 0;
     _reconnectTimeout := None |}.

Definition setState (v : NodeState) (n : t) : t :=
  mk (name n) (retryAmount n) (retryDelay n) (priority n) (regions n) v
     (sessionId n) (stats n) (_ws n) (_reconnectAttempts n) (_reconnectTimeout n).
Definition setSessionId (v : option string) (n : t) : t :=
  mk (name n) (retryAmount n) (retryDelay n) (priority n) (regions n) (state n)
     v (stats n) (_ws n) (_reconnectAttempts n) (_reconnectTimeout n).
Definition setStats (v : option NodeStats) (n : t) : t :=
  mk (name n) (retryAmount n) (retryDelay n) (priority n) (regions n) (state n)
     (sessionId n) v (_ws n) (_reconnectAttempts n) (_reconnectTimeout n).
Definition setWs (v : Socket) (n : t) : t :=
  mk (name n) (retryAmount n) (retryDelay n) (priority n) (regions n) (state n)
     (sessionId n) (stats n) v (_reconnectAttempts n) (_reconnectTimeout n).
Definition setReconnectAttempts (v : Z) (n : t) : t :=
  mk (name n) (retryAmount n) (retryDelay n) (priority n) (regions n) (state n)
     (sessionId n) (stats n) (_ws n) v (_reconnectTimeout n).
Definition setReconnectTimeout (v : option Q) (n : t) : t :=
  mk (name n) (retryAmount n) (retryDelay n) (priority n) (regions n) (state n)
     (sessionId n) (stats n) (_ws n) (_reconnectAttempts n) v.

(** [get connected()] *)
Definition connected (n : t) : bool := NodeState_eqb (state n) CONNECTED.

(** [get penalty()] *)
Definition penalty (n : t) : Q :=
  match stats n with
  | None => 0
  | Some s =>
      let p0 := 0 + players s * 1 in
      let p1 := p0 + playingPlayers s * (3 # 2) in
      let p2 := match cpu s with
                | Some systemLoad => p1 + (systemLoad ^ 2) * 100
                | None => p1
                end in
      match frameStats s with
      | Some f => p2 + deficit f * 3 + nulled f * 2
      | None => p2
      end
  end%Q.

(** What a node emits and schedules. *)
Inductive Effect :=
| NODE_DISCONNECT (code : Z) (reason : string)
| NODE_RECONNECT (attempt : Z)
| NODE_READY
| SetTimeout (delay : Q)
| ClearTimeout
| OpenSocket
| CloseSocket.

(** [_scheduleReconnect()]; [random] is the value of [Math.random()]. *)
Definition _scheduleReconnect (random : Q) (n : t) : t * list Effect :=
  let n1 := setState RECONNECTING n in
  let n2 := setReconnectAttempts (_reconnectAttempts n1 + 1) n1 in
  let delay := (retryDelay n2 * (3 # 2) ^ (_reconnectAttempts n2 - 1))%Q in
  let jitter := (random * 1000)%Q in
  (setReconnectTimeout (Some (delay + jitter)%Q) n2,
   [NODE_RECONNECT (_reconnectAttempts n2); SetTimeout (delay + jitter)%Q]).

(** [_onClose(code, reason)] *)
Definition _onClose (code : Z) (reason : string) (random : Q) (n : t) : t * list Effect :=
  if negb (NodeState_eqb (state n) DESTROYED) && (_reconnectAttempts n <? retryAmount n)
  then
    let '(n1, effects) := _scheduleReconnect random n in
    (n1, NODE_DISCONNECT code reason :: effects)
  else (n, [NODE_DISCONNECT code reason]).

(** [_onOpen()] *)
Definition _onOpen (n : t) : t := setReconnectAttempts 0 n.

(** [_handleReady(payload)] *)
Definition _handleReady (payloadSessionId : option string) (n : t) : t * list Effect :=
  (setState CONNECTED (setSessionId payloadSessionId n), [NODE_READY]).

(** [_handleStats(payload)] *)
Definition _handleStats (payload : NodeStats) (n : t) : t :=
  setStats (Some payload) n.

(** [connect()] up to the creation of the socket. *)
Definition connect (n : t) : t * list Effect :=
  match _ws n with
  | SocketOpen => (n, [])
  | _ => (setWs SocketNotOpen (setState CONNECTING n), [OpenSocket])
  end.

(** [disconnect(code, reason)] *)
Definition disconnect (n : t) : t * list Effect :=
  let '(n1, e1) :=
    match _reconnectTimeout n with
    | Some _ => (setReconnectTimeout None n, [ClearTimeout])
    | None => (n, [])
    end in
  let '(n2, e2) :=
    match _ws n1 with
    | NoSocket => (n1, [])
    | _ => (setWs NoSocket n1, [CloseSocket])
    end in
  (setState DISCONNECTED n2, e1 ++ e2).

(** What can happen to a node: a call from outside or a socket event. *)
Inductive Input :=
| CallConnect
| CallDisconnect
| OnOpen
| OnReady (payloadSessionId : option string)
| OnStats (payload : NodeStats)
| OnClose (code : Z) (reason : string) (random : Q)
| ReconnectTimerFired.

Definition step (n : t) (i : Input) : t * list Effect :=
  match i with
  | CallConnect => connect n
  | CallDisconnect => disconnect n
  | OnOpen => (_onOpen (setWs SocketOpen n), [])
  | OnReady sid => _handleReady sid n
  | OnStats payload => (_handleStats payload n, [])
  | OnClose code reason random =>
      _onClose code reason random
        (match _ws n with NoSocket => n | _ => setWs SocketNotOpen n end)
  | ReconnectTimerFired => connect n
  end.

Fixpoint run (n : t) (inputs : list Input) : t * list Effect :=
  match inputs with
  | [] => (n, [])
  | i :: rest =>
      let '(n1, e1) := step n i in
      let '(n2, e2) := run n1 rest in
      (n2, e1 ++ e2)
  end.

(** [destroy()] *)
Definition destroy (n : t) : t * list Effect :=
  let '(n1, e) := disconnect n in
  (setState DESTROYED n1, e).

(** The timers a log arms. *)
Definition scheduled (log : list Effect) : list Q :=
  flat_map (fun e => match e with
                     | SetTimeout delay => [delay]
                     | _ => []
                     end) log.

(** The input is the socket's open event. *)
Definition isOnOpen (i : Input) : bool :=
  match i with
  | OnOpen => true
  | _ => false
  end.

(** The number of timers a log clears. *)
Definition cleared (log : list Effect) : nat :=
  length (List.filter (fun e => match e with ClearTimeout => true | _ => false end) log).

End Node.

(** ** NodeManager (managers/NodeManager.js) *)

Module NodeManager.

(** The manager is a [Map] from names to nodes; its values are iterated
    in insertion order, so the pool is the list of its values. *)
Definition Pool := list Node.t.

(** [getConnected()] *)
Definition getConnected (pool : Pool) : list Node.t :=
  List.filter Node.connected pool.

(** The comparator handed to [sort] in [getBest]. *)
Definition compareNodes (a b : Node.t) : Q :=
  if negb (Qeq_bool (Node.priority a) (Node.priority b))
  then (Node.priority a - Node.priority b)%Q
  else (Node.penalty a - Node.penalty b)%Q.

(** [Array.prototype.sort(compare)] is a stable sort; an insertion sort
    that puts an element before the first one it does not exceed gives
    the order every stable sort gives for a consistent comparator. *)
Fixpoint insertBy {A} (compare : A -> A -> Q) (x : A) (l : list A) : list A :=
  match l with
  | [] => [x]
  | y :: rest =>
      if Qle_bool (compare x y) 0 then x :: y :: rest
      else y :: insertBy compare x rest
  end.

Definition sortBy {A} (compare : A -> A -> Q) (l : list A) : list A :=
  fold_right (insertBy compare) [] l.

(** [n.regions.length === 0 || n.regions.includes(region)] *)
Definition servesRegion (region : string) (n : Node.t) : bool :=
  (len (Node.regions n) =? 0) || existsb (String.eqb region) (Node.regions n).

(** [getBest(region)] *)
Definition getBest (region : option string) (pool : Pool) : option Node.t :=
  let connected := getConnected pool in
  if len connected =? 0 then None
  else
    let candidates :=
      match region with
      | Some r =>
          if Js.truthy region then
            let regionNodes := List.filter (servesRegion r) connected in
            if len regionNodes >? 0 then regionNodes else connected
          else connected
      | None => connected
      end in
    head (sortBy compareNodes candidates).

(** [getSortedByPenalty()] *)
Definition getSortedByPenalty (pool : Pool) : list Node.t :=
  sortBy (fun a b => (Node.penalty a - Node.penalty b)%Q) (getConnected pool).

(** [n.stats?.players || 0] *)
Definition playersOf (n : Node.t) : Q :=
  match Node.stats n with
  | Some s => Node.players s
  | None => 0
  end.

(** [getTotalPlayers()] *)
Definition getTotalPlayers (pool : Pool) : Q :=
  fold_left (fun acc n => (acc + playersOf n)%Q) (getConnected pool) 0%Q.

(** The manager as the [Map] it extends: names and nodes in insertion
    order, a name at most once. *)
Definition Registry := list (string * Node.t).

(** [this.values()] *)
Definition values (m : Registry) : Pool := map snd m.

(** [this.get(name)] *)
Fixpoint get (name : string) (m : Registry) : option Node.t :=
  match m with
  | [] => None
  | (k, n) :: rest => if String.eqb name k then Some n else get name rest
  end.

(** [this.has(name)] *)
Definition has (name : string) (m : Registry) : bool :=
  bool_decide (is_Some (get name m)).

(** [this.set(name, node)]: a new name goes last, a known name keeps its
    place. *)
Fixpoint set (name : string) (node : Node.t) (m : Registry) : Registry :=
  match m with
  | [] => [(name, node)]
  | (k, n) :: rest =>
      if String.eqb name k then (k, node) :: rest else (k, n) :: set name node rest
  end.

(** [this.delete(name)] *)
Fixpoint delete (name : string) (m : Registry) : bool * Registry :=
  match m with
  | [] => (false, [])
  | (k, n) :: rest =>
      if String.eqb name k then (true, rest)
      else let '(found, rest') := delete name rest in (found, (k, n) :: rest')
  end.

(** [add(options)] *)
Definition add (options : Node.NodeOptions) (m : Registry) : Node.t * Registry :=
  match get (Node.opt_name options) m with
  | Some existing => (existing, m)
  | None =>
      let node := Node.create options in
      (node, set (Node.name node) node m)
  end.

(** [remove(name)]; the effects are those of the node's [destroy()]. *)
Definition remove (name : string) (m : Registry) : bool * Registry * list Node.Effect :=
  match get name m with
  | None => (false, m, [])
  | Some node =>
      let '(_, effects) := Node.destroy node in
      let '(found, m') := delete name m in
      (found, m', effects)
  end.

(** A call that changes the registry, and a sequence of such calls. *)
Inductive Change :=
| Add (options : Node.NodeOptions)
| Remove (name : string).

Definition change (m : Registry) (c : Change) : Registry :=
  match c with
  | Add options => snd (add options m)
  | Remove name => snd (fst (remove name m))
  end.

Definition changes (m : Registry) (cs : list Change) : Registry := fold_left change cs m.

End NodeManager.

(** ** Connection (structures/Connection.js) *)

Module Connection.

Record t := mk {
  channelId : option string;
  sessionId : option string;
  token : option string;
  endpoint : option string;
  region : option string;
  connected : bool;
  selfDeaf : bool;
  selfMute : bool;
  _connectTimeout : option nat;
  _pendingConnection : option nat
}.

(** [new Connection(player)] *)
Definition create : t :=
  {| channelId := None; sessionId := None; token := None; endpoint := None;
     region := None; connected := false; selfDeaf := true; selfMute := false;
     _connectTimeout := None; _pendingConnection := None |}.

Definition setChannelId (v : option string) (c : t) : t :=
  mk v (sessionId c) (token c) (endpoint c) (region c) (connected c)
     (selfDeaf c) (selfMute c) (_connectTimeout c) (_pendingConnection c).
Definition setSessionId (v : option string) (c : t) : t :=
  mk (channelId c) v (token c) (endpoint c) (region c) (connected c)
     (selfDeaf c) (selfMute c) (_connectTimeout c) (_pendingConnection c).
Definition setToken (v : option string) (c : t) : t :=
  mk (channelId c) (sessionId c) v (endpoint c) (region c) (connected c)
     (selfDeaf c) (selfMute c) (_connectTimeout c) (_pendingConnection c).
Definition setEndpoint (v : option string) (c : t) : t :=
  mk (channelId c) (sessionId c) (token c) v (region c) (connected c)
     (selfDeaf c) (selfMute c) (_connectTimeout c) (_pendingConnection c).
Definition setRegion (v : option string) (c : t) : t :=
  mk (channelId c) (sessionId c) (token c) (endpoint c) v (connected c)
     (selfDeaf c) (selfMute c) (_connectTimeout c) (_pendingConnection c).
Definition setConnected (v : bool) (c : t) : t :=
  mk (channelId c) (sessionId c) (token c) (endpoint c) (region c) v
     (selfDeaf c) (selfMute c) (_connectTimeout c) (_pendingConnection c).
Definition setSelfDeaf (v : bool) (c : t) : t :=
  mk (channelId c) (sessionId c) (token c) (endpoint c) (region c) (connected c)
     v (selfMute c) (_connectTimeout c) (_pendingConnection c).
Definition setSelfMute (v : bool) (c : t) : t :=
  mk (channelId c) (sessionId c) (token c) (endpoint c) (region c) (connected c)
     (selfDeaf c) v (_connectTimeout c) (_pendingConnection c).
Definition setConnectTimeout (v : option nat) (c : t) : t :=
  mk (channelId c) (sessionId c) (token c) (endpoint c) (region c) (connected c)
     (selfDeaf c) (selfMute c) v (_pendingConnection c).
Definition setPendingConnection (v : option nat) (c : t) : t :=
  mk (channelId c) (sessionId c) (token c) (endpoint c) (region c) (connected c)
     (selfDeaf c) (selfMute c) (_connectTimeout c) v.

(** What a connection emits, and what it does to its deferred promises
    and timers; a deferred and the timer armed with it carry the number
    [connect] was given for them. *)
Inductive Effect :=
| EmitDisconnect
| EmitMove (oldChannel newChannel : option string)
| EmitReady (sessionId token endpoint region : option string)
| EmitVoiceUpdate (channelId : option string) (selfDeaf selfMute : bool)
| Resolve (deferred : nat)
| Reject (deferred : nat)
| SetTimeout (timer : nat) (ms : Z)
| ClearTimeout (timer : nat).

(** [_sendVoiceUpdate()] *)
Definition _sendVoiceUpdate (c : t) : list Effect :=
  [EmitVoiceUpdate (channelId c) (selfDeaf c) (selfMute c)].

(** [_clearTimeout()] *)
Definition _clearTimeout (c : t) : t * list Effect :=
  match _connectTimeout c with
  | Some timer => (setConnectTimeout None c, [ClearTimeout timer])
  | None => (c, [])
  end.

(** [_checkReady()] *)
Definition _checkReady (c : t) : t * list Effect :=
  if Js.truthy (sessionId c) && Js.truthy (token c) && Js.truthy (endpoint c) then
    let '(c1, e1) := _clearTimeout (setConnected true c) in
    let '(c2, e2) :=
      match _pendingConnection c1 with
      | Some d => (setPendingConnection None c1, [Resolve d])
      | None => (c1, [])
      end in
    (c2, e1 ++ e2 ++ [EmitReady (sessionId c2) (token c2) (endpoint c2) (region c2)])
  else (c, []).

Record ConnectOptions := mkConnectOptions {
  opt_channelId : option string;
  opt_selfDeaf : option bool;
  opt_selfMute : option bool;
  opt_timeout : option Z
}.

(** [connect(options)] up to its [await]; [fresh] names the deferred and
    the timer it creates. *)
Definition connect (fresh : nat) (options : ConnectOptions) (c : t) : t * list Effect :=
  let c1 := setChannelId (opt_channelId options) c in
  let c2 := setSelfDeaf (default true (opt_selfDeaf options)) c1 in
  let c3 := setSelfMute (default false (opt_selfMute options)) c2 in
  let c4 := setPendingConnection (Some fresh) c3 in
  let c5 := setConnectTimeout (Some fresh) c4 in
  (c5, SetTimeout fresh (default 15000 (opt_timeout options)) :: _sendVoiceUpdate c5).

(** The callback of the timer armed by [connect]. *)
Definition connectTimeoutFired (c : t) : t * list Effect :=
  match _pendingConnection c with
  | Some d => (setPendingConnection None c, [Reject d])
  | None => (c, [])
  end.

(** [disconnect()] *)
Definition disconnect (c : t) : t * list Effect :=
  let c1 := setConnected false
              (setEndpoint None (setToken None (setSessionId None (setChannelId None c)))) in
  let '(c2, e) := _clearTimeout c1 in
  (c2, e ++ _sendVoiceUpdate c2).

(** [move(channelId)] *)
Definition move (newChannel : option string) (c : t) : t * list Effect :=
  let c1 := setChannelId newChannel c in
  (c1, _sendVoiceUpdate c1).

Definition optionStringEqb (a b : option string) : bool :=
  match a, b with
  | Some x, Some y => String.eqb x y
  | None, None => true
  | _, _ => false
  end.

(** [handleVoiceStateUpdate(state)] *)
Definition handleVoiceStateUpdate (stateSessionId stateChannelId : option string) (c : t)
  : t * list Effect :=
  if negb (Js.truthy stateChannelId) && Js.truthy (channelId c) then
    (setConnected false (setChannelId None c), [EmitDisconnect])
  else
    let '(c1, e1) :=
      if Js.truthy stateChannelId && Js.truthy (channelId c)
         && negb (optionStringEqb stateChannelId (channelId c))
      then (setChannelId stateChannelId c, [EmitMove (channelId c) stateChannelId])
      else (c, []) in
    let c2 := setChannelId stateChannelId (setSessionId stateSessionId c1) in
    let '(c3, e3) := _checkReady c2 in
    (c3, e1 ++ e3).

Definition isLowerOrDash (ch : ascii) : bool :=
  let n := nat_of_ascii ch in
  ((97 <=? n) && (n <=? 122) || (n =? 45))%nat.

Definition isDigit (ch : ascii) : bool :=
  let n := nat_of_ascii ch in
  ((48 <=? n) && (n <=? 57))%nat.

Fixpoint takeWhile (p : ascii -> bool) (s : string) : string :=
  match s with
  | String ch rest => if p ch then String ch (takeWhile p rest) else EmptyString
  | EmptyString => EmptyString
  end.

Fixpoint dropWhile (p : ascii -> bool) (s : string) : string :=
  match s with
  | String ch rest => if p ch then dropWhile p rest else s
  | EmptyString => EmptyString
  end.

(** [endpoint.match(/^([a-z-]+)\d*\./)]: the label is the longest
    leading run of lower-case letters and dashes, since no shorter run
    can be followed by digits and a dot. *)
Definition matchRegion (endpointText : string) : option string :=
  match takeWhile isLowerOrDash endpointText with
  | EmptyString => None
  | label =>
      match dropWhile isDigit (dropWhile isLowerOrDash endpointText) with
      | String "."%char _ => Some label
      | _ => None
      end
  end.

(** [handleVoiceServerUpdate(server)] *)
Definition handleVoiceServerUpdate (serverToken serverEndpoint : option string) (c : t)
  : t * list Effect :=
  let c1 := setEndpoint serverEndpoint (setToken serverToken c) in
  let c2 :=
    match endpoint c1 with
    | Some e => if Js.truthy (endpoint c1) then setRegion (matchRegion e) c1 else c1
    | None => c1
    end in
  _checkReady c2.

(** [getVoicePayload()] *)
Definition getVoicePayload (c : t) : Js.Value :=
  Js.Obj [("sessionId"%string, Js.ofField (sessionId c));
          ("event"%string,
           Js.Obj [("token"%string, Js.ofField (token c));
                   ("endpoint"%string, Js.ofField (endpoint c))])].

(** The payload of the ['ready'] event. *)
Definition readyPayload (c : t) : Js.Value :=
  Js.Obj [("sessionId"%string, Js.ofField (sessionId c));
          ("token"%string, Js.ofField (token c));
          ("endpoint"%string, Js.ofField (endpoint c));
          ("region"%string, Js.ofField (region c))].

(** What can happen to a connection.  The timer callback is allowed at
    any time, which covers every schedule of the real timers. *)
Inductive Input :=
| CallConnect (options : ConnectOptions)
| CallDisconnect
| CallMove (newChannel : option string)
| VoiceStateUpdate (stateSessionId stateChannelId : option string)
| VoiceServerUpdate (serverToken serverEndpoint : option string)
| ConnectTimeoutFired.

Definition step (fresh : nat) (c : t) (i : Input) : t * list Effect :=
  match i with
  | CallConnect options => connect fresh options c
  | CallDisconnect => disconnect c
  | CallMove ch => move ch c
  | VoiceStateUpdate sid ch => handleVoiceStateUpdate sid ch c
  | VoiceServerUpdate tok ep => handleVoiceServerUpdate tok ep c
  | ConnectTimeoutFired => connectTimeoutFired c
  end.

(** A run; the [k]-th input of the run gets the number [fresh + k]. *)
Fixpoint run (fresh : nat) (c : t) (inputs : list Input) : t * list Effect :=
  match inputs with
  | [] => (c, [])
  | i :: rest =>
      let '(c1, e1) := step fresh c i in
      let '(c2, e2) := run (S fresh) c1 rest in
      (c2, e1 ++ e2)
  end.

(** The deferred promises a log settles, in order. *)
Definition settled (log : list Effect) : list nat :=
  flat_map (fun e => match e with
                     | Resolve d => [d]
                     | Reject d => [d]
                     | _ => []
                     end) log.

(** The deferred promises a log resolves, in order. *)
Definition resolved (log : list Effect) : list nat :=
  flat_map (fun e => match e with
                     | Resolve d => [d]
                     | _ => []
                     end) log.


End Connection.

(** ** VoiceAdapter (adapters/VoiceAdapter.js) *)

Module VoiceAdapter.

(** A gateway packet, by its type [t] and the fields of its data [d]
    that the adapter reads. *)
Inductive Packet :=
| VOICE_STATE_UPDATE (user_id guild_id : string) (session_id channel_id : option string)
| VOICE_SERVER_UPDATE (guild_id : string) (token endpoint : option string)
| OtherPacket (t : string).

(** [userId] is [manager.userId]; [connections] holds, for each guild
    with a player in [manager.players], the connection of that player. *)
Record t := mk {
  userId : option string;
  connections : gmap string Connection.t;
  _pendingStates : gmap string (option string * option string);
  _pendingServers : gmap string (option string * option string)
}.

(** [new VoiceAdapter(manager)] *)
Definition create (user : option string) (players : gmap string Connection.t) : t :=
  {| userId := user; connections := players;
     _pendingStates := ∅; _pendingServers := ∅ |}.

(** [_checkPendingConnection(guildId)] *)
Definition _checkPendingConnection (guildId : string) (a : t) : t :=
  match _pendingStates a !! guildId, _pendingServers a !! guildId with
  | Some _, Some _ =>
      mk (userId a) (connections a)
         (delete guildId (_pendingStates a)) (delete guildId (_pendingServers a))
  | _, _ => a
  end.

(** [_handleVoiceStateUpdate(data)]; what the connection of the guild
    emits is returned with the guild. *)
Definition _handleVoiceStateUpdate (user_id guild_id : string)
    (session_id channel_id : option string) (a : t)
  : t * list (string * Connection.Effect) :=
  if negb (Connection.optionStringEqb (Some user_id) (userId a)) then (a, [])
  else
    let '(players, emitted) :=
      match connections a !! guild_id with
      | Some c =>
          let '(c', e) := Connection.handleVoiceStateUpdate session_id channel_id c in
          (<[guild_id := c']> (connections a), map (pair guild_id) e)
      | None => (connections a, [])
      end in
    let a1 := mk (userId a) players
                 (<[guild_id := (session_id, channel_id)]> (_pendingStates a))
                 (_pendingServers a) in
    (_checkPendingConnection guild_id a1, emitted).

(** [_handleVoiceServerUpdate(data)] *)
Definition _handleVoiceServerUpdate (guild_id : string) (token endpoint : option string) (a : t)
  : t * list (string * Connection.Effect) :=
  let '(players, emitted) :=
    match connections a !! guild_id with
    | Some c =>
        let '(c', e) := Connection.handleVoiceServerUpdate token endpoint c in
        (<[guild_id := c']> (connections a), map (pair guild_id) e)
    | None => (connections a, [])
    end in
  let a1 := mk (userId a) players (_pendingStates a)
               (<[guild_id := (token, endpoint)]> (_pendingServers a)) in
  (_checkPendingConnection guild_id a1, emitted).

(** [_handleRawPacket(packet)] *)
Definition _handleRawPacket (packet : Packet) (a : t) : t * list (string * Connection.Effect) :=
  match packet with
  | VOICE_STATE_UPDATE user_id guild_id session_id channel_id =>
      _handleVoiceStateUpdate user_id guild_id session_id channel_id a
  | VOICE_SERVER_UPDATE guild_id token endpoint =>
      _handleVoiceServerUpdate guild_id token endpoint a
  | OtherPacket _ => (a, [])
  end.

(** The packets of a gateway, handled in the order of arrival. *)
Fixpoint packets (ps : list Packet) (a : t) : t * list (string * Connection.Effect) :=
  match ps with
  | [] => (a, [])
  | packet :: rest =>
      let '(a1, e1) := _handleRawPacket packet a in
      let '(a2, e2) := packets rest a1 in
      (a2, e1 ++ e2)
  end.

End VoiceAdapter.

(** ** Player (structures/Player.js) *)

Module Player.

Inductive PlayerState :=
| CONNECTING | CONNECTED | PLAYING | PAUSED | STOPPED | DISCONNECTED | DESTROYED.

(** [Defaults.INACTIVITY] *)
Record Inactivity := mkInactivity {
  enabled : bool;
  timeout : Z;
  pausedTimeout : Z;
  emptyTimeout : Z
}.

Definition defaultInactivity : Inactivity :=
  {| enabled := true; timeout := 300000; pausedTimeout := 600000; emptyTimeout := 30000 |}.

(** The body of a player update sent to a node. *)
Inductive UpdateData :=
| PlayData (trackEncoded : option string) (position endTime : option Z)
           (filters : option string) (volume : Z)
| PausedData (paused : bool)
| VoiceData (sessionId token endpoint : Js.Value).

(** A REST call on a node, named by the node's name. *)
Inductive RestCall :=
| UpdatePlayer (node : string) (guildId : string) (data : UpdateData) (noReplace : bool)
| DestroyPlayer (node : string) (guildId : string).

Inductive Effect :=
| EmitQueueEnd
| QueueEmitted (e : Queue.Event)
| Rest (call : RestCall)
| ProviderCalled (provider : Queue.ProviderId) (track : Track)
| LogWarn
| LogInfo.

(** [node] is the name of the bound node; [filters] holds
    [filters.toJSON()] when [filters.hasActiveFilters], the filter
    bookkeeping itself being outside the model; [effects] is what the
    player has emitted, sent and logged so far, oldest first. *)
Record t := mk {
  guildId : string;
  volume : Z;
  state : PlayerState;
  queue : Queue.t;
  filters : option string;
  connection : Connection.t;
  node : option string;
  playing : bool;
  paused : bool;
  position : Z;
  positionTimestamp : Z;
  connected : bool;
  inactivity : Inactivity;
  _inactivityTimer : option (string * Z);
  _preloadedTrack : option Track;
  effects : list Effect
}.

(** [new Player(manager, options)] *)
Definition create (guild : string) (boundNode : option string) : t :=
  {| guildId := guild; volume := 100; state := CONNECTING; queue := Queue.create;
     filters := None; connection := Connection.create; node := boundNode;
     playing := false; paused := false; position := 0; positionTimestamp := 0;
     connected := false; inactivity := defaultInactivity;
     _inactivityTimer := None; _preloadedTrack := None; effects := [] |}.

Definition setState (v : PlayerState) (p : t) : t :=
  mk (guildId p) (volume p) v (queue p) (filters p) (connection p) (node p)
     (playing p) (paused p) (position p) (positionTimestamp p) (connected p)
     (inactivity p) (_inactivityTimer p) (_preloadedTrack p) (effects p).
Definition setQueue (v : Queue.t) (p : t) : t :=
  mk (guildId p) (volume p) (state p) v (filters p) (connection p) (node p)
     (playing p) (paused p) (position p) (positionTimestamp p) (connected p)
     (inactivity p) (_inactivityTimer p) (_preloadedTrack p) (effects p).
Definition setNode (v : option string) (p : t) : t :=
  mk (guildId p) (volume p) (state p) (queue p) (filters p) (connection p) v
     (playing p) (paused p) (position p) (positionTimestamp p) (connected p)
     (inactivity p) (_inactivityTimer p) (_preloadedTrack p) (effects p).
Definition setPlaying (v : bool) (p : t) : t :=
  mk (guildId p) (volume p) (state p) (queue p) (filters p) (connection p) (node p)
     v (paused p) (position p) (positionTimestamp p) (connected p)
     (inactivity p) (_inactivityTimer p) (_preloadedTrack p) (effects p).
Definition setPaused (v : bool) (p : t) : t :=
  mk (guildId p) (volume p) (state p) (queue p) (filters p) (connection p) (node p)
     (playing p) v (position p) (positionTimestamp p) (connected p)
     (inactivity p) (_inactivityTimer p) (_preloadedTrack p) (effects p).
Definition setInactivityTimer (v : option (string * Z)) (p : t) : t :=
  mk (guildId p) (volume p) (state p) (queue p) (filters p) (connection p) (node p)
     (playing p) (paused p) (position p) (positionTimestamp p) (connected p)
     (inactivity p) v (_preloadedTrack p) (effects p).
Definition setPreloadedTrack (v : option Track) (p : t) : t :=
  mk (guildId p) (volume p) (state p) (queue p) (filters p) (connection p) (node p)
     (playing p) (paused p) (position p) (positionTimestamp p) (connected p)
     (inactivity p) (_inactivityTimer p) v (effects p).
Definition record (e : list Effect) (p : t) : t :=
  mk (guildId p) (volume p) (state p) (queue p) (filters p) (connection p) (node p)
     (playing p) (paused p) (position p) (positionTimestamp p) (connected p)
     (inactivity p) (_inactivityTimer p) (_preloadedTrack p) (effects p ++ e).

(** An awaited call either returns or throws. *)
Inductive Outcome (A : Type) :=
| Returned (a : A)
| Thrown.
Arguments Returned {A} a.
Arguments Thrown {A}.

(** What an autoplay provider does when called. *)
Inductive ProviderOutcome :=
| Recommends (recommended : list Track)
| ProviderThrows.

Record PlayOptions := mkPlayOptions {
  startTime : option Z;
  endTime : option Z;
  noReplace : option bool
}.

Definition noPlayOptions : PlayOptions :=
  {| startTime := None; endTime := None; noReplace := None |}.

(** [if (x)] for an optional number. *)
Definition truthyNumber (x : option Z) : bool :=
  match x with
  | Some z => negb (z =? 0)
  | None => false
  end.

(** [get estimatedPosition()]; [now] is [Date.now()]. *)
Definition estimatedPosition (now : Z) (p : t) : Z :=
  if negb (playing p) || paused p then position p
  else position p + (now - positionTimestamp p).

(** [_resetInactivityTimer()] *)
Definition _resetInactivityTimer (p : t) : t :=
  match _inactivityTimer p with
  | Some _ => setInactivityTimer None p
  | None => p
  end.

(** [_startInactivityTimer(reason)] *)
Definition _startInactivityTimer (reason : string) (p : t) : t :=
  if negb (enabled (inactivity p)) then p
  else
    let p1 := _resetInactivityTimer p in
    let ms :=
      if String.eqb reason "paused" then pausedTimeout (inactivity p1)
      else if String.eqb reason "empty" then emptyTimeout (inactivity p1)
      else timeout (inactivity p1) in
    setInactivityTimer (Some (reason, ms)) p1.

(** [_preloadNextTrack()] *)
Definition _preloadNextTrack (p : t) : t :=
  match Queue.at_ 0 (queue p) with
  | Some nextTrack =>
      if Js.truthy (encoded nextTrack) then setPreloadedTrack (Some nextTrack) p else p
  | None => p
  end.

(** What the player tells its listeners when a track ends. *)
Inductive Notice :=
| TRACK_END (track : option Track) (reason : string).

Section Environment.

(** The world around a player: whether a REST call succeeds, given what
    the player did before it; what a provider answers; the manager's
    node pool; whether the manager has a logger. *)
Variable restOk : list Effect -> RestCall -> bool.
Variable provider : Queue.ProviderId -> Track -> Queue.t -> ProviderOutcome.
Variable nodes : NodeManager.Pool.
Variable hasLogger : bool.

(** [this.node.updatePlayer(this.guildId, data, noReplace)]; a player
    without a node throws on the property access. *)
Definition updatePlayer (data : UpdateData) (replace : option bool) (p : t)
  : Outcome unit * t :=
  match node p with
  | None => (Thrown, p)
  | Some n =>
      let call := UpdatePlayer n (guildId p) data (default false replace) in
      let p1 := record [Rest call] p in
      if restOk (effects p) call then (Returned tt, p1) else (Thrown, p1)
  end.

(** [_sendVoiceUpdate(data)] *)
Definition _sendVoiceUpdate (data : Js.Value) (p : t) : Outcome unit * t :=
  let p1 :=
    match node p with
    | None =>
        setNode (option_map Node.name
                   (NodeManager.getBest (Connection.region (connection p)) nodes)) p
    | Some _ => p
    end in
  updatePlayer
    (VoiceData (Js.get "sessionId" data) (Js.get "token" data) (Js.get "endpoint" data))
    None p1.

(** The listener of the connection's ['ready'] event.  It calls
    [_sendVoiceUpdate(data)] and drops the promise: whether the update
    returned or threw is lost, and the listener itself returns; the model
    lets the update finish. *)
Definition onConnectionReady (p : t) : t :=
  snd (_sendVoiceUpdate (Connection.readyPayload (connection p)) p).

(** [queue.getAutoplayTracks()] *)
Definition getAutoplayTracks (p : t) : Outcome (list Track) * t :=
  match Queue.autoplayProvider (queue p), Queue.current (queue p) with
  | Some f, Some cur =>
      let p1 := record [ProviderCalled f cur] p in
      match provider f cur (queue p) with
      | Recommends recommended => (Returned recommended, p1)
      | ProviderThrows => (Thrown, p1)
      end
  | _, _ => (Returned [], p)
  end.

(** The body of [_handleQueueEnd()], with [this.play()] as [replay]. *)
Definition _handleQueueEndBody
    (replay : t -> option (Outcome (option Track) * t)) (p : t)
  : option (Outcome (option Track) * t) :=
  let stopped (p0 : t) :=
    Some (Returned None,
          _startInactivityTimer "empty" (setState STOPPED (setPlaying false p0))) in
  if Queue.autoplay (queue p) && bool_decide (is_Some (Queue.autoplayProvider (queue p)))
  then
    match getAutoplayTracks p with
    | (Returned recommended, p1) =>
        if len recommended >? 0 then
          let '(_, q1, emitted) := Queue.add recommended Queue.defaultAddOptions (queue p1) in
          replay (record (map QueueEmitted emitted) (setQueue q1 p1))
        else stopped p1
    | (Thrown, p1) => stopped (if hasLogger then record [LogWarn] p1 else p1)
    end
  else stopped p.

(** The body of [play(track, options)], with [this._handleQueueEnd()] as
    [queueEnd].  The source does not await [_handleQueueEnd()]: its
    promise is dropped, so what it returns or throws is lost; the model
    lets it finish before [play] returns. *)
Definition playBody
    (queueEnd : t -> option (Outcome (option Track) * t))
    (track : option Track) (options : PlayOptions) (p : t)
  : option (Outcome (option Track) * t) :=
  let send (p0 : t) :=
    match Queue.current (queue p0) with
    | None => Some (Thrown, p0)
    | Some cur =>
        let data :=
          PlayData (encoded cur)
                   (if truthyNumber (startTime options) then startTime options else None)
                   (if truthyNumber (endTime options) then endTime options else None)
                   (filters p0) (volume p0) in
        match updatePlayer data (noReplace options) p0 with
        | (Thrown, p1) => Some (Thrown, p1)
        | (Returned _, p1) =>
            let p2 := setState PLAYING (setPaused false (setPlaying true p1)) in
            let p3 := _preloadNextTrack (_resetInactivityTimer p2) in
            Some (Returned (Queue.current (queue p3)), p3)
        end
    end in
  match track with
  | None =>
      let '(following, q1) := Queue.next (queue p) in
      let p1 := setQueue q1 p in
      match following with
      | None =>
          match queueEnd (record [EmitQueueEnd] p1) with
          | Some (_, p2) => Some (Returned None, p2)
          | None => None
          end
      | Some _ => send p1
      end
  | Some given => send (setQueue (Queue.setCurrent (Some given) (queue p)) p)
  end.

(** [play] and [_handleQueueEnd] call each other; [fuel] bounds the
    depth of that recursion. *)
Fixpoint play (fuel : nat) (track : option Track) (options : PlayOptions) (p : t)
  : option (Outcome (option Track) * t) :=
  match fuel with
  | O => None
  | S fuel' =>
      playBody (_handleQueueEndBody (play fuel' None noPlayOptions)) track options p
  end.

Definition _handleQueueEnd (fuel : nat) (p : t) : option (Outcome (option Track) * t) :=
  _handleQueueEndBody (play fuel None noPlayOptions) p.

(** [skip()] *)
Definition skip (fuel : nat) (p : t) : option (Outcome (option Track) * t) :=
  play fuel None noPlayOptions p.

(** [pause()] *)
Definition pause (p : t) : Outcome unit * t :=
  if negb (playing p) then (Returned tt, p)
  else
    match updatePlayer (PausedData true) None p with
    | (Thrown, p1) => (Thrown, p1)
    | (Returned _, p1) =>
        (Returned tt, _startInactivityTimer "paused" (setState PAUSED (setPaused true p1)))
    end.

(** [resume()] *)
Definition resume (p : t) : Outcome unit * t :=
  if negb (paused p) then (Returned tt, p)
  else
    match updatePlayer (PausedData false) None p with
    | (Thrown, p1) => (Thrown, p1)
    | (Returned _, p1) =>
        (Returned tt, _resetInactivityTimer (setState PLAYING (setPaused false p1)))
    end.

(** [migrateNode(newNode)]; [now] is [Date.now()] when the estimated
    position is read.  The outcome of the delete on the old node is
    ignored, as is a missing old node, until its name is logged. *)
Definition migrateNode (fuel : nat) (now : Z) (newNode : string) (p : t)
  : option (Outcome unit * t) :=
  let oldNode := node p in
  let p1 :=
    match oldNode with
    | Some old => record [Rest (DestroyPlayer old (guildId p))] p
    | None => p
    end in
  let p2 := setNode (Some newNode) p1 in
  let voice :=
    if connected p2
    then _sendVoiceUpdate (Connection.getVoicePayload (connection p2)) p2
    else (Returned tt, p2) in
  match voice with
  | (Thrown, p3) => Some (Thrown, p3)
  | (Returned _, p3) =>
      let replayed :=
        match Queue.current (queue p3) with
        | Some cur =>
            if playing p3 then
              play fuel (Some cur)
                   {| startTime := Some (estimatedPosition now p3);
                      endTime := None; noReplace := None |} p3
            else Some (Returned None, p3)
        | None => Some (Returned None, p3)
        end in
      match replayed with
      | None => None
      | Some (Thrown, p4) => Some (Thrown, p4)
      | Some (Returned _, p4) =>
          if hasLogger then
            match oldNode with
            | Some _ => Some (Returned tt, record [LogInfo] p4)
            | None => Some (Thrown, p4)
            end
          else Some (Returned tt, p4)
      end
  end.

(** [_handleTrackEnd(trackData, reason)], with the notification it emits
    first.  The promise of [play()] is dropped, so what the call returns
    or throws is lost; the model lets it finish. *)
Definition _handleTrackEnd (fuel : nat) (reason : string) (p : t) : option (list Notice * t) :=
  let notice := [TRACK_END (Queue.current (queue p)) reason] in
  let replay :=
    match play fuel None noPlayOptions p with
    | Some (_, p1) => Some (notice, p1)
    | None => None
    end in
  if String.eqb reason "finished" then replay
  else if String.eqb reason "loadFailed" then replay
  else Some (notice, p).

(** Track-end events of one player, handled one after the other. *)
Fixpoint trackEnds (fuel : nat) (reasons : list string) (p : t) : option (list Notice * t) :=
  match reasons with
  | [] => Some ([], p)
  | reason :: rest =>
      match _handleTrackEnd fuel reason p with
      | Some (n1, p1) =>
          match trackEnds fuel rest p1 with
          | Some (n2, p2) => Some (n1 ++ n2, p2)
          | None => None
          end
      | None => None
      end
  end.

End Environment.

End Player.

(** ** NodeManager.handleNodeFailure (managers/NodeManager.js)

    It follows Player, whose [migrateNode] it calls. *)

Module Failover.

Section World.

Variable restOk : list Player.Effect -> Player.RestCall -> bool.
Variable provider : Queue.ProviderId -> Track -> Queue.t -> Player.ProviderOutcome.
Variable nodes : NodeManager.Pool.
Variable hasLogger : bool.

(** [player.node?.name === failedNode.name] *)
Definition onNode (failedNode : string) (p : Player.t) : bool :=
  match Player.node p with
  | Some n => String.eqb n failedNode
  | None => false
  end.

(** One round of the migration loop; [now] is [Date.now()] during the
    player's migration.  What [migrateNode] throws is caught, and the
    manager's log lines are not part of the model. *)
Definition migrateOne (fuel : nat) (now : Z) (p : Player.t) : option Player.t :=
  match NodeManager.getBest (Connection.region (Player.connection p)) nodes with
  | Some newNode =>
      match Player.migrateNode restOk provider nodes hasLogger fuel now (Node.name newNode) p with
      | Some (_, p') => Some p'
      | None => None
      end
  | None => Some p
  end.

Fixpoint migrateEach (fuel : nat) (nows : list Z) (players : list Player.t)
  : option (list Player.t) :=
  match players with
  | [] => Some []
  | p :: rest =>
      match migrateOne fuel (hd 0 nows) p with
      | Some p' =>
          match migrateEach fuel (tl nows) rest with
          | Some rest' => Some (p' :: rest')
          | None => None
          end
      | None => None
      end
  end.

(** [handleNodeFailure(failedNode)]: the players it migrates, as it
    leaves them; [players] are [this.manager.players.values()]. *)
Definition handleNodeFailure (fuel : nat) (nows : list Z) (failedNode : string)
    (players : list Player.t) : option (list Player.t) :=
  let playersToMigrate := List.filter (onNode failedNode) players in
  migrateEach fuel nows playersToMigrate.

End World.

End Failover.

(** ** The order of getBest *)

(** [a] sorts no later than [b]: lower priority value first, then lower
    penalty. *)
Definition before (a b : Node.t) : Prop :=
  (Node.priority a < Node.priority b \/
   (Node.priority a == Node.priority b /\ Node.penalty a <= Node.penalty b))%Q.

(** ** The invariant of the connection's deferred promises *)


(** ** The update play() sends *)

(** The update on node [n] with which [p] plays [t] under [options]. *)
Definition playCall (n : string) (options : Player.PlayOptions) (p : Player.t) (t : Track)
  : Player.RestCall :=
  Player.UpdatePlayer n (Player.guildId p)
    (Player.PlayData (encoded t)
       (if Player.truthyNumber (Player.startTime options)
        then Player.startTime options else None)
       (if Player.truthyNumber (Player.endTime options)
        then Player.endTime options else None)
       (Player.filters p) (Player.volume p))
    (default false (Player.noReplace options)).

(** ** The invariant of the adapter's pending maps *)

(** No guild waits in both maps. *)
Definition neverBoth (a : VoiceAdapter.t) : Prop :=
  forall g, VoiceAdapter._pendingStates a !! g = None \/
            VoiceAdapter._pendingServers a !! g = None.

(** ** Sample data for the examples *)

Definition sampleTrack (id : string) : Track :=
  {| encoded := Some id; identifier := id; title := id; duration := 1000 |}.

Definition sampleQueue (prio main : list Track) : Queue.t :=
  Queue.setTracks main (Queue.setPriorityTracks prio Queue.create).

Definition sampleNode (id : string) (nodePriority : Q) (nodeRegions : list string)
    (nodeState : Node.NodeState) (nodePlayers : Q) : Node.t :=
  Node._handleStats
    {| Node.players := nodePlayers; Node.playingPlayers := 0; Node.cpu := None;
       Node.frameStats := None |}
    (Node.setState nodeState
       (Node.create {| Node.opt_name := id; Node.opt_retryAmount := None;
                       Node.opt_retryDelay := None; Node.opt_priority := Some nodePriority;
                       Node.opt_regions := Some nodeRegions |})).

(** A handshake that completes, then a voice-server update without an
    endpoint. *)
Definition sampleHandshake : list Connection.Input :=
  [Connection.CallConnect
     {| Connection.opt_channelId := Some "channel"; Connection.opt_selfDeaf := None;
        Connection.opt_selfMute := None; Connection.opt_timeout := None |};
   Connection.VoiceStateUpdate (Some "session") (Some "channel");
   Connection.VoiceServerUpdate (Some "token") (Some "us-east42.discord.media")].

(** A node that allows one reconnection attempt, through a connect, a
    close, the one reconnection attempt and its failure. *)
Definition sampleRetryOnce : Node.t :=
  Node.create {| Node.opt_name := "X"; Node.opt_retryAmount := Some 1;
                 Node.opt_retryDelay := None; Node.opt_priority := None;
                 Node.opt_regions := None |}.

Definition sampleOutage : list Node.Input :=
  [Node.CallConnect; Node.OnOpen; Node.OnReady (Some "backend-session");
   Node.OnClose 1006 "gone" (1 # 2);
   Node.ReconnectTimerFired;
   Node.OnClose 1006 "refused" (1 # 2)].

(** A world in which every REST call succeeds and the provider always
    has a recommendation. *)
Definition restAlways : list Player.Effect -> Player.RestCall -> bool :=
  fun _ _ => true.

Definition sampleProvider : Queue.ProviderId -> Track -> Queue.t -> Player.ProviderOutcome :=
  fun _ _ _ => Player.Recommends [sampleTrack "R"].

(** A player bound to node X that finished the handshake and is playing
    the last track T of its queue, with autoplay on and a provider set;
    the last position sample is 30000 ms, taken at time 1000. *)
Definition samplePlayer : Player.t :=
  {| Player.guildId := "guild"; Player.volume := 100; Player.state := Player.PLAYING;
     Player.queue :=
       Queue.mk [] [] (Some (sampleTrack "T")) None Queue.OFF true (Some 0%nat) [] 50;
     Player.filters := None;
     Player.connection := fst (Connection.run 0 Connection.create sampleHandshake);
     Player.node := Some "X";
     Player.playing := true; Player.paused := false;
     Player.position := 30000; Player.positionTimestamp := 1000;
     Player.connected := true; Player.inactivity := Player.defaultInactivity;
     Player._inactivityTimer := None; Player._preloadedTrack := None;
     Player.effects := [] |}.

(** * Properties *)

(** ** Queue: indices outside the concatenated range *)

Section QueueBounds.

Import Queue.

Lemma size_nonneg (q : t) : 0 <= size q.
Proof. unfold size, len. lia. Qed.

Lemma remove_out_of_range (q : t) (index : Z) :
  index < 0 \/ size q <= index -> remove index q = (None, q, []).
Proof.
  intros Hout. unfold remove, size, len in *.
  destruct (index <? 0) eqn:Hneg; [reflexivity|].
  apply Z.ltb_ge in Hneg.
  destruct (index <? Z.of_nat (length (priorityTracks q))) eqn:Hprio.
  { apply Z.ltb_lt in Hprio. lia. }
  destruct (index - Z.of_nat (length (priorityTracks q)) <? Z.of_nat (length (tracks q))) eqn:Hmain.
  { apply Z.ltb_lt in Hmain. lia. }
  reflexivity.
Qed.

(** *** Whole numbers as arguments *)

Lemma lt_int (a b : Z) : Js.lt (Js.int a) (Js.int b) = (a <? b).
Proof.
  unfold Js.lt, Js.int, Qle_bool. simpl. rewrite !Z.mul_1_r.
  now rewrite Z.ltb_antisym.
Qed.

Lemma ge_int (a b : Z) : Js.ge (Js.int a) (Js.int b) = (a >=? b).
Proof.
  unfold Js.ge. change (Js.int a) with (Js.Num (inject_Z a)) at 1.
  change (Js.int b) with (Js.Num (inject_Z b)) at 1.
  cbv iota beta. fold (Js.int a) (Js.int b). rewrite lt_int.
  rewrite Z.geb_leb, Z.ltb_antisym. now rewrite negb_involutive.
Qed.

Lemma outside_int (q : t) (i : Z) :
  outside (Js.int i) q = (i <? 0) || (i >=? size q).
Proof. unfold outside. now rewrite lt_int, ge_int. Qed.

Lemma inside_int (q : t) (i : Z) : 0 <= i < size q -> outside (Js.int i) q = false.
Proof.
  intros Hi. rewrite outside_int. apply orb_false_iff. split.
  - apply Z.ltb_ge. lia.
  - rewrite Z.geb_leb. apply Z.leb_gt. lia.
Qed.

Lemma truncate_int (z : Z) : Js.truncate (inject_Z z) = z.
Proof.
  unfold Js.truncate. destruct (Qle_bool 0 (inject_Z z)); [apply Qfloor_Z | apply Qceiling_Z].
Qed.

Lemma spliceStart_int (z length : Z) :
  0 <= z -> Js.spliceStart (Js.int z) length = Z.min z length.
Proof.
  intros Hz. unfold Js.spliceStart, Js.int. rewrite truncate_int.
  destruct (z <? 0) eqn:Hneg; [apply Z.ltb_lt in Hneg; lia | reflexivity].
Qed.

Lemma spliceStart_zero {A} (l : list A) : Js.spliceStart (Js.int 0) (len l) = 0.
Proof. rewrite spliceStart_int by lia. unfold len. lia. Qed.

Lemma arrayIndex_int (z : Z) : 0 <= z -> Js.arrayIndex (Js.int z) = Some (Z.to_nat z).
Proof.
  intros Hz. unfold Js.arrayIndex, Js.int. rewrite Qfloor_Z.
  assert (Hle : Qle_bool 0 (inject_Z z) = true).
  { apply Qle_bool_iff. unfold Qle. simpl. lia. }
  rewrite Hle. simpl. now rewrite Qeq_bool_refl.
Qed.

Lemma tracksOf_tracks (l : list Track) : tracksOf (map Some l) = Some l.
Proof. induction l as [|x l IH]; simpl; [reflexivity | now rewrite IH]. Qed.

Lemma tracksOf_hole (slots : list (option Track)) (k : nat) :
  slots !! k = Some None -> tracksOf slots = None.
Proof.
  revert k. induction slots as [|[x|] rest IH]; intros [|k] Hk; simpl in *;
    try discriminate; try reflexivity.
  now rewrite (IH k Hk).
Qed.

Lemma rebuildSlots_tracks (l : list Track) (q : t) :
  rebuildSlots (map Some l) q = Lanes (rebuild l q).
Proof. unfold rebuildSlots. now rewrite tracksOf_tracks. Qed.

Lemma rebuild_same (q : t) : rebuild (upcoming q) q = q.
Proof.
  unfold rebuild, upcoming. destruct q as [main prio cur prev lp ap pr hist cap]. simpl.
  rewrite !take_app_length. now rewrite drop_app_length.
Qed.

(** What the spread and the two splices of move do for whole-number
    indices inside the range. *)
Lemma move_int (q : t) (from to : Z) :
  0 <= from < size q -> 0 <= to < size q ->
  exists track,
    upcoming q !! Z.to_nat from = Some track /\
    move (Js.int from) (Js.int to) q =
      (true, Lanes (rebuild (spliceInsert to track (delete (Z.to_nat from) (upcoming q))) q)).
Proof.
  intros Hfrom Hto.
  assert (Hlen : size q = len (upcoming q)).
  { unfold size, upcoming, len. rewrite length_app. lia. }
  destruct (upcoming q !! Z.to_nat from) as [track|] eqn:Htrack.
  2: { apply lookup_ge_None in Htrack. unfold len in Hlen. lia. }
  exists track. split; [reflexivity|].
  unfold move. rewrite !inside_int by assumption.
  cbn [orb]. cbv zeta.
  rewrite !spliceStart_int by lia.
  assert (Hmap : forall l : list Track, len (map Some l) = len l)
    by (intros l; unfold len; now rewrite length_map).
  rewrite Hmap, <- Hlen. rewrite (Z.min_l from) by lia.
  change (map Some (upcoming q)) with (Some <$> upcoming q).
  rewrite list_lookup_fmap, Htrack. cbn [fmap option_fmap option_map default].
  rewrite <- (list_fmap_delete Some).
  change (Some <$> delete (Z.to_nat from) (upcoming q))
    with (map Some (delete (Z.to_nat from) (upcoming q))).
  rewrite Hmap.
  change (map Some (delete (Z.to_nat from) (upcoming q)))
    with (Some <$> delete (Z.to_nat from) (upcoming q)).
  rewrite <- fmap_take, <- fmap_drop.
  unfold id.
  rewrite <- (fmap_cons Some), <- fmap_app.
  change (Some <$> ?l) with (map Some l). rewrite rebuildSlots_tracks.
  unfold spliceInsert.
  destruct (to <? 0) eqn:Hneg; [apply Z.ltb_lt in Hneg; lia|]. reflexivity.
Qed.

(** What the destructuring assignment of swap does for whole-number
    indices inside the range. *)
Lemma swap_int (q : t) (index1 index2 : Z) :
  0 <= index1 < size q -> 0 <= index2 < size q ->
  exists a b,
    upcoming q !! Z.to_nat index1 = Some a /\ upcoming q !! Z.to_nat index2 = Some b /\
    swap (Js.int index1) (Js.int index2) q =
      (true, Lanes (rebuild (<[Z.to_nat index2 := a]> (<[Z.to_nat index1 := b]> (upcoming q))) q)).
Proof.
  intros H1 H2.
  assert (Hlen : size q = len (upcoming q)).
  { unfold size, upcoming, len. rewrite length_app. lia. }
  unfold len in Hlen.
  destruct (upcoming q !! Z.to_nat index1) as [a|] eqn:Ha.
  2: { apply lookup_ge_None in Ha. lia. }
  destruct (upcoming q !! Z.to_nat index2) as [b|] eqn:Hb.
  2: { apply lookup_ge_None in Hb. lia. }
  exists a, b. split; [reflexivity|]. split; [reflexivity|].
  unfold swap. rewrite !inside_int by assumption.
  cbn [orb]. cbv zeta.
  unfold Js.element, Js.store. rewrite !arrayIndex_int by lia.
  rewrite !list_lookup_fmap, Ha, Hb. cbn [fmap option_fmap option_map default].
  assert (Hin1 : (Z.to_nat index1 <? length (map Some (upcoming q)))%nat = true).
  { apply Nat.ltb_lt. rewrite length_map. lia. }
  rewrite Hin1. unfold id.
  assert (Hin2 : (Z.to_nat index2
                  <? length (<[Z.to_nat index1 := Some b]> (map Some (upcoming q))))%nat = true).
  { apply Nat.ltb_lt. rewrite length_insert, length_map. lia. }
  rewrite Hin2.
  change (map Some (upcoming q)) with (Some <$> upcoming q).
  rewrite <- !list_fmap_insert.
  change (Some <$> ?l) with (map Some l). now rewrite rebuildSlots_tracks.
Qed.

(** Past the range check a number is inside the range or is NaN. *)
Lemma outside_number (q : t) (n : Js.Number) :
  match n with
  | Js.Num x => (x < 0 \/ inject_Z (size q) <= x)%Q
  | Js.NaN => False
  | _ => True
  end ->
  outside n q = true.
Proof.
  unfold outside, Js.int.
  destruct n as [x| | |]; try contradiction; try reflexivity.
  cbn [Js.lt Js.ge]. intros [Hneg | Hbig].
  - assert (H : Qle_bool (inject_Z 0) x = false).
    { destruct (Qle_bool (inject_Z 0) x) eqn:Hle; [|reflexivity].
      apply Qle_bool_iff in Hle. change (inject_Z 0) with 0%Q in Hle. lra. }
    now rewrite H.
  - apply Qle_bool_iff in Hbig. rewrite Hbig. cbn [negb]. apply orb_true_r.
Qed.

Lemma outside_nan (q : t) : outside Js.NaN q = false.
Proof. reflexivity. Qed.

End QueueBounds.

(** C10 on the code.  The range check of remove, move and swap does
    what the claim says for every number but one.  An integer index
    outside [0, size) makes remove return null; a number below 0 or at
    or above the size, whole or not, or an infinity, in either argument
    makes move and swap return false; the queue, so both lanes, is then
    left as it was, and remove emits nothing.  NaN is outside the range
    as well, but every comparison of the check is false for it, and
    move and swap go on.  With NaN for one argument and an index k
    inside the range for the other, move returns true and moves as for
    0 in the place of NaN, and swap returns true and leaves undefined in
    slot k of the lanes, the track that was there being lost. *)
Theorem queue_range_check_passes_nan (q : Queue.t) (i k : Z) (n m : Js.Number) :
  i < 0 \/ Queue.size q <= i ->
  match n with
  | Js.Num x => (x < 0 \/ inject_Z (Queue.size q) <= x)%Q
  | Js.NaN => False
  | _ => True
  end ->
  0 <= k < Queue.size q ->
  (Queue.remove i q = (None, q, []) /\
   Queue.move n m q = (false, Queue.Lanes q) /\ Queue.move m n q = (false, Queue.Lanes q) /\
   Queue.swap n m q = (false, Queue.Lanes q) /\ Queue.swap m n q = (false, Queue.Lanes q)) /\
  (fst (Queue.move Js.NaN (Js.int k) q) = true /\
   Queue.move Js.NaN (Js.int k) q = Queue.move (Js.int 0) (Js.int k) q /\
   Queue.move (Js.int k) Js.NaN q = Queue.move (Js.int k) (Js.int 0) q) /\
  (let slots := <[Z.to_nat k := None]> (map Some (Queue.upcoming q)) in
   let lanes := Queue.Holes (take (length (Queue.priorityTracks q)) slots)
                            (drop (length (Queue.priorityTracks q)) slots) in
   Queue.swap Js.NaN (Js.int k) q = (true, lanes) /\
   Queue.swap (Js.int k) Js.NaN q = (true, lanes)).
Proof.
  intros Hi Hn Hk. split; [|split].
  - split; [now apply remove_out_of_range|].
    pose proof (outside_number q n Hn) as Hout.
    unfold Queue.move, Queue.swap. rewrite Hout, orb_true_r. repeat split.
  - assert (Hzero : 0 <= 0 < Queue.size q) by lia.
    unfold Queue.move. rewrite outside_nan, !inside_int by assumption.
    cbn [orb]. cbv zeta.
    repeat rewrite spliceStart_zero.
    cbn [Js.spliceStart]. repeat split.
  - assert (Hlen : Queue.size q = len (Queue.upcoming q)).
    { unfold Queue.size, Queue.upcoming, len. rewrite length_app. lia. }
    unfold len in Hlen.
    destruct (Queue.upcoming q !! Z.to_nat k) as [x|] eqn:Hx.
    2: { apply lookup_ge_None in Hx. lia. }
    assert (Hin : (Z.to_nat k <? length (map Some (Queue.upcoming q)))%nat = true).
    { apply Nat.ltb_lt. rewrite length_map. lia. }
    assert (Hhole : Queue.tracksOf (<[Z.to_nat k := None]> (map Some (Queue.upcoming q))) = None).
    { apply tracksOf_hole with (Z.to_nat k). apply list_lookup_insert_eq.
      rewrite length_map. lia. }
    assert (Hprio : length (take (length (Queue.priorityTracks q))
                             (<[Z.to_nat k := None]> (map Some (Queue.upcoming q))))
                    = length (Queue.priorityTracks q)).
    { rewrite length_take, length_insert, length_map.
      unfold Queue.size, len in Hlen. lia. }
    cbv zeta.
    unfold Queue.swap. rewrite outside_nan, !inside_int by assumption.
    cbn [orb]. cbv zeta.
    unfold Js.element, Js.store. rewrite !arrayIndex_int by lia.
    cbn [Js.arrayIndex]. rewrite Hin.
    unfold Queue.rebuildSlots. rewrite Hhole, Hprio.
    split; reflexivity.
Qed.

(** P1 in the priority lane, M1 and M2 in the main lane: move(3, 0) is
    refused, move(NaN, 2) returns true and moves P1 behind M2, and
    swap(NaN, 0) returns true and leaves undefined where P1 was. *)
Lemma queue_range_check_passes_nan_witness :
  let q := sampleQueue [sampleTrack "P1"] [sampleTrack "M1"; sampleTrack "M2"] in
  Queue.move (Js.int 3) (Js.int 0) q = (false, Queue.Lanes q) /\
  Queue.move Js.NaN (Js.int 2) q =
    (true, Queue.Lanes (sampleQueue [sampleTrack "M1"] [sampleTrack "M2"; sampleTrack "P1"])) /\
  Queue.swap Js.NaN (Js.int 0) q =
    (true, Queue.Holes [None] [Some (sampleTrack "M1"); Some (sampleTrack "M2")]).
Proof.
  cbv zeta.
  destruct (queue_range_check_passes_nan
              (sampleQueue [sampleTrack "P1"] [sampleTrack "M1"; sampleTrack "M2"])
              3 2 (Js.int 3) (Js.int 0))
    as ((_ & Hrefused & _) & (_ & Hmove & _) & _).
  { right. vm_compute. discriminate. }
  { right. vm_compute. discriminate. }
  { vm_compute. split; [discriminate | reflexivity]. }
  destruct (queue_range_check_passes_nan
              (sampleQueue [sampleTrack "P1"] [sampleTrack "M1"; sampleTrack "M2"])
              3 0 (Js.int 3) (Js.int 0))
    as (_ & _ & (Hswap & _)).
  { right. vm_compute. discriminate. }
  { right. vm_compute. discriminate. }
  { vm_compute. split; [discriminate | reflexivity]. }
  split; [exact Hrefused|]. split.
  - rewrite Hmove. vm_compute. reflexivity.
  - rewrite Hswap. vm_compute. reflexivity.
Defined.

(** ** Queue: next() under track loop *)

Section TrackLoop.

Import Queue.

(** One call under track loop with a current track. *)
Lemma next_track_step (q : t) (c : Track) :
  loop q = TRACK -> current q = Some c ->
  next q = (Some c, _addToHistory c (setPrevious (Some c) q)).
Proof.
  intros Hloop Hcur. unfold next. rewrite Hcur.
  assert (Hl : loop (_addToHistory c (setPrevious (Some c) q)) = TRACK).
  { unfold _addToHistory. destruct (_ >? _); simpl; exact Hloop. }
  assert (Hc : current (_addToHistory c (setPrevious (Some c) q)) = Some c).
  { unfold _addToHistory. destruct (_ >? _); simpl; exact Hcur. }
  rewrite Hl, Hc. reflexivity.
Qed.

Lemma addToHistory_fields (c : Track) (q : t) :
  let q' := _addToHistory c q in
  tracks q' = tracks q /\ priorityTracks q' = priorityTracks q /\
  current q' = current q /\ previous q' = previous q /\ loop q' = loop q /\
  maxHistorySize q' = maxHistorySize q.
Proof. unfold _addToHistory. destruct (_ >? _); simpl; repeat split. Qed.

(** The history after one push, by whether the cap is exceeded. *)
Lemma addToHistory_history (c : Track) (q : t) :
  history (_addToHistory c q) =
    if len (history q) + 1 >? maxHistorySize q
    then drop 1 (history q ++ [c])
    else history q ++ [c].
Proof.
  unfold _addToHistory, len. rewrite length_app. simpl.
  replace (Z.of_nat (length (history q) + 1)) with (Z.of_nat (length (history q)) + 1) by lia.
  destruct (_ >? _); reflexivity.
Qed.

End TrackLoop.

(** C3, as the code has it.  Under track loop with a current track, N
    calls of next() return that track N times and leave both lanes and
    the current track as they were; every call pushes the track on the
    history, which keeps the newest entries up to its cap: after N
    calls it is the old history followed by N copies of the track, less
    its oldest min(N, length + N - cap) entries. *)
Theorem next_track_loop_repeats (q : Queue.t) (c : Track) (n : nat) :
  Queue.loop q = Queue.TRACK -> Queue.current q = Some c ->
  fst (Queue.nextN n q) = replicate n (Some c) /\
  Queue.tracks (snd (Queue.nextN n q)) = Queue.tracks q /\
  Queue.priorityTracks (snd (Queue.nextN n q)) = Queue.priorityTracks q /\
  Queue.current (snd (Queue.nextN n q)) = Some c /\
  Queue.history (snd (Queue.nextN n q)) =
    drop (Z.to_nat (Z.min (Z.of_nat n)
                      (len (Queue.history q) + Z.of_nat n - Queue.maxHistorySize q)))
         (Queue.history q ++ replicate n c).
Proof.
  revert q. induction n as [|n IH]; intros q Hloop Hcur.
  - simpl. repeat split; try assumption.
    unfold len. replace (Z.to_nat _) with 0%nat by lia.
    now rewrite app_nil_r.
  - simpl. rewrite (next_track_step q c Hloop Hcur).
    set (q1 := Queue._addToHistory c (Queue.setPrevious (Some c) q)).
    destruct (addToHistory_fields c (Queue.setPrevious (Some c) q))
      as (Ht & Hp & Hc & _ & Hl & Hm). fold q1 in Ht, Hp, Hc, Hl, Hm.
    simpl in Ht, Hp, Hc, Hl, Hm.
    specialize (IH q1 (eq_trans Hl Hloop) (eq_trans Hc Hcur)).
    destruct (Queue.nextN n q1) as [rs q2]. simpl in *.
    destruct IH as (Hrs & Ht2 & Hp2 & Hc2 & Hh2).
    repeat split; try congruence.
    rewrite Hh2, Hm.
    pose proof (addToHistory_history c (Queue.setPrevious (Some c) q)) as Hh1.
    fold q1 in Hh1. simpl in Hh1. rewrite Hh1.
    unfold len in *.
    destruct (Z.of_nat (length (Queue.history q)) + 1 >? Queue.maxHistorySize q) eqn:Hcap.
    + apply Z.gtb_gt in Hcap.
      assert (Hlen : length (drop 1 (Queue.history q ++ [c])) = length (Queue.history q)).
      { rewrite length_drop, length_app. simpl. lia. }
      rewrite Hlen.
      replace (Z.to_nat (Z.min (Z.of_nat n)
                 (Z.of_nat (length (Queue.history q)) + Z.of_nat n
                  - Queue.maxHistorySize q)))
        with n by lia.
      replace (Z.to_nat (Z.min (Z.of_nat (S n))
                 (Z.of_nat (length (Queue.history q)) + Z.of_nat (S n)
                  - Queue.maxHistorySize q)))
        with (S n) by lia.
      destruct (Queue.history q) as [|h0 hs]; simpl.
      * reflexivity.
      * rewrite drop_0, <- app_assoc. reflexivity.
    + rewrite Z.gtb_ltb in Hcap. apply Z.ltb_ge in Hcap.
      rewrite length_app. simpl.
      rewrite <- app_assoc. simpl.
      f_equal. lia.
Qed.

(** Three calls under track loop on a queue with an empty history. *)
Lemma next_track_loop_repeats_witness :
  let c := sampleTrack "T" in
  let q := Queue.setLoop Queue.TRACK (Queue.setCurrent (Some c) (sampleQueue [] [sampleTrack "M1"])) in
  fst (Queue.nextN 3 q) = [Some c; Some c; Some c] /\
  Queue.tracks (snd (Queue.nextN 3 q)) = [sampleTrack "M1"] /\
  Queue.priorityTracks (snd (Queue.nextN 3 q)) = [] /\
  Queue.current (snd (Queue.nextN 3 q)) = Some c /\
  Queue.history (snd (Queue.nextN 3 q)) = [c; c; c].
Proof.
  exact (next_track_loop_repeats
           (Queue.setLoop Queue.TRACK
              (Queue.setCurrent (Some (sampleTrack "T")) (sampleQueue [] [sampleTrack "M1"])))
           (sampleTrack "T") 3 eq_refl eq_refl).
Defined.

(** C3, as the specification has it, fails: one call of next() under
    track loop makes an empty history hold one entry. *)
Lemma next_track_loop_grows_history :
  let c := sampleTrack "T" in
  let q := Queue.setLoop Queue.TRACK (Queue.setCurrent (Some c) Queue.create) in
  Queue.loop q = Queue.TRACK /\ Queue.current q = Some c /\
  fst (Queue.next q) = Some c /\
  Queue.history q = [] /\ Queue.history (snd (Queue.next q)) = [c] /\
  ~ (length (Queue.history (snd (Queue.next q))) <= length (Queue.history q))%nat.
Proof. vm_compute. repeat split. lia. Qed.

(** ** Queue: next() under queue loop with one main-lane track *)

Section QueueLoop.

Import Queue.

(** With one track [a] in the main lane and a current track [b], a call
    returns [a] and leaves [b] in the main lane. *)
Lemma next_queue_rotate (q : t) (a b : Track) :
  loop q = QUEUE -> priorityTracks q = [] -> tracks q = [a] -> current q = Some b ->
  fst (next q) = Some a /\
  loop (snd (next q)) = QUEUE /\ priorityTracks (snd (next q)) = [] /\
  tracks (snd (next q)) = [b] /\ current (snd (next q)) = Some a.
Proof.
  intros Hloop Hprio Hmain Hcur. destruct q; simpl in *; subst.
  unfold next, _addToHistory; simpl.
  destruct (_ >? _); simpl; repeat split.
Qed.

(** With both lanes empty and a current track, a call replays it. *)
Lemma next_queue_replay (q : t) (a : Track) :
  loop q = QUEUE -> priorityTracks q = [] -> tracks q = [] -> current q = Some a ->
  fst (next q) = Some a /\
  loop (snd (next q)) = QUEUE /\ priorityTracks (snd (next q)) = [] /\
  tracks (snd (next q)) = [] /\ current (snd (next q)) = Some a.
Proof.
  intros Hloop Hprio Hmain Hcur. destruct q; simpl in *; subst.
  unfold next, _addToHistory; simpl.
  destruct (_ >? _); simpl; repeat split.
Qed.

(** With no current track, a call dequeues the single main-lane track
    and re-appends the previous track if there is one. *)
Lemma next_queue_first (q : t) (a : Track) :
  loop q = QUEUE -> priorityTracks q = [] -> tracks q = [a] -> current q = None ->
  fst (next q) = Some a /\
  loop (snd (next q)) = QUEUE /\ priorityTracks (snd (next q)) = [] /\
  tracks (snd (next q)) = match previous q with Some x => [x] | None => [] end /\
  current (snd (next q)) = Some a.
Proof.
  intros Hloop Hprio Hmain Hcur. destruct q as [? ? ? prev ? ? ? ? ?]; simpl in *; subst.
  unfold next; simpl. destruct prev; simpl; repeat split.
Qed.

Lemma nextN_succ (n : nat) (q : t) :
  fst (nextN (S n) q) = fst (next q) :: fst (nextN n (snd (next q))) /\
  snd (nextN (S n) q) = snd (nextN n (snd (next q))).
Proof.
  simpl. destruct (next q) as [r q1]. simpl.
  destruct (nextN n q1) as [rs q2]. split; reflexivity.
Qed.

Lemma nextN_rotate (n : nat) : forall (q : t) (a b : Track),
  loop q = QUEUE -> priorityTracks q = [] -> tracks q = [a] -> current q = Some b ->
  (forall k, (k < n)%nat ->
     fst (nextN n q) !! k = Some (Some (if Nat.even k then a else b))) /\
  length (fst (nextN n q)) = n /\
  priorityTracks (snd (nextN n q)) = [] /\
  tracks (snd (nextN n q)) = [if Nat.even n then a else b] /\
  current (snd (nextN n q)) = Some (if Nat.even n then b else a).
Proof.
  induction n as [|n IH]; intros q a b Hloop Hprio Hmain Hcur.
  - simpl. repeat split; try assumption. intros k Hk. lia.
  - destruct (nextN_succ n q) as [Hf Hs]. rewrite Hf, Hs.
    destruct (next_queue_rotate q a b Hloop Hprio Hmain Hcur)
      as (Hr & Hl1 & Hp1 & Ht1 & Hc1).
    destruct (IH (snd (next q)) b a Hl1 Hp1 Ht1 Hc1) as (Hk & Hlen & Hp2 & Ht2 & Hc2).
    rewrite Hr, Hp2, Ht2, Hc2. rewrite Nat.even_succ, <- Nat.negb_even.
    repeat split.
    + intros [|k] Hlt; [reflexivity|].
      etransitivity; [exact (Hk k ltac:(lia))|].
      rewrite Nat.even_succ, <- Nat.negb_even. now destruct (Nat.even k).
    + simpl. now rewrite Hlen.
    + now destruct (Nat.even n).
    + now destruct (Nat.even n).
Qed.

Lemma nextN_replay (n : nat) : forall (q : t) (a : Track),
  loop q = QUEUE -> priorityTracks q = [] -> tracks q = [] -> current q = Some a ->
  fst (nextN n q) = replicate n (Some a) /\
  priorityTracks (snd (nextN n q)) = [] /\
  tracks (snd (nextN n q)) = [] /\
  current (snd (nextN n q)) = Some a.
Proof.
  induction n as [|n IH]; intros q a Hloop Hprio Hmain Hcur.
  - simpl. repeat split; assumption.
  - destruct (nextN_succ n q) as [Hf Hs]. rewrite Hf, Hs.
    destruct (next_queue_replay q a Hloop Hprio Hmain Hcur)
      as (Hr & Hl1 & Hp1 & Ht1 & Hc1).
    destruct (IH (snd (next q)) a Hl1 Hp1 Ht1 Hc1) as (Hrs & Hp2 & Ht2 & Hc2).
    rewrite Hr, Hrs, Hp2, Ht2, Hc2. repeat split.
Qed.

End QueueLoop.

(** C4, as the code has it.  Take a queue under queue loop with an empty
    priority lane and one main-lane track T, and call its just-finished
    track X: the current track or, without one, the previous track.
    With an X, calls number 1, 2, 3, ... of next() return T, X, T, ...
    and after every call the main lane holds one track, the other of
    the two; so T comes back on every call exactly when X is T.
    Without an X every call returns T and the main lane is empty after
    every call: T is replayed as the previous track. *)
Theorem next_queue_loop_single (q : Queue.t) (T : Track) (n : nat) :
  Queue.loop q = Queue.QUEUE -> Queue.priorityTracks q = [] -> Queue.tracks q = [T] ->
  let justFinished :=
    match Queue.current q with
    | Some c => Some c
    | None => Queue.previous q
    end in
  let calls := fst (Queue.nextN (S n) q) in
  let after := snd (Queue.nextN (S n) q) in
  Queue.priorityTracks after = [] /\
  match justFinished with
  | Some X =>
      (forall k, (k <= n)%nat -> calls !! k = Some (Some (if Nat.even k then T else X))) /\
      Queue.tracks after = [if Nat.even n then X else T]
  | None =>
      calls = replicate (S n) (Some T) /\ Queue.tracks after = []
  end.
Proof.
  intros Hloop Hprio Hmain. cbv zeta.
  destruct (Queue.current q) as [c|] eqn:Hcur.
  - destruct (nextN_rotate (S n) q T c Hloop Hprio Hmain Hcur)
      as (Hk & _ & Hp & Ht & _).
    split; [exact Hp|]. split.
    + intros k Hle. apply Hk. lia.
    + rewrite Ht, Nat.even_succ, <- Nat.negb_even. now destruct (Nat.even n).
  - destruct (nextN_succ n q) as [Hf Hs]. rewrite Hf, Hs.
    destruct (next_queue_first q T Hloop Hprio Hmain Hcur)
      as (Hr & Hl1 & Hp1 & Ht1 & Hc1).
    destruct (Queue.previous q) as [x|] eqn:Hprev.
    + destruct (nextN_rotate n (snd (Queue.next q)) x T Hl1 Hp1 Ht1 Hc1)
        as (Hk & _ & Hp & Ht & _).
      split; [exact Hp|]. split.
      * intros [|k] Hle; [now rewrite Hr|].
        etransitivity; [exact (Hk k ltac:(lia))|].
        rewrite Nat.even_succ, <- Nat.negb_even. now destruct (Nat.even k).
      * exact Ht.
    + destruct (nextN_replay n (snd (Queue.next q)) T Hl1 Hp1 Ht1 Hc1)
        as (Hrs & Hp & Ht & _).
      split; [exact Hp|]. rewrite Hr, Hrs. split; [reflexivity | exact Ht].
Qed.

(** Four calls under queue loop with X current and T queued. *)
Lemma next_queue_loop_single_witness :
  let T := sampleTrack "T" in
  let X := sampleTrack "X" in
  let q := Queue.setLoop Queue.QUEUE (Queue.setCurrent (Some X) (sampleQueue [] [T])) in
  Queue.priorityTracks (snd (Queue.nextN 4 q)) = [] /\
  (forall k, (k <= 3)%nat ->
     fst (Queue.nextN 4 q) !! k = Some (Some (if Nat.even k then T else X))) /\
  Queue.tracks (snd (Queue.nextN 4 q)) = [T].
Proof.
  exact (next_queue_loop_single
           (Queue.setLoop Queue.QUEUE
              (Queue.setCurrent (Some (sampleTrack "X")) (sampleQueue [] [sampleTrack "T"])))
           (sampleTrack "T") 3 eq_refl eq_refl eq_refl).
Defined.

(** C4, as the specification has it, fails twice.  On a fresh queue
    holding the single track T the main lane is empty, not of length 1,
    after a call; and with another track X current, the second call
    returns X, not T. *)
Lemma next_queue_loop_single_fails :
  let T := sampleTrack "T" in
  let X := sampleTrack "X" in
  let fresh := Queue.setLoop Queue.QUEUE (sampleQueue [] [T]) in
  let playing := Queue.setCurrent (Some X) fresh in
  (Queue.loop fresh = Queue.QUEUE /\ Queue.priorityTracks fresh = [] /\
   Queue.tracks fresh = [T] /\
   fst (Queue.next fresh) = Some T /\
   length (Queue.tracks (snd (Queue.next fresh))) <> 1%nat) /\
  (Queue.loop playing = Queue.QUEUE /\ Queue.priorityTracks playing = [] /\
   Queue.tracks playing = [T] /\
   fst (Queue.nextN 2 playing) = [Some T; Some X] /\ Some X <> Some T).
Proof. vm_compute. repeat split; discriminate. Qed.

(** ** Queue: jump(p) followed by back() *)

Section JumpBack.

Import Queue.

(** With room for one entry, a push leaves the pushed track on top. *)
Lemma addToHistory_last (c : Track) (q : t) :
  1 <= maxHistorySize q -> last (history (_addToHistory c q)) = Some c.
Proof.
  intros Hcap. rewrite addToHistory_history.
  destruct (_ >? _) eqn:Hfull.
  - apply Z.gtb_gt in Hfull. unfold len in Hfull.
    destruct (history q) as [|h0 hs]; simpl in *; [lia|].
    rewrite drop_0. apply last_snoc.
  - apply last_snoc.
Qed.

Lemma addToHistory_all_last (skipped : list Track) : forall (q : t),
  1 <= maxHistorySize q ->
  last (history (fold_left (fun acc s => _addToHistory s acc) skipped q)) =
    match last skipped with
    | Some s => Some s
    | None => last (history q)
    end.
Proof.
  induction skipped as [|s rest IH]; intros q Hcap; [reflexivity|].
  simpl fold_left. rewrite IH.
  - destruct rest as [|r rest'].
    + simpl. now apply addToHistory_last.
    + rewrite last_cons_cons.
      destruct (last (r :: rest')) eqn:Hlast; [reflexivity|].
      apply last_None in Hlast. discriminate.
  - destruct (addToHistory_fields s q) as (_ & _ & _ & _ & _ & Hm). simpl in Hm. lia.
Qed.

Lemma addToHistory_all_fields (skipped : list Track) : forall (q : t),
  let q' := fold_left (fun acc s => _addToHistory s acc) skipped q in
  tracks q' = tracks q /\ priorityTracks q' = priorityTracks q /\ current q' = current q.
Proof.
  induction skipped as [|s rest IH]; intros q; [repeat split|].
  simpl. destruct (IH (_addToHistory s q)) as (Ht & Hp & Hc).
  destruct (addToHistory_fields s q) as (Ht1 & Hp1 & Hc1 & _). simpl in *.
  repeat split; congruence.
Qed.

(** The track on top of the history after a jump: the last skipped
    track, or the old current track when nothing is skipped. *)
Lemma jump_history_top (q : t) (c : Track) (p : Z) :
  current q = Some c -> 0 <= p < size q -> 1 <= maxHistorySize q ->
  last (history (snd (jump p q))) =
    if p =? 0 then Some c else upcoming q !! Z.to_nat (p - 1).
Proof.
  intros Hcur Hp Hcap. unfold jump.
  assert (Hguard : (p <? 0) || (p >=? size q) = false).
  { apply orb_false_iff. split; [apply Z.ltb_ge | rewrite Z.geb_leb; apply Z.leb_gt]; lia. }
  rewrite Hguard, Hcur. simpl.
  destruct (addToHistory_fields c q) as (Ht & Hpr & _ & _ & _ & Hm). simpl in Ht, Hpr, Hm.
  assert (Hup : upcoming (_addToHistory c q) = upcoming q).
  { unfold upcoming. now rewrite Ht, Hpr. }
  rewrite Hup.
  rewrite addToHistory_all_last by lia.
  rewrite addToHistory_last by lia.
  unfold size, len in Hp.
  assert (Hlen : (Z.to_nat p < length (upcoming q))%nat).
  { unfold upcoming. rewrite length_app. lia. }
  destruct (p =? 0) eqn:Hzero.
  - apply Z.eqb_eq in Hzero. subst p. reflexivity.
  - apply Z.eqb_neq in Hzero.
    replace (Z.to_nat p) with (S (Z.to_nat (p - 1))) in * by lia.
    rewrite last_lookup, length_take, Nat.min_l by lia. simpl.
    rewrite lookup_take_lt by lia.
    destruct (upcoming q !! Z.to_nat (p - 1)) eqn:Hlook; [reflexivity|].
    apply lookup_ge_None in Hlook. lia.
Qed.

Lemma jump_history_nonempty (q : t) (c : Track) (p : Z) :
  current q = Some c -> 0 <= p < size q -> 1 <= maxHistorySize q ->
  history (snd (jump p q)) <> [].
Proof.
  intros Hcur Hp Hcap Hnil.
  pose proof (jump_history_top q c p Hcur Hp Hcap) as Htop.
  rewrite Hnil in Htop. simpl in Htop.
  destruct (p =? 0) eqn:Hzero; [discriminate|].
  apply Z.eqb_neq in Hzero. symmetry in Htop. apply lookup_ge_None in Htop.
  unfold size, len in Hp. unfold upcoming in Htop. rewrite length_app in Htop. lia.
Qed.

(** back() makes the top of the history current. *)
Lemma back_current (q : t) :
  history q <> [] -> current (snd (back q)) = last (history q).
Proof.
  intros Hne. unfold back. destruct (history q) as [|h0 hs] eqn:Hh; [contradiction|].
  destruct (current q); simpl; rewrite Hh; reflexivity.
Qed.

End JumpBack.

(** C5, as the code has it.  For a queue with a current track, a
    history cap of at least one and a valid position p, jump(p) and then
    back() make current the track on top of the history the jump wrote:
    the track that was current before the jump when p = 0, and the last
    skipped track, at position p - 1 of the concatenated view, when
    p >= 1. *)
Theorem jump_then_back_current (q : Queue.t) (c : Track) (p : Z) :
  Queue.current q = Some c -> 0 <= p < Queue.size q -> 1 <= Queue.maxHistorySize q ->
  Queue.current (snd (Queue.back (snd (Queue.jump p q)))) =
    if p =? 0 then Some c else Queue.upcoming q !! Z.to_nat (p - 1).
Proof.
  intros Hcur Hp Hcap.
  rewrite back_current by (now apply jump_history_nonempty with c).
  now apply jump_history_top.
Qed.

(** jump(2) and back() with C current and P1, M1, M2 queued. *)
Lemma jump_then_back_current_witness :
  let q := Queue.setCurrent (Some (sampleTrack "C"))
             (sampleQueue [sampleTrack "P1"] [sampleTrack "M1"; sampleTrack "M2"]) in
  Queue.current (snd (Queue.back (snd (Queue.jump 2 q)))) = Some (sampleTrack "M1").
Proof.
  apply (jump_then_back_current
           (Queue.setCurrent (Some (sampleTrack "C"))
              (sampleQueue [sampleTrack "P1"] [sampleTrack "M1"; sampleTrack "M2"]))
           (sampleTrack "C") 2 eq_refl).
  - vm_compute. split; [discriminate | reflexivity].
  - vm_compute. discriminate.
Defined.

(** C5, as the specification has it, fails for p = 1: with C current and
    A, B queued, jump(1) makes B current and back() then makes A
    current, not C. *)
Lemma jump_then_back_not_restored :
  let C := sampleTrack "C" in
  let A := sampleTrack "A" in
  let B := sampleTrack "B" in
  let q := Queue.setCurrent (Some C) (sampleQueue [] [A; B]) in
  Queue.current q = Some C /\ 0 <= 1 < Queue.size q /\
  fst (Queue.jump 1 q) = Some B /\
  Queue.current (snd (Queue.back (snd (Queue.jump 1 q)))) = Some A /\
  Queue.current (snd (Queue.back (snd (Queue.jump 1 q)))) <> Some C.
Proof. vm_compute. repeat split; discriminate. Qed.

(** ** NodeManager: getBest *)

Section GetBest.

Import NodeManager.

Lemma compareNodes_before (a b : Node.t) :
  Qle_bool (compareNodes a b) 0 = true <-> before a b.
Proof.
  unfold compareNodes, before. rewrite Qle_bool_iff.
  destruct (Qeq_bool (Node.priority a) (Node.priority b)) eqn:Heq; simpl.
  - apply Qeq_bool_eq in Heq. split.
    + intros Hle. right. split; [exact Heq | lra].
    + intros [Hlt | [_ Hle]]; lra.
  - apply Qeq_bool_neq in Heq. split.
    + intros Hle. left. lra.
    + intros [Hlt | [Hq _]]; [lra | contradiction].
Qed.

Lemma before_total (a b : Node.t) : before a b \/ before b a.
Proof.
  unfold before.
  destruct (Q_dec (Node.priority a) (Node.priority b)) as [[Hlt | Hgt] | Heq].
  - left. now left.
  - right. now left.
  - destruct (Qlt_le_dec (Node.penalty b) (Node.penalty a)) as [Hlt | Hle].
    + right. right. split; [now symmetry | lra].
    + left. right. now split.
Qed.

Lemma before_trans (a b c : Node.t) : before a b -> before b c -> before a c.
Proof.
  unfold before. intros [Hab | [Hab Hpab]] [Hbc | [Hbc Hpbc]].
  - left. lra.
  - left. lra.
  - left. lra.
  - right. split; lra.
Qed.

Lemma head_insertBy {A} (compare : A -> A -> Q) (x : A) (l : list A) :
  head (insertBy compare x l) =
    match head l with
    | None => Some x
    | Some m => if Qle_bool (compare x m) 0 then Some x else Some m
    end.
Proof. destruct l as [|m rest]; simpl; [reflexivity|]. now destruct (Qle_bool _ _). Qed.

(** The head of the sorted array is an element that sorts before every
    element. *)
Lemma head_sortBy_least (l : list Node.t) :
  match head (sortBy compareNodes l) with
  | None => l = []
  | Some m => In m l /\ forall c, In c l -> before m c
  end.
Proof.
  induction l as [|x l IH]; [reflexivity|].
  unfold sortBy in *. simpl fold_right. rewrite head_insertBy.
  destruct (head (fold_right (insertBy compareNodes) [] l)) as [m|].
  - destruct IH as [Hin Hleast].
    destruct (Qle_bool (compareNodes x m) 0) eqn:Hcmp.
    + apply compareNodes_before in Hcmp. split; [now left|].
      intros c [<- | Hc].
      * destruct (before_total x x); assumption.
      * apply before_trans with m; auto.
    + split; [now right|].
      intros c [<- | Hc]; [|auto].
      destruct (before_total m x) as [Hmx | Hxm]; [exact Hmx|].
      apply compareNodes_before in Hxm. congruence.
  - subst l. split; [now left|].
    intros c [<- | []]. destruct (before_total x x); assumption.
Qed.

Lemma len_zero {A} (l : list A) : (len l =? 0) = true <-> l = [].
Proof.
  unfold len. rewrite Z.eqb_eq. destruct l; simpl; split; intros; try lia; congruence.
Qed.

Lemma len_positive {A} (l : list A) : (len l >? 0) = false <-> l = [].
Proof.
  unfold len. rewrite Z.gtb_ltb, Z.ltb_ge.
  destruct l; simpl; split; intros; try lia; congruence.
Qed.

Lemma connected_state (n : Node.t) :
  Node.connected n = true <-> Node.state n = Node.CONNECTED.
Proof. unfold Node.connected. destruct (Node.state n); simpl; split; congruence. Qed.

End GetBest.

(** C1.  getBest returns null when no node of the pool is connected.
    Otherwise it returns a connected node of the candidate set that
    sorts before every candidate, by priority and then by penalty; the
    candidates are the connected nodes that have no region list or list
    the region, when a (non-empty) region is given and there is such a
    node, and all connected nodes otherwise.  Two connected nodes A
    (priority 1, penalty 50) and B (priority 1, penalty 10) make
    getBest() return B, in whichever order the pool holds them. *)
Theorem getBest_least_connected_candidate (region : option string) (pool : NodeManager.Pool) :
  let connected := List.filter Node.connected pool in
  let serving :=
    match region with
    | Some r =>
        List.filter
          (fun n => (len (Node.regions n) =? 0) || existsb (String.eqb r) (Node.regions n))
          connected
    | None => []
    end in
  let candidates :=
    if Js.truthy region && negb (len serving =? 0) then serving else connected in
  match NodeManager.getBest region pool with
  | None => connected = []
  | Some best =>
      connected <> [] /\ In best candidates /\ In best pool /\
      Node.state best = Node.CONNECTED /\
      forall c, In c candidates ->
        (Node.priority best < Node.priority c \/
         (Node.priority best == Node.priority c /\ Node.penalty best <= Node.penalty c))%Q
  end /\
  forall A B : Node.t,
    Node.state A = Node.CONNECTED -> Node.state B = Node.CONNECTED ->
    (Node.priority A == 1)%Q -> (Node.priority B == 1)%Q ->
    (Node.penalty A == 50)%Q -> (Node.penalty B == 10)%Q ->
    NodeManager.getBest None [A; B] = Some B /\ NodeManager.getBest None [B; A] = Some B.
Proof.
  cbv zeta. split.
  - unfold NodeManager.getBest, NodeManager.getConnected.
    set (connected := List.filter Node.connected pool).
    destruct (len connected =? 0) eqn:Hempty.
    { now apply len_zero in Hempty. }
    assert (Hne : connected <> []).
    { intros Hnil. apply len_zero in Hnil. congruence. }
    set (candidates := match region with
                       | Some r =>
                           if Js.truthy region then
                             if len (List.filter (NodeManager.servesRegion r) connected) >? 0
                             then List.filter (NodeManager.servesRegion r) connected
                             else connected
                           else connected
                       | None => connected
                       end).
    assert (Hcand : candidates =
              if Js.truthy region &&
                 negb (len match region with
                           | Some r =>
                               List.filter
                                 (fun n => (len (Node.regions n) =? 0)
                                           || existsb (String.eqb r) (Node.regions n))
                                 connected
                           | None => []
                           end =? 0)
              then match region with
                   | Some r =>
                       List.filter
                         (fun n => (len (Node.regions n) =? 0)
                                   || existsb (String.eqb r) (Node.regions n))
                         connected
                   | None => []
                   end
              else connected).
    { subst candidates. destruct region as [r|]; [|reflexivity].
      fold (NodeManager.servesRegion r).
      change (fun n => NodeManager.servesRegion r n) with (NodeManager.servesRegion r).
      destruct (Js.truthy (Some r)); [|reflexivity]. simpl.
      destruct (len (List.filter (NodeManager.servesRegion r) connected) >? 0) eqn:Hpos.
      - destruct (len (List.filter (NodeManager.servesRegion r) connected) =? 0) eqn:Hz;
          [|reflexivity].
        apply len_zero in Hz. rewrite Hz in Hpos. discriminate.
      - apply len_positive in Hpos. rewrite Hpos. reflexivity. }
    rewrite <- Hcand.
    assert (Hsub : forall n, In n candidates -> In n connected).
    { subst candidates. intros n. destruct region as [r|]; [|auto].
      destruct (Js.truthy (Some r)); [|auto].
      destruct (_ >? 0); [|auto]. intros Hin. apply filter_In in Hin. tauto. }
    assert (Hcne : candidates <> []).
    { subst candidates. destruct region as [r|]; [|auto].
      destruct (Js.truthy (Some r)); [|auto].
      destruct (_ >? 0) eqn:Hpos; [|auto].
      intros Hnil. rewrite Hnil in Hpos. discriminate. }
    pose proof (head_sortBy_least candidates) as Hleast.
    destruct (head (NodeManager.sortBy NodeManager.compareNodes candidates)) as [best|];
      [|contradiction].
    destruct Hleast as [Hin Hleast].
    pose proof (Hsub best Hin) as Hconn. apply filter_In in Hconn.
    destruct Hconn as [Hpool Hstate]. apply connected_state in Hstate.
    repeat split; assumption.
  - intros A B HA HB HpA HpB HqA HqB.
    apply connected_state in HA, HB.
    assert (HAB : Qle_bool (NodeManager.compareNodes A B) 0 = false).
    { destruct (Qle_bool _ _) eqn:Hcmp; [|reflexivity].
      apply compareNodes_before in Hcmp. unfold before in Hcmp. lra. }
    assert (HBA : Qle_bool (NodeManager.compareNodes B A) 0 = true).
    { apply compareNodes_before. unfold before. right. split; lra. }
    unfold NodeManager.getBest, NodeManager.getConnected. simpl.
    rewrite HA, HB. simpl. rewrite HAB, HBA. split; reflexivity.
Qed.

(** The scenario of the two nodes, alone and next to a disconnected
    node of better priority. *)
Lemma getBest_least_connected_candidate_witness :
  let A := sampleNode "A" 1 [] Node.CONNECTED 50 in
  let B := sampleNode "B" 1 [] Node.CONNECTED 10 in
  let D := sampleNode "D" 0 [] Node.DISCONNECTED 0 in
  NodeManager.getBest None [D; A; B] = Some B /\
  NodeManager.getBest None [A; B] = Some B /\ NodeManager.getBest None [B; A] = Some B.
Proof.
  split; [reflexivity|].
  apply (proj2 (getBest_least_connected_candidate None [])
           (sampleNode "A" 1 [] Node.CONNECTED 50) (sampleNode "B" 1 [] Node.CONNECTED 10));
    reflexivity.
Defined.

(** ** Connection: readiness *)

Section Readiness.

Import Connection.




(** What the check does to the pending deferred. *)
Lemma checkReady_settles (c : t) :
  (settled (snd (_checkReady c)) = [] /\
   _pendingConnection (fst (_checkReady c)) = _pendingConnection c) \/
  (exists d, _pendingConnection c = Some d /\ settled (snd (_checkReady c)) = [d] /\
             _pendingConnection (fst (_checkReady c)) = None).
Proof.
  unfold _checkReady.
  destruct (Js.truthy (sessionId c) && Js.truthy (token c) && Js.truthy (endpoint c));
    simpl; [|now left].
  unfold _clearTimeout. simpl.
  destruct (_connectTimeout c); simpl;
    destruct (_pendingConnection c) as [d|] eqn:Hpending; simpl; rewrite ?Hpending;
    solve [ left; split; reflexivity | right; exists d; repeat split ].
Qed.

Lemma handleVoiceServerUpdate_pending (tok ep : option string) (c : t) :
  _pendingConnection
    (match ep with
     | Some e =>
         if Js.truthy ep then setRegion (matchRegion e) (setEndpoint ep (setToken tok c))
         else setEndpoint ep (setToken tok c)
     | None => setEndpoint ep (setToken tok c)
     end) = _pendingConnection c.
Proof. destruct ep; [destruct (Js.truthy _)|]; reflexivity. Qed.

(** A step settles nothing, or settles the deferred that was pending
    and leaves none pending; only [connect] makes a deferred pending,
    and it is the fresh one. *)
Lemma step_settles (fresh : nat) (c : t) (i : Input) :
  (settled (snd (step fresh c i)) = [] /\
   (_pendingConnection (fst (step fresh c i)) = _pendingConnection c \/
    _pendingConnection (fst (step fresh c i)) = Some fresh)) \/
  (exists d, _pendingConnection c = Some d /\ settled (snd (step fresh c i)) = [d] /\
             _pendingConnection (fst (step fresh c i)) = None).
Proof.
  destruct i as [options | | ch | sid ch | tok ep | ]; simpl.
  - left. split; [reflexivity | now right].
  - left. unfold disconnect, _clearTimeout. simpl.
    destruct (_connectTimeout c); simpl; split; auto.
  - left. split; [reflexivity | now left].
  - unfold handleVoiceStateUpdate.
    destruct (negb (Js.truthy ch) && Js.truthy (channelId c)); simpl.
    { left. split; auto. }
    destruct (Js.truthy ch && Js.truthy (channelId c)
              && negb (optionStringEqb ch (channelId c))).
    + destruct (checkReady_settles
                  (setChannelId ch (setSessionId sid (setChannelId ch c))))
        as [[Hs Hp] | (d & Hd & Hs & Hp)];
        destruct (_checkReady _) as [c3 e3]; simpl in *.
      * left. rewrite Hs. split; auto.
      * right. exists d. rewrite Hs. repeat split; auto.
    + destruct (checkReady_settles (setChannelId ch (setSessionId sid c)))
        as [[Hs Hp] | (d & Hd & Hs & Hp)];
        destruct (_checkReady _) as [c3 e3]; simpl in *.
      * left. rewrite Hs. split; auto.
      * right. exists d. rewrite Hs. repeat split; auto.
  - unfold handleVoiceServerUpdate. simpl.
    pose proof (handleVoiceServerUpdate_pending tok ep c) as Hpend.
    destruct (checkReady_settles
                (match ep with
                 | Some e =>
                     if Js.truthy ep
                     then setRegion (matchRegion e) (setEndpoint ep (setToken tok c))
                     else setEndpoint ep (setToken tok c)
                 | None => setEndpoint ep (setToken tok c)
                 end)) as [[Hs Hp] | (d & Hd & Hs & Hp)].
    + left. split; [exact Hs | left; congruence].
    + right. exists d. repeat split; congruence.
  - unfold connectTimeoutFired. destruct (_pendingConnection c) as [d|] eqn:Hpending; simpl.
    + right. exists d. repeat split.
    + left. split; [reflexivity | left; congruence].
Qed.




Lemma settled_app (a b : list Effect) : settled (a ++ b) = settled a ++ settled b.
Proof. unfold settled. apply flat_map_app. Qed.



End Readiness.




(** ** Node: reconnection *)

Section Reconnect.

Import Node.

Lemma step_retryAmount (n : t) (i : Input) : retryAmount (fst (step n i)) = retryAmount n.
Proof.
  destruct i; simpl; try reflexivity.
  - unfold connect. now destruct (_ws n).
  - unfold disconnect. destruct (_reconnectTimeout n); simpl; now destruct (_ws n).
  - unfold _onClose, _scheduleReconnect.
    destruct (_ws n); simpl; now destruct (negb _ && _).
  - unfold connect. now destruct (_ws n).
Qed.

(** The attempt counter stays between zero and the allowed number. *)
Lemma step_attempts (n : t) (i : Input) :
  0 <= _reconnectAttempts n <= Z.max 0 (retryAmount n) ->
  0 <= _reconnectAttempts (fst (step n i)) <= Z.max 0 (retryAmount n).
Proof.
  intros Hinv. destruct i; simpl; try assumption.
  - unfold connect. now destruct (_ws n).
  - unfold disconnect. destruct (_reconnectTimeout n); simpl; now destruct (_ws n).
  - lia.
  - unfold _onClose, _scheduleReconnect.
    destruct (_ws n); simpl;
      destruct (negb _ && (_reconnectAttempts n <? retryAmount n)) eqn:Hretry; simpl;
      try assumption;
      apply andb_true_iff in Hretry; destruct Hretry as [_ Hlt];
      apply Z.ltb_lt in Hlt; lia.
  - unfold connect. now destruct (_ws n).
Qed.

Lemma run_attempts (inputs : list Input) : forall n : t,
  0 <= _reconnectAttempts n <= Z.max 0 (retryAmount n) ->
  0 <= _reconnectAttempts (fst (run n inputs)) <= Z.max 0 (retryAmount n).
Proof.
  induction inputs as [|i rest IH]; intros n Hinv; [exact Hinv|].
  simpl. pose proof (step_attempts n i Hinv) as Hstep.
  pose proof (step_retryAmount n i) as Hsame.
  destruct (step n i) as [n1 e1]. simpl in *.
  specialize (IH n1). rewrite Hsame in IH. specialize (IH Hstep).
  destruct (run n1 rest) as [n2 e2]. exact IH.
Qed.

End Reconnect.

(** C7 on the code.  For a node that is not destroyed and a jitter draw
    in [0, 1): a close with the attempt counter below retryAmount moves
    the node to reconnecting, counts one attempt more and arms one timer
    whose delay is retryDelay * 1.5^(attempt - 1) plus a jitter below
    1000 ms; a close with the counter at retryAmount arms no timer and
    leaves the node, its state included, exactly as it was: the state
    is not set to disconnected.  Over any run of a new node the counter
    stays within retryAmount. *)
Theorem node_close_reconnect_policy (n : Node.t) (code : Z) (reason : string) (random : Q)
    (options : Node.NodeOptions) (inputs : list Node.Input) :
  Node.state n <> Node.DESTROYED -> (0 <= random < 1)%Q ->
  (if Node._reconnectAttempts n <? Node.retryAmount n
   then
     let n' := fst (Node._onClose code reason random n) in
     Node.state n' = Node.RECONNECTING /\
     Node._reconnectAttempts n' = Node._reconnectAttempts n + 1 /\
     exists delay : Q,
       snd (Node._onClose code reason random n) =
         [Node.NODE_DISCONNECT code reason;
          Node.NODE_RECONNECT (Node._reconnectAttempts n + 1);
          Node.SetTimeout delay] /\
       Node._reconnectTimeout n' = Some delay /\
       (delay == Node.retryDelay n * (3 # 2) ^ (Node._reconnectAttempts n + 1 - 1)
                 + random * 1000)%Q /\
       (Node.retryDelay n * (3 # 2) ^ (Node._reconnectAttempts n + 1 - 1) <= delay)%Q /\
       (delay < Node.retryDelay n * (3 # 2) ^ (Node._reconnectAttempts n + 1 - 1) + 1000)%Q
   else
     Node._onClose code reason random n = (n, [Node.NODE_DISCONNECT code reason])) /\
  0 <= Node._reconnectAttempts (fst (Node.run (Node.create options) inputs))
    <= Z.max 0 (Node.retryAmount (Node.create options)).
Proof.
  intros Halive Hrandom. split.
  - unfold Node._onClose.
    assert (Hnot : negb (Node.NodeState_eqb (Node.state n) Node.DESTROYED) = true).
    { destruct (Node.state n); simpl; congruence. }
    rewrite Hnot. simpl.
    destruct (Node._reconnectAttempts n <? Node.retryAmount n); [|reflexivity].
    simpl. repeat split.
    eexists. repeat split; try reflexivity; lra.
  - apply run_attempts. simpl. lia.
Qed.

(** C7 at the failing input: the node allows one attempt and the close
    comes while that attempt is connecting; nothing is scheduled and
    the state stays connecting. *)
Lemma node_close_reconnect_policy_witness :
  let n := fst (Node.run sampleRetryOnce
                  [Node.CallConnect; Node.OnOpen; Node.OnReady (Some "backend-session");
                   Node.OnClose 1006 "gone" (1 # 2); Node.ReconnectTimerFired]) in
  Node._reconnectAttempts n = Node.retryAmount n /\
  Node._onClose 1006 "refused" (1 # 2) n = (n, [Node.NODE_DISCONNECT 1006 "refused"]) /\
  Node.state n = Node.CONNECTING.
Proof.
  split; [reflexivity|]. split; [|reflexivity].
  apply (node_close_reconnect_policy
           (fst (Node.run sampleRetryOnce
                   [Node.CallConnect; Node.OnOpen; Node.OnReady (Some "backend-session");
                    Node.OnClose 1006 "gone" (1 # 2); Node.ReconnectTimerFired]))
           1006 "refused" (1 # 2)
           {| Node.opt_name := "X"; Node.opt_retryAmount := None;
              Node.opt_retryDelay := None; Node.opt_priority := None;
              Node.opt_regions := None |} []).
  - vm_compute. discriminate.
  - vm_compute. split; [discriminate | reflexivity].
Defined.

(** The same outage as one run: after the attempts are exhausted the
    node is left in the connecting state, with no timer armed by the
    last close. *)
Lemma node_left_connecting_after_retries :
  Node.state (fst (Node.run sampleRetryOnce sampleOutage)) = Node.CONNECTING /\
  Node.state (fst (Node.run sampleRetryOnce sampleOutage)) <> Node.DISCONNECTED /\
  Node._reconnectAttempts (fst (Node.run sampleRetryOnce sampleOutage)) = 1 /\
  snd (Node.step (fst (Node.run sampleRetryOnce (removelast sampleOutage)))
                 (Node.OnClose 1006 "refused" (1 # 2)))
    = [Node.NODE_DISCONNECT 1006 "refused"].
Proof. vm_compute. repeat split; discriminate. Qed.

(** A node that allows no reconnection attempt keeps the connected
    state when its socket closes, so getBest still returns it. *)
Lemma node_left_connected_without_retries :
  let n := fst (Node.run
                  (Node.create {| Node.opt_name := "X"; Node.opt_retryAmount := Some 0;
                                  Node.opt_retryDelay := None; Node.opt_priority := None;
                                  Node.opt_regions := None |})
                  [Node.CallConnect; Node.OnOpen; Node.OnReady (Some "backend-session");
                   Node.OnClose 1006 "gone" (1 # 2)]) in
  Node.state n = Node.CONNECTED /\ Node._ws n = Node.SocketNotOpen /\
  NodeManager.getBest None [n] = Some n.
Proof. vm_compute. repeat split. Qed.

(** ** Player: pause and resume *)

(** C9, as the code has it.  With a bound node whose update succeeds:
    pause() does nothing when the player is not playing, and otherwise,
    also when the player is paused already, sends exactly one
    paused = true update, sets the paused flag and the paused state;
    resume() does nothing when the player is not paused, and otherwise
    sends exactly one paused = false update, clears the paused flag and
    sets the playing state. *)
Theorem pause_resume_updates (restOk : list Player.Effect -> Player.RestCall -> bool)
    (p : Player.t) (n : string) :
  Player.node p = Some n ->
  (forall flag, restOk (Player.effects p)
                  (Player.UpdatePlayer n (Player.guildId p) (Player.PausedData flag) false)
                = true) ->
  (if Player.playing p then
     fst (Player.pause restOk p) = Player.Returned tt /\
     Player.effects (snd (Player.pause restOk p)) =
       Player.effects p ++
       [Player.Rest (Player.UpdatePlayer n (Player.guildId p) (Player.PausedData true) false)] /\
     Player.paused (snd (Player.pause restOk p)) = true /\
     Player.state (snd (Player.pause restOk p)) = Player.PAUSED
   else Player.pause restOk p = (Player.Returned tt, p)) /\
  (if Player.paused p then
     fst (Player.resume restOk p) = Player.Returned tt /\
     Player.effects (snd (Player.resume restOk p)) =
       Player.effects p ++
       [Player.Rest (Player.UpdatePlayer n (Player.guildId p) (Player.PausedData false) false)] /\
     Player.paused (snd (Player.resume restOk p)) = false /\
     Player.state (snd (Player.resume restOk p)) = Player.PLAYING
   else Player.resume restOk p = (Player.Returned tt, p)).
Proof.
  intros Hnode Hok. split.
  - unfold Player.pause. destruct (Player.playing p); simpl; [|reflexivity].
    unfold Player.updatePlayer. rewrite Hnode. simpl. rewrite Hok. simpl.
    unfold Player._startInactivityTimer, Player._resetInactivityTimer. simpl.
    destruct (Player.enabled (Player.inactivity p)); simpl; [|repeat split].
    destruct (Player._inactivityTimer p); simpl; repeat split.
  - unfold Player.resume. destruct (Player.paused p); simpl; [|reflexivity].
    unfold Player.updatePlayer. rewrite Hnode. simpl. rewrite Hok. simpl.
    unfold Player._resetInactivityTimer. simpl.
    destruct (Player._inactivityTimer p); simpl; repeat split.
Qed.

(** pause() and resume() on the sample player once it is paused. *)
Lemma pause_resume_updates_witness :
  let paused := snd (Player.pause restAlways samplePlayer) in
  (fst (Player.pause restAlways paused) = Player.Returned tt /\
   Player.effects (snd (Player.pause restAlways paused)) =
     Player.effects paused ++
     [Player.Rest (Player.UpdatePlayer "X" "guild" (Player.PausedData true) false)] /\
   Player.paused (snd (Player.pause restAlways paused)) = true /\
   Player.state (snd (Player.pause restAlways paused)) = Player.PAUSED) /\
  (fst (Player.resume restAlways paused) = Player.Returned tt /\
   Player.effects (snd (Player.resume restAlways paused)) =
     Player.effects paused ++
     [Player.Rest (Player.UpdatePlayer "X" "guild" (Player.PausedData false) false)] /\
   Player.paused (snd (Player.resume restAlways paused)) = false /\
   Player.state (snd (Player.resume restAlways paused)) = Player.PLAYING).
Proof.
  apply (pause_resume_updates restAlways (snd (Player.pause restAlways samplePlayer)) "X").
  - reflexivity.
  - intros flag. reflexivity.
Defined.

(** C9, as the specification has it, fails for pause().  A paused player
    is still playing to the guard of pause(), so a second pause() sends
    a second update; and a player that is neither playing nor paused
    gets no update from pause(). *)
Lemma pause_not_guarded_by_paused :
  let paused := snd (Player.pause restAlways samplePlayer) in
  let idle := Player.setPlaying false samplePlayer in
  (Player.paused paused = true /\
   Player.effects paused =
     [Player.Rest (Player.UpdatePlayer "X" "guild" (Player.PausedData true) false)] /\
   Player.effects (snd (Player.pause restAlways paused)) =
     [Player.Rest (Player.UpdatePlayer "X" "guild" (Player.PausedData true) false);
      Player.Rest (Player.UpdatePlayer "X" "guild" (Player.PausedData true) false)]) /\
  (Player.paused idle = false /\
   Player.pause restAlways idle = (Player.Returned tt, idle) /\
   Player.paused (snd (Player.pause restAlways idle)) = false).
Proof. vm_compute. repeat split. Qed.

(** ** Player: the end of the queue *)

Section QueueEnd.

(** When next() has no track to return it has set current to null. *)
Lemma next_none_clears_current (q : Queue.t) :
  fst (Queue.next q) = None -> Queue.current (snd (Queue.next q)) = None.
Proof.
  unfold Queue.next.
  set (q1 := match Queue.current q with
             | Some c => Queue._addToHistory c (Queue.setPrevious (Some c) q)
             | None => q
             end).
  destruct (Queue.loop q1) eqn:Hloop, (Queue.current q1) eqn:Hcur;
    destruct (Queue.priorityTracks q1), (Queue.tracks q1), (Queue.previous q1);
    simpl; rewrite ?Hloop; simpl; try discriminate; reflexivity.
Qed.

End QueueEnd.

(** C2 on the code.  Whenever play() is called without a track and
    next() has none to return, play() returns null after emitting the
    queue-ended notification and nothing else: no provider is called,
    whatever the autoplay flag and the provider are, because next() has
    already set current to null and getAutoplayTracks() answers an
    empty list without a current track.  The player ends stopped, not
    playing, with the empty-queue timeout armed when inactivity is
    enabled. *)
Theorem play_at_queue_end_calls_no_provider
    (restOk : list Player.Effect -> Player.RestCall -> bool)
    (provider : Queue.ProviderId -> Track -> Queue.t -> Player.ProviderOutcome)
    (hasLogger : bool) (fuel : nat) (options : Player.PlayOptions) (p : Player.t) :
  fst (Queue.next (Player.queue p)) = None ->
  exists p',
    Player.play restOk provider hasLogger (S fuel) None options p
      = Some (Player.Returned None, p') /\
    Player.effects p' = Player.effects p ++ [Player.EmitQueueEnd] /\
    Player.queue p' = snd (Queue.next (Player.queue p)) /\
    Player.state p' = Player.STOPPED /\ Player.playing p' = false /\
    Player._inactivityTimer p' =
      if Player.enabled (Player.inactivity p)
      then Some ("empty"%string, Player.emptyTimeout (Player.inactivity p))
      else Player._inactivityTimer p.
Proof.
  intros Hnone. pose proof (next_none_clears_current _ Hnone) as Hcur.
  simpl. unfold Player.playBody.
  destruct (Queue.next (Player.queue p)) as [following q1]. simpl in *. subst following.
  unfold Player._handleQueueEndBody, Player.getAutoplayTracks. simpl. rewrite Hcur.
  assert (Hstop : forall p0,
            Player._inactivityTimer
              (Player._startInactivityTimer "empty"
                 (Player.setState Player.STOPPED (Player.setPlaying false p0))) =
            if Player.enabled (Player.inactivity p0)
            then Some ("empty"%string, Player.emptyTimeout (Player.inactivity p0))
            else Player._inactivityTimer p0).
  { intros p0. unfold Player._startInactivityTimer, Player._resetInactivityTimer. simpl.
    destruct (Player.enabled (Player.inactivity p0)); simpl; [|reflexivity].
    destruct (Player._inactivityTimer p0); reflexivity. }
  assert (Hkeep : forall p0,
            let p1 := Player._startInactivityTimer "empty"
                        (Player.setState Player.STOPPED (Player.setPlaying false p0)) in
            Player.effects p1 = Player.effects p0 /\ Player.queue p1 = Player.queue p0 /\
            Player.state p1 = Player.STOPPED /\ Player.playing p1 = false).
  { intros p0. unfold Player._startInactivityTimer, Player._resetInactivityTimer. simpl.
    destruct (Player.enabled (Player.inactivity p0)); simpl; [|repeat split].
    destruct (Player._inactivityTimer p0); repeat split. }
  set (p1 := Player.record [Player.EmitQueueEnd] (Player.setQueue q1 p)).
  destruct (Hkeep p1) as (He & Hq & Hs & Hp).
  eexists. split.
  - destruct (Queue.autoplay q1 && bool_decide (is_Some (Queue.autoplayProvider q1)));
      [destruct (Queue.autoplayProvider q1)|]; reflexivity.
  - rewrite He, Hq, Hs, Hp, Hstop. repeat split.
Qed.

(** C2 at the failing input: the sample player has autoplay on and a
    provider that recommends R, and plays the last track of its queue;
    play() ends stopped and the provider is not called. *)
Lemma play_at_queue_end_calls_no_provider_witness :
  exists p',
    Player.play restAlways sampleProvider true 5 None Player.noPlayOptions samplePlayer
      = Some (Player.Returned None, p') /\
    Player.effects p' = [Player.EmitQueueEnd] /\
    Player.queue p' = snd (Queue.next (Player.queue samplePlayer)) /\
    Player.state p' = Player.STOPPED /\ Player.playing p' = false /\
    Player._inactivityTimer p' = Some ("empty"%string, 30000).
Proof.
  exact (play_at_queue_end_calls_no_provider restAlways sampleProvider true 4
           Player.noPlayOptions samplePlayer eq_refl).
Defined.

(** The provider of the sample player does recommend a track for the
    track that just finished, and the queue before next() would have
    handed it that track. *)
Lemma provider_would_recommend :
  Queue.autoplay (Player.queue samplePlayer) = true /\
  Queue.autoplayProvider (Player.queue samplePlayer) = Some 0%nat /\
  fst (Player.getAutoplayTracks sampleProvider samplePlayer)
    = Player.Returned [sampleTrack "R"] /\
  Player.effects (snd (Player.getAutoplayTracks sampleProvider samplePlayer))
    = [Player.ProviderCalled 0%nat (sampleTrack "T")].
Proof. vm_compute. repeat split. Qed.

(** ** Player: migration to another node *)

Section Migration.

Variable restOk : list Player.Effect -> Player.RestCall -> bool.

Lemma updatePlayer_sent (data : Player.UpdateData) (replace : option bool)
    (p : Player.t) (n : string) :
  Player.node p = Some n ->
  restOk (Player.effects p)
    (Player.UpdatePlayer n (Player.guildId p) data (default false replace)) = true ->
  Player.updatePlayer restOk data replace p =
    (Player.Returned tt,
     Player.record
       [Player.Rest (Player.UpdatePlayer n (Player.guildId p) data (default false replace))] p).
Proof. intros Hnode Hok. unfold Player.updatePlayer. now rewrite Hnode, Hok. Qed.

(** What the voice payload of a connection looks like to
    [_sendVoiceUpdate]: it has a session id, and neither a token nor an
    endpoint at the top level. *)
Lemma getVoicePayload_read (c : Connection.t) :
  Js.get "sessionId" (Connection.getVoicePayload c) = Js.ofField (Connection.sessionId c) /\
  Js.get "token" (Connection.getVoicePayload c) = Js.Undefined /\
  Js.get "endpoint" (Connection.getVoicePayload c) = Js.Undefined.
Proof. repeat split. Qed.

(** The payload of the ready event carries all three. *)
Lemma readyPayload_read (c : Connection.t) :
  Js.get "sessionId" (Connection.readyPayload c) = Js.ofField (Connection.sessionId c) /\
  Js.get "token" (Connection.readyPayload c) = Js.ofField (Connection.token c) /\
  Js.get "endpoint" (Connection.readyPayload c) = Js.ofField (Connection.endpoint c).
Proof. repeat split. Qed.

Lemma preload_effects (p : Player.t) :
  Player.effects (Player._preloadNextTrack p) = Player.effects p /\
  Player.node (Player._preloadNextTrack p) = Player.node p /\
  Player.queue (Player._preloadNextTrack p) = Player.queue p.
Proof.
  unfold Player._preloadNextTrack.
  destruct (Queue.at_ 0 (Player.queue p)) as [t|]; [|repeat split].
  destruct (Js.truthy (encoded t)); repeat split.
Qed.

Lemma resetTimer_effects (p : Player.t) :
  Player.effects (Player._resetInactivityTimer p) = Player.effects p /\
  Player.node (Player._resetInactivityTimer p) = Player.node p /\
  Player.queue (Player._resetInactivityTimer p) = Player.queue p.
Proof.
  unfold Player._resetInactivityTimer.
  destruct (Player._inactivityTimer p); repeat split.
Qed.

End Migration.

Section MigrationSteps.

Variable restOk : list Player.Effect -> Player.RestCall -> bool.
Variable provider : Queue.ProviderId -> Track -> Queue.t -> Player.ProviderOutcome.
Variable nodes : NodeManager.Pool.
Variable hasLogger : bool.

(** A voice update of a player that has a node goes to that node. *)
Lemma sendVoiceUpdate_bound (data : Js.Value) (p : Player.t) (n : string) :
  Player.node p = Some n ->
  (forall payload,
     restOk (Player.effects p) (Player.UpdatePlayer n (Player.guildId p) payload false) = true) ->
  Player._sendVoiceUpdate restOk nodes data p =
    (Player.Returned tt,
     Player.record
       [Player.Rest
          (Player.UpdatePlayer n (Player.guildId p)
             (Player.VoiceData (Js.get "sessionId" data) (Js.get "token" data)
                               (Js.get "endpoint" data))
             false)] p).
Proof.
  intros Hnode Hok. unfold Player._sendVoiceUpdate. rewrite Hnode.
  now apply updatePlayer_sent.
Qed.

(** play(track, options) on a player that has a node, when the update
    succeeds. *)
Lemma play_given (fuel : nat) (given : Track) (options : Player.PlayOptions)
    (p : Player.t) (n : string) :
  Player.node p = Some n ->
  (forall payload,
     restOk (Player.effects p)
       (Player.UpdatePlayer n (Player.guildId p) payload
          (default false (Player.noReplace options))) = true) ->
  exists p',
    Player.play restOk provider hasLogger (S fuel) (Some given) options p
      = Some (Player.Returned (Some given), p') /\
    Player.node p' = Some n /\
    Player.effects p' =
      Player.effects p ++
      [Player.Rest
         (Player.UpdatePlayer n (Player.guildId p)
            (Player.PlayData (encoded given)
               (if Player.truthyNumber (Player.startTime options)
                then Player.startTime options else None)
               (if Player.truthyNumber (Player.endTime options)
                then Player.endTime options else None)
               (Player.filters p) (Player.volume p))
            (default false (Player.noReplace options)))].
Proof.
  intros Hnode Hok. simpl. unfold Player.playBody. simpl.
  erewrite updatePlayer_sent; [|exact Hnode|apply Hok].
  match goal with
  | |- context [Player._preloadNextTrack ?x] =>
      destruct (preload_effects x) as (He & Hn & Hq)
  end.
  match goal with
  | |- context [Player._resetInactivityTimer ?x] =>
      destruct (resetTimer_effects x) as (He' & Hn' & Hq')
  end.
  eexists. split; [|split].
  - rewrite Hq, Hq'. reflexivity.
  - rewrite Hn, Hn'. exact Hnode.
  - rewrite He, He'. reflexivity.
Qed.

End MigrationSteps.

(** C8 on the code.  A player that is bound to a node, voice-connected
    and playing a track is migrated, the updates on the new node
    succeeding.  The delete on the old node comes first and its outcome
    is ignored; then one voice update goes to the new node, then one
    play of the current track whose position is the estimated position
    (omitted when that is zero): the last sample plus the time elapsed
    since it when the player is not paused, the last sample itself when
    it is.  The voice update carries the session id only: token and
    endpoint are undefined in it, whatever the connection holds,
    because the payload read has them under `event`. *)
Theorem migrateNode_replays_at_estimate
    (restOk : list Player.Effect -> Player.RestCall -> bool)
    (provider : Queue.ProviderId -> Track -> Queue.t -> Player.ProviderOutcome)
    (nodes : NodeManager.Pool) (hasLogger : bool)
    (fuel : nat) (now : Z) (old newNode : string) (cur : Track) (p : Player.t) :
  Player.node p = Some old ->
  Player.connected p = true -> Player.playing p = true ->
  Queue.current (Player.queue p) = Some cur ->
  (forall log data,
     restOk log (Player.UpdatePlayer newNode (Player.guildId p) data false) = true) ->
  let estimate :=
    if Player.paused p then Player.position p
    else Player.position p + (now - Player.positionTimestamp p) in
  exists p',
    Player.migrateNode restOk provider nodes hasLogger (S fuel) now newNode p
      = Some (Player.Returned tt, p') /\
    Player.node p' = Some newNode /\
    Player.effects p' =
      Player.effects p ++
      [Player.Rest (Player.DestroyPlayer old (Player.guildId p));
       Player.Rest
         (Player.UpdatePlayer newNode (Player.guildId p)
            (Player.VoiceData
               (Js.ofField (Connection.sessionId (Player.connection p)))
               Js.Undefined Js.Undefined)
            false);
       Player.Rest
         (Player.UpdatePlayer newNode (Player.guildId p)
            (Player.PlayData (encoded cur)
               (if estimate =? 0 then None else Some estimate)
               None (Player.filters p) (Player.volume p))
            false)]
      ++ (if hasLogger then [Player.LogInfo] else []).
Proof.
  intros Hnode Hconn Hplaying Hcur Hok. cbv zeta.
  unfold Player.migrateNode. rewrite Hnode.
  cbn -[Player.play Player.estimatedPosition Player._sendVoiceUpdate]. rewrite Hconn.
  rewrite (sendVoiceUpdate_bound restOk nodes _ _ newNode) by (try reflexivity; apply Hok).
  cbn -[Player.play Player.estimatedPosition]. rewrite Hcur, Hplaying.
  match goal with
  | |- context [Player.play _ _ _ _ _ ?o ?x] =>
      destruct (play_given restOk provider hasLogger fuel cur o x newNode eq_refl)
        as (p4 & Hplay & Hn4 & He4); [intros payload; apply Hok|]
  end.
  rewrite Hplay.
  assert (Hest : Player.estimatedPosition now
                   (Player.record
                      [Player.Rest
                         (Player.UpdatePlayer newNode (Player.guildId p)
                            (Player.VoiceData
                               (Js.ofField (Connection.sessionId (Player.connection p)))
                               Js.Undefined Js.Undefined)
                            false)]
                      (Player.setNode (Some newNode)
                         (Player.record
                            [Player.Rest (Player.DestroyPlayer old (Player.guildId p))] p)))
                 = if Player.paused p then Player.position p
                   else Player.position p + (now - Player.positionTimestamp p)).
  { unfold Player.estimatedPosition. simpl. rewrite Hplaying. reflexivity. }
  rewrite Hest in He4. simpl in He4.
  assert (Htruthy : forall z : Z,
            (if negb (z =? 0) then Some z else None) = (if z =? 0 then None else Some z)).
  { intros z. now destruct (z =? 0). }
  rewrite Htruthy in He4.
  destruct hasLogger; eexists; (split; [reflexivity|]); simpl;
    (split; [exact Hn4|]); rewrite He4, <- ?app_assoc; simpl; rewrite ?app_nil_r;
    reflexivity.
Qed.

(** C8 at the failing input: the sample player, playing T with the last
    sample 30000 ms taken at time 1000, is migrated from X to Y at time
    1500.  Y gets the play of T at 30500 ms, and before it a voice
    update whose token and endpoint are undefined although the
    connection holds both. *)
Lemma migrateNode_replays_at_estimate_witness :
  exists p',
    Player.migrateNode restAlways sampleProvider [] true 1 1500 "Y" samplePlayer
      = Some (Player.Returned tt, p') /\
    Player.node p' = Some "Y"%string /\
    Player.effects p' =
      [Player.Rest (Player.DestroyPlayer "X" "guild");
       Player.Rest
         (Player.UpdatePlayer "Y" "guild"
            (Player.VoiceData (Js.Str "session") Js.Undefined Js.Undefined) false);
       Player.Rest
         (Player.UpdatePlayer "Y" "guild"
            (Player.PlayData (Some "T"%string) (Some 30500) None None 100) false);
       Player.LogInfo].
Proof.
  exact (migrateNode_replays_at_estimate restAlways sampleProvider [] true 0 1500
           "X" "Y" (sampleTrack "T") samplePlayer
           eq_refl eq_refl eq_refl eq_refl (fun _ _ => eq_refl)).
Defined.

(** The sibling path: on the connection's ready event the same player
    sends its node all three credentials. *)
Lemma ready_sends_all_credentials :
  Connection.token (Player.connection samplePlayer) = Some "token"%string /\
  Connection.endpoint (Player.connection samplePlayer)
    = Some "us-east42.discord.media"%string /\
  Player.effects (Player.onConnectionReady restAlways [] samplePlayer) =
    [Player.Rest
       (Player.UpdatePlayer "X" "guild"
          (Player.VoiceData (Js.Str "session") (Js.Str "token")
                            (Js.Str "us-east42.discord.media")) false)].
Proof. vm_compute. repeat split. Qed.

(** ** Queue: draining with the loop off *)

Section Drain.

Import Queue.

(** One call with the loop off: the head of the concatenated view, if
    there is one, becomes current and leaves its lane. *)
Lemma next_off_step (q : t) :
  loop q = OFF ->
  loop (snd (next q)) = OFF /\
  fst (next q) = head (upcoming q) /\
  current (snd (next q)) = head (upcoming q) /\
  priorityTracks (snd (next q)) = tail (priorityTracks q) /\
  tracks (snd (next q)) =
    match priorityTracks q with [] => tail (tracks q) | _ => tracks q end.
Proof.
  intros Hoff. destruct q as [main prio cur prev lp ap pr hist cap]. simpl in *. subst lp.
  unfold next, upcoming, _addToHistory. simpl.
  destruct cur as [c|]; simpl.
  - destruct (_ >? _); simpl; destruct prio, main; simpl; repeat split.
  - destruct prio, main; simpl; repeat split.
Qed.

Lemma next_off_upcoming (q : t) :
  loop q = OFF -> upcoming (snd (next q)) = tail (upcoming q).
Proof.
  intros Hoff. destruct (next_off_step q Hoff) as (_ & _ & _ & Hp & Ht).
  unfold upcoming. rewrite Hp, Ht. now destruct (priorityTracks q).
Qed.

Lemma nextN_off (n : nat) : forall q : t,
  loop q = OFF ->
  (n <= length (upcoming q))%nat ->
  fst (nextN n q) = map Some (take n (upcoming q)) /\
  loop (snd (nextN n q)) = OFF /\
  priorityTracks (snd (nextN n q)) = drop n (priorityTracks q) /\
  tracks (snd (nextN n q)) = drop (n - length (priorityTracks q)) (tracks q).
Proof.
  induction n as [|n IH]; intros q Hoff Hlen.
  - simpl. rewrite drop_0. repeat split; assumption.
  - destruct (nextN_succ n q) as [Hf Hs]. rewrite Hf, Hs.
    destruct (next_off_step q Hoff) as (Hl & Hr & _ & Hp & Ht).
    pose proof (next_off_upcoming q Hoff) as Hup.
    destruct (IH (snd (next q)) Hl) as (Hrs & Hl2 & Hp2 & Ht2).
    { rewrite Hup. destruct (upcoming q); simpl in *; lia. }
    rewrite Hrs, Hr, Hup, Hl2, Hp2, Ht2, Hp, Ht. clear IH Hrs Hl2 Hp2 Ht2 Hf Hs.
    unfold upcoming in *.
    destruct (priorityTracks q) as [|p prio]; simpl in *.
    + destruct (tracks q) as [|m main]; simpl in *; [lia|].
      rewrite drop_nil. replace (n - 0)%nat with n by lia. repeat split.
    + repeat split.
Qed.

End Drain.

(** With the loop off, as many calls of next() as there are queued
    tracks return the priority lane and then the main lane, in order
    and each track once; one more call returns null and leaves no
    current track. *)
Theorem next_off_drains_in_order (q : Queue.t) :
  Queue.loop q = Queue.OFF ->
  let n := length (Queue.upcoming q) in
  fst (Queue.nextN (S n) q) =
    map Some (Queue.priorityTracks q) ++ map Some (Queue.tracks q) ++ [None] /\
  Queue.upcoming (snd (Queue.nextN n q)) = [] /\
  Queue.current (snd (Queue.nextN (S n) q)) = None /\
  Queue.upcoming (snd (Queue.nextN (S n) q)) = [].
Proof.
  intros Hoff n.
  destruct (nextN_off n q Hoff (le_n _)) as (Hrs & Hl & Hp & Ht).
  assert (Hempty : Queue.upcoming (snd (Queue.nextN n q)) = []).
  { unfold Queue.upcoming. rewrite Hp, Ht. subst n. unfold Queue.upcoming.
    rewrite length_app.
    rewrite drop_ge by lia. rewrite drop_ge by lia. reflexivity. }
  assert (Hlast : forall k q0, fst (Queue.nextN (k + 1) q0) =
                    fst (Queue.nextN k q0) ++ [fst (Queue.next (snd (Queue.nextN k q0)))] /\
                  snd (Queue.nextN (k + 1) q0) = snd (Queue.next (snd (Queue.nextN k q0)))).
  { induction k as [|k IHk]; intros q0.
    - simpl. destruct (Queue.next q0). split; reflexivity.
    - change (S k + 1)%nat with (S (k + 1)).
      destruct (nextN_succ (k + 1) q0) as [Hf1 Hs1].
      destruct (nextN_succ k q0) as [Hf2 Hs2].
      destruct (IHk (snd (Queue.next q0))) as [Hf3 Hs3].
      rewrite Hf1, Hs1, Hf2, Hs2, Hf3, Hs3. split; reflexivity. }
  replace (S n) with (n + 1)%nat by lia.
  destruct (Hlast n q) as [Hf Hs]. rewrite Hf, Hs.
  destruct (next_off_step _ Hl) as (_ & Hr & Hc & _ & _).
  pose proof (next_off_upcoming _ Hl) as Hup.
  rewrite Hr, Hc, Hup, Hempty, Hrs. simpl.
  subst n. rewrite firstn_all. unfold Queue.upcoming. rewrite map_app, <- app_assoc.
  repeat split.
Qed.

(** The scenario of one priority track and two main-lane tracks. *)
Lemma next_off_drains_in_order_witness :
  let q := sampleQueue [sampleTrack "P1"] [sampleTrack "M1"; sampleTrack "M2"] in
  fst (Queue.nextN 4 q) =
    [Some (sampleTrack "P1"); Some (sampleTrack "M1"); Some (sampleTrack "M2"); None] /\
  Queue.upcoming (snd (Queue.nextN 3 q)) = [] /\
  Queue.current (snd (Queue.nextN 4 q)) = None /\
  Queue.upcoming (snd (Queue.nextN 4 q)) = [].
Proof.
  exact (next_off_drains_in_order
           (sampleQueue [sampleTrack "P1"] [sampleTrack "M1"; sampleTrack "M2"]) eq_refl).
Defined.

(** ** Queue: remove, move, swap and add inside the range *)

Section Reorder.

Import Queue.

Lemma delete_app_l {A} (i : nat) (l k : list A) :
  (i < length l)%nat -> delete i (l ++ k) = delete i l ++ k.
Proof.
  revert i. induction l as [|x l IH]; intros [|i] Hlt; simpl in *; try lia; try reflexivity.
  f_equal. apply IH. lia.
Qed.

Lemma delete_app_r {A} (i : nat) (l k : list A) :
  (length l <= i)%nat -> delete i (l ++ k) = l ++ delete (i - length l)%nat k.
Proof.
  revert i. induction l as [|x l IH]; intros i Hle; simpl in *.
  - now rewrite Nat.sub_0_r.
  - destruct i as [|i]; [lia|]. simpl. f_equal. apply IH. lia.
Qed.

Lemma size_upcoming (q : t) : size q = len (upcoming q).
Proof. unfold size, upcoming, len. rewrite length_app. lia. Qed.

(** The lanes are the concatenated view cut at the priority length. *)
Lemma rebuild_upcoming (combined : list Track) (q : t) :
  length combined = length (upcoming q) ->
  upcoming (rebuild combined q) = combined /\
  length (priorityTracks (rebuild combined q)) = length (priorityTracks q) /\
  current (rebuild combined q) = current q /\
  history (rebuild combined q) = history q.
Proof.
  intros Hlen. unfold rebuild, upcoming in *. simpl.
  rewrite length_app in Hlen.
  rewrite length_take, Nat.min_l by lia.
  rewrite take_drop. repeat split.
Qed.

End Reorder.

(** remove(index) with an index inside the range returns the track at
    that index of the concatenated view (priority lane, then main
    lane), takes exactly that track out, keeps the order of the others
    and announces the removal once. *)
Theorem remove_in_range (q : Queue.t) (index : Z) :
  0 <= index < Queue.size q ->
  let removed := fst (fst (Queue.remove index q)) in
  let q' := snd (fst (Queue.remove index q)) in
  removed = Queue.upcoming q !! Z.to_nat index /\
  is_Some removed /\
  Queue.upcoming q' = delete (Z.to_nat index) (Queue.upcoming q) /\
  Queue.size q' = Queue.size q - 1 /\
  snd (Queue.remove index q) = [Queue.QUEUE_REMOVE removed index] /\
  Queue.current q' = Queue.current q /\ Queue.history q' = Queue.history q.
Proof.
  intros Hin. unfold Queue.remove.
  assert (Hneg : (index <? 0) = false) by (apply Z.ltb_ge; lia). rewrite Hneg.
  unfold Queue.size, len in Hin.
  destruct (index <? len (Queue.priorityTracks q)) eqn:Hprio; unfold len in Hprio.
  - apply Z.ltb_lt in Hprio.
    assert (Hlt : (Z.to_nat index < length (Queue.priorityTracks q))%nat) by lia.
    unfold Queue.upcoming, Queue.size, len. simpl.
    rewrite lookup_app_l by exact Hlt. rewrite delete_app_l by exact Hlt.
    repeat split.
    + apply lookup_lt_is_Some. exact Hlt.
    + rewrite length_delete by (apply lookup_lt_is_Some; exact Hlt). lia.
  - apply Z.ltb_ge in Hprio.
    assert (Hmain : (index - len (Queue.priorityTracks q) <? len (Queue.tracks q)) = true).
    { apply Z.ltb_lt. unfold len. lia. }
    rewrite Hmain.
    assert (Hge : (length (Queue.priorityTracks q) <= Z.to_nat index)%nat) by lia.
    assert (Hidx : Z.to_nat (index - len (Queue.priorityTracks q))
                   = (Z.to_nat index - length (Queue.priorityTracks q))%nat).
    { unfold len. lia. }
    assert (Hlt : (Z.to_nat index - length (Queue.priorityTracks q)
                   < length (Queue.tracks q))%nat) by lia.
    unfold Queue.upcoming, Queue.size, len. simpl.
    rewrite lookup_app_r by exact Hge. rewrite delete_app_r by exact Hge.
    fold (len (Queue.priorityTracks q)). rewrite Hidx.
    repeat split.
    + apply lookup_lt_is_Some. exact Hlt.
    + rewrite length_delete by (apply lookup_lt_is_Some; exact Hlt). lia.
Qed.

(** Removing index 1 of [P1; M1; M2] returns M1. *)
Lemma remove_in_range_witness :
  let q := sampleQueue [sampleTrack "P1"] [sampleTrack "M1"; sampleTrack "M2"] in
  fst (fst (Queue.remove 1 q)) = Some (sampleTrack "M1") /\
  Queue.upcoming (snd (fst (Queue.remove 1 q))) = [sampleTrack "P1"; sampleTrack "M2"].
Proof.
  destruct (remove_in_range
              (sampleQueue [sampleTrack "P1"] [sampleTrack "M1"; sampleTrack "M2"]) 1
              ltac:(vm_compute; split; [discriminate | reflexivity]))
    as (Hr & _ & Hu & _).
  split; [exact Hr | exact Hu].
Defined.

Section Exchange.

Context {A : Type}.

Lemma delete_insert_same (i : nat) (x : A) (l : list A) :
  delete i (<[i := x]> l) = delete i l.
Proof.
  revert i. induction l as [|y l IH]; intros [|i]; simpl; try reflexivity.
  f_equal. apply IH.
Qed.

(** Writing [b] over an [a] trades one [a] for one [b]. *)
Lemma insert_trades (i : nat) (a b : A) (l : list A) :
  l !! i = Some a -> b :: l ≡ₚ a :: <[i := b]> l.
Proof.
  intros Hi.
  assert (Hb : <[i := b]> l !! i = Some b).
  { apply list_lookup_insert_eq. now apply lookup_lt_Some in Hi. }
  rewrite (delete_Permutation l i a Hi) at 1.
  rewrite (delete_Permutation (<[i := b]> l) i b Hb).
  rewrite delete_insert_same. apply Permutation_swap.
Qed.

(** The two writes of an exchange of the values at [i] and [j]. *)
Lemma exchange_writes (i j : nat) (a b : A) (l : list A) :
  l !! i = Some a -> l !! j = Some b ->
  let l' := <[j := a]> (<[i := b]> l) in
  l' !! i = Some b /\ l' !! j = Some a /\
  (forall k, k <> i -> k <> j -> l' !! k = l !! k) /\
  length l' = length l /\
  <[j := b]> (<[i := a]> l') = l /\
  l' ≡ₚ l.
Proof.
  intros Hi Hj. cbv zeta.
  pose proof (lookup_lt_Some _ _ _ Hi) as Hli.
  pose proof (lookup_lt_Some _ _ _ Hj) as Hlj.
  destruct (decide (i = j)) as [->|Hne].
  - assert (a = b) by congruence. subst b.
    rewrite (list_insert_id l j a Hj). rewrite (list_insert_id l j a Hj).
    rewrite (list_insert_id l j a Hj). rewrite (list_insert_id l j a Hj).
    repeat split; auto.
  - assert (H1 : <[i := b]> l !! j = Some b) by (rewrite list_lookup_insert_ne; auto).
    repeat split.
    + rewrite list_lookup_insert_ne by auto. now apply list_lookup_insert_eq.
    + apply list_lookup_insert_eq. now rewrite length_insert.
    + intros k Hki Hkj. rewrite !list_lookup_insert_ne by auto. reflexivity.
    + now rewrite !length_insert.
    + apply list_eq. intros k.
      destruct (decide (k = j)) as [->|Hkj].
      { rewrite list_lookup_insert_eq by (now rewrite !length_insert). congruence. }
      rewrite list_lookup_insert_ne by auto.
      destruct (decide (k = i)) as [->|Hki].
      { rewrite list_lookup_insert_eq by (now rewrite !length_insert). congruence. }
      rewrite !list_lookup_insert_ne by auto. reflexivity.
    + apply (Permutation_cons_inv (a := b)).
      rewrite <- (insert_trades j b a (<[i := b]> l) H1).
      rewrite <- (insert_trades i a b l Hi). reflexivity.
Qed.

End Exchange.

Section Splice.

Context {A : Type}.

(** Inserting at a position inside the array. *)
Lemma spliceInsert_inside (p : Z) (x : A) (l : list A) :
  0 <= p <= len l ->
  Queue.spliceInsert p x l = take (Z.to_nat p) l ++ x :: drop (Z.to_nat p) l.
Proof.
  intros Hp. unfold Queue.spliceInsert.
  assert (Hneg : (p <? 0) = false) by (apply Z.ltb_ge; lia).
  rewrite Hneg, Z.min_l by lia. reflexivity.
Qed.

Lemma middle_lookup (n : nat) (x : A) (l : list A) :
  (n <= length l)%nat ->
  (take n l ++ x :: drop n l) !! n = Some x /\
  delete n (take n l ++ x :: drop n l) = l.
Proof.
  intros Hn.
  assert (Hlen : length (take n l) = n) by (rewrite length_take; lia).
  split.
  - rewrite lookup_app_r by lia. rewrite Hlen, Nat.sub_diag. reflexivity.
  - rewrite delete_app_r by lia. rewrite Hlen, Nat.sub_diag. simpl. apply take_drop.
Qed.

End Splice.

(** move(from, to) with both indices inside the range puts the track
    that was at [from] of the concatenated view at [to], keeps the
    order of all other tracks, and keeps the length of the priority
    lane: the lanes are the new view cut at the old priority length. *)
Theorem move_in_range (q : Queue.t) (from to : Z) :
  0 <= from < Queue.size q -> 0 <= to < Queue.size q ->
  let q' := Queue.written q (snd (Queue.move (Js.int from) (Js.int to) q)) in
  Queue.move (Js.int from) (Js.int to) q = (true, Queue.Lanes q') /\
  Queue.upcoming q' !! Z.to_nat to = Queue.upcoming q !! Z.to_nat from /\
  delete (Z.to_nat to) (Queue.upcoming q') = delete (Z.to_nat from) (Queue.upcoming q) /\
  Queue.upcoming q' ≡ₚ Queue.upcoming q /\
  length (Queue.priorityTracks q') = length (Queue.priorityTracks q) /\
  Queue.current q' = Queue.current q /\ Queue.history q' = Queue.history q.
Proof.
  intros Hfrom Hto. cbv zeta.
  destruct (move_int q from to Hfrom Hto) as (track & Hlook & ->).
  cbn [snd Queue.written].
  rewrite size_upcoming in Hfrom, Hto. unfold len in Hfrom, Hto.
  assert (Hdel : length (delete (Z.to_nat from) (Queue.upcoming q))
                 = (length (Queue.upcoming q) - 1)%nat).
  { rewrite length_delete; [lia | eauto]. }
  rewrite spliceInsert_inside by (unfold len; lia).
  destruct (middle_lookup (Z.to_nat to) track (delete (Z.to_nat from) (Queue.upcoming q)))
    as [Hat Hrest]; [lia|].
  destruct (rebuild_upcoming
              (take (Z.to_nat to) (delete (Z.to_nat from) (Queue.upcoming q))
               ++ track :: drop (Z.to_nat to) (delete (Z.to_nat from) (Queue.upcoming q))) q)
    as (Hup & Hprio & Hcur & Hhist).
  { rewrite length_app, length_take. simpl. rewrite length_drop. lia. }
  rewrite Hup, Hlook. repeat split; try assumption.
  etransitivity; [symmetry; apply Permutation_middle|].
  rewrite take_drop. symmetry. now apply delete_Permutation.
Qed.

(** Moving the priority track P1 of [P1; M1; M2] to the end. *)
Lemma move_in_range_witness :
  let q := sampleQueue [sampleTrack "P1"] [sampleTrack "M1"; sampleTrack "M2"] in
  let q' := Queue.written q (snd (Queue.move (Js.int 0) (Js.int 2) q)) in
  Queue.move (Js.int 0) (Js.int 2) q = (true, Queue.Lanes q') /\
  Queue.upcoming q' !! 2%nat = Some (sampleTrack "P1") /\
  Queue.priorityTracks q' = [sampleTrack "M1"].
Proof.
  destruct (move_in_range
              (sampleQueue [sampleTrack "P1"] [sampleTrack "M1"; sampleTrack "M2"]) 0 2
              ltac:(vm_compute; split; [discriminate | reflexivity])
              ltac:(vm_compute; split; [discriminate | reflexivity]))
    as (Hmoved & Hat & _).
  split; [exact Hmoved|]. split; [exact Hat | reflexivity].
Defined.

(** swap(index1, index2) with both indices inside the range exchanges
    the two tracks of the concatenated view and leaves every other
    position, the priority length, the current track and the history
    alone; swapping the same two indices again restores the queue. *)
Theorem swap_in_range (q : Queue.t) (index1 index2 : Z) :
  0 <= index1 < Queue.size q -> 0 <= index2 < Queue.size q ->
  let q' := Queue.written q (snd (Queue.swap (Js.int index1) (Js.int index2) q)) in
  Queue.swap (Js.int index1) (Js.int index2) q = (true, Queue.Lanes q') /\
  Queue.upcoming q' !! Z.to_nat index1 = Queue.upcoming q !! Z.to_nat index2 /\
  Queue.upcoming q' !! Z.to_nat index2 = Queue.upcoming q !! Z.to_nat index1 /\
  (forall k, k <> Z.to_nat index1 -> k <> Z.to_nat index2 ->
     Queue.upcoming q' !! k = Queue.upcoming q !! k) /\
  length (Queue.priorityTracks q') = length (Queue.priorityTracks q) /\
  Queue.current q' = Queue.current q /\ Queue.history q' = Queue.history q /\
  Queue.swap (Js.int index1) (Js.int index2) q' = (true, Queue.Lanes q).
Proof.
  intros H1 H2. cbv zeta.
  pose proof H1 as H1'. pose proof H2 as H2'.
  rewrite size_upcoming in H1', H2'. unfold len in H1', H2'.
  destruct (swap_int q index1 index2 H1 H2) as (a & b & Ha & Hb & Hswap).
  destruct (exchange_writes _ _ a b (Queue.upcoming q) Ha Hb)
    as (Hi & Hj & Hk & Hlen & Hback & _).
  destruct (rebuild_upcoming _ q Hlen) as (Hup & Hprio & Hcur & Hhist).
  set (q' := Queue.rebuild _ q) in *.
  rewrite Hswap. cbn [snd Queue.written]. rewrite Hup, Ha, Hb.
  repeat split; try assumption.
  assert (Hsize : Queue.size q' = Queue.size q).
  { rewrite !size_upcoming, Hup. unfold len. now rewrite Hlen. }
  destruct (swap_int q' index1 index2) as (a' & b' & Ha' & Hb' & ->);
    [now rewrite Hsize | now rewrite Hsize |].
  rewrite Hup, Hi in Ha'. rewrite Hup, Hj in Hb'.
  injection Ha' as <-. injection Hb' as <-.
  rewrite Hup, Hback. do 2 f_equal.
  unfold Queue.rebuild. rewrite Hprio. unfold Queue.upcoming. simpl.
  rewrite length_take, length_app, Nat.min_l by lia.
  rewrite take_app_length, drop_app_length.
  subst q'. destruct q; reflexivity.
Qed.

(** Swapping the ends of [P1; M1; M2], twice. *)
Lemma swap_in_range_witness :
  let q := sampleQueue [sampleTrack "P1"] [sampleTrack "M1"; sampleTrack "M2"] in
  let q' := Queue.written q (snd (Queue.swap (Js.int 0) (Js.int 2) q)) in
  Queue.upcoming q' !! 0%nat = Some (sampleTrack "M2") /\
  Queue.swap (Js.int 0) (Js.int 2) q' = (true, Queue.Lanes q).
Proof.
  destruct (swap_in_range
              (sampleQueue [sampleTrack "P1"] [sampleTrack "M1"; sampleTrack "M2"]) 0 2
              ltac:(vm_compute; split; [discriminate | reflexivity])
              ltac:(vm_compute; split; [discriminate | reflexivity]))
    as (_ & Hat & _ & _ & _ & _ & _ & Hback).
  split; [exact Hat | exact Hback].
Defined.

(** ** Queue: add *)

Section Add.

Import Queue.

Lemma add_at_end (added : list Track) : forall q : t,
  let q' := fold_left (addOne {| position := None; priority := false |}) added q in
  tracks q' = tracks q ++ added /\ priorityTracks q' = priorityTracks q /\
  current q' = current q /\ history q' = history q /\
  maxHistorySize q' = maxHistorySize q.
Proof.
  induction added as [|x added IH]; intros q; simpl.
  - rewrite app_nil_r. repeat split.
  - destruct (IH (addOne {| position := None; priority := false |} q x))
      as (Ht & Hp & Hc & Hh & Hm).
    rewrite Ht, Hp, Hc, Hh, Hm. unfold addOne. simpl.
    rewrite <- app_assoc. repeat split.
Qed.

Lemma add_as_priority (added : list Track) (pos : option Z) : forall q : t,
  let q' := fold_left (addOne {| position := pos; priority := true |}) added q in
  priorityTracks q' = priorityTracks q ++ added /\ tracks q' = tracks q /\
  current q' = current q /\ history q' = history q /\
  maxHistorySize q' = maxHistorySize q.
Proof.
  induction added as [|x added IH]; intros q; simpl.
  - rewrite app_nil_r. repeat split.
  - destruct (IH (addOne {| position := pos; priority := true |} q x))
      as (Hp & Ht & Hc & Hh & Hm).
    rewrite Ht, Hp, Hc, Hh, Hm. unfold addOne. simpl.
    rewrite <- app_assoc. repeat split.
Qed.

Lemma add_at_position (added : list Track) (p : Z) : forall q : t,
  0 <= p <= len (tracks q) ->
  let q' := fold_left (addOne {| position := Some p; priority := false |}) added q in
  tracks q' = take (Z.to_nat p) (tracks q) ++ rev added ++ drop (Z.to_nat p) (tracks q) /\
  priorityTracks q' = priorityTracks q /\
  current q' = current q /\ history q' = history q /\
  maxHistorySize q' = maxHistorySize q.
Proof.
  induction added as [|x added IH]; intros q Hp; simpl.
  - rewrite take_drop. repeat split.
  - set (q1 := addOne {| position := Some p; priority := false |} q x).
    assert (Ht1 : tracks q1 = take (Z.to_nat p) (tracks q) ++ x :: drop (Z.to_nat p) (tracks q)).
    { unfold q1, addOne. simpl. now apply spliceInsert_inside. }
    assert (Hlen : length (take (Z.to_nat p) (tracks q)) = Z.to_nat p).
    { unfold len in Hp. rewrite length_take. lia. }
    destruct (IH q1) as (Ht & Hpr & Hc & Hh & Hm).
    { rewrite Ht1. unfold len in *. rewrite length_app. simpl. lia. }
    rewrite Ht, Hpr, Hc, Hh, Hm, Ht1.
    rewrite take_app_length' by (symmetry; exact Hlen).
    rewrite drop_app_length' by (symmetry; exact Hlen).
    rewrite <- !app_assoc. simpl. repeat split.
Qed.

End Add.

(** add(tracks, options) returns the tracks and announces them once.
    Without options they go to the end of the main lane in the order
    given; with the priority option they go to the end of the priority
    lane, whatever the position option says; with a position inside
    the main lane each track is spliced in at that same position, so
    the tracks end up there in reverse order.  The queue grows by the
    number of tracks in every case. *)
Theorem add_places_tracks (q : Queue.t) (added : list Track) (p : Z) (pos : option Z) :
  0 <= p <= len (Queue.tracks q) ->
  let atEnd := Queue.add added Queue.defaultAddOptions q in
  let asPriority := Queue.add added {| Queue.position := pos; Queue.priority := true |} q in
  let atPosition := Queue.add added {| Queue.position := Some p; Queue.priority := false |} q in
  (fst (fst atEnd) = added /\ snd atEnd = [Queue.QUEUE_ADD added] /\
   Queue.tracks (snd (fst atEnd)) = Queue.tracks q ++ added /\
   Queue.priorityTracks (snd (fst atEnd)) = Queue.priorityTracks q) /\
  (Queue.priorityTracks (snd (fst asPriority)) = Queue.priorityTracks q ++ added /\
   Queue.tracks (snd (fst asPriority)) = Queue.tracks q) /\
  (Queue.tracks (snd (fst atPosition)) =
     take (Z.to_nat p) (Queue.tracks q) ++ rev added ++ drop (Z.to_nat p) (Queue.tracks q) /\
   Queue.priorityTracks (snd (fst atPosition)) = Queue.priorityTracks q) /\
  Queue.size (snd (fst atEnd)) = Queue.size q + len added /\
  Queue.size (snd (fst asPriority)) = Queue.size q + len added /\
  Queue.size (snd (fst atPosition)) = Queue.size q + len added.
Proof.
  intros Hp. cbv zeta. unfold Queue.add, Queue.defaultAddOptions. simpl.
  destruct (add_at_end added q) as (Ht1 & Hp1 & _).
  destruct (add_as_priority added pos q) as (Hp2 & Ht2 & _).
  destruct (add_at_position added p q Hp) as (Ht3 & Hp3 & _).
  unfold Queue.size, len in *.
  rewrite Ht1, Hp1, Hp2, Ht2, Ht3, Hp3.
  rewrite !length_app, length_rev, length_take, length_drop.
  repeat split; lia.
Qed.

(** Two tracks added at position 1 of [M1; M2]. *)
Lemma add_places_tracks_witness :
  let q := sampleQueue [] [sampleTrack "M1"; sampleTrack "M2"] in
  Queue.tracks
    (snd (fst (Queue.add [sampleTrack "A"; sampleTrack "B"]
                 {| Queue.position := Some 1; Queue.priority := false |} q)))
  = [sampleTrack "M1"; sampleTrack "B"; sampleTrack "A"; sampleTrack "M2"].
Proof.
  destruct (add_places_tracks (sampleQueue [] [sampleTrack "M1"; sampleTrack "M2"])
              [sampleTrack "A"; sampleTrack "B"] 1 None
              ltac:(vm_compute; split; discriminate))
    as (_ & _ & [Hat _] & _).
  exact Hat.
Defined.

(** ** Queue: jump, and next() followed by back() *)

Section History.

Import Queue.

Lemma tail_drop {A} (n : nat) (l : list A) : tail (drop n l) = drop (S n) l.
Proof.
  revert l. induction n as [|n IH]; intros [|x l]; simpl; try reflexivity.
  apply IH.
Qed.

(** With room under the cap a push appends. *)
Lemma addToHistory_room (c : Track) (q : t) :
  len (history q) + 1 <= maxHistorySize q ->
  history (_addToHistory c q) = history q ++ [c].
Proof.
  intros Hroom. rewrite addToHistory_history.
  destruct (_ >? _) eqn:Hfull; [|reflexivity].
  apply Z.gtb_gt in Hfull. lia.
Qed.

Lemma addToHistory_all_room (skipped : list Track) : forall q : t,
  len (history q) + len skipped <= maxHistorySize q ->
  history (fold_left (fun acc s => _addToHistory s acc) skipped q) = history q ++ skipped.
Proof.
  induction skipped as [|s rest IH]; intros q Hroom; simpl.
  - now rewrite app_nil_r.
  - destruct (addToHistory_fields s q) as (_ & _ & _ & _ & _ & Hm). simpl in Hm.
    unfold len in *. simpl in Hroom.
    assert (Hs : history (_addToHistory s q) = history q ++ [s]).
    { apply addToHistory_room. unfold len. lia. }
    rewrite IH.
    + rewrite Hs, <- app_assoc. reflexivity.
    + rewrite Hs, Hm, length_app. simpl. lia.
Qed.

(** A push never takes the history over the cap once it is within it. *)
Lemma addToHistory_cap (c : Track) (q : t) :
  len (history q) <= maxHistorySize q ->
  len (history (_addToHistory c q)) <= maxHistorySize q.
Proof.
  intros Hcap. rewrite addToHistory_history. unfold len in *.
  destruct (_ >? _) eqn:Hfull.
  - rewrite length_drop, length_app. simpl. lia.
  - rewrite Z.gtb_ltb in Hfull. apply Z.ltb_ge in Hfull.
    rewrite length_app. simpl. lia.
Qed.

Lemma addToHistory_all_cap (skipped : list Track) : forall q : t,
  len (history q) <= maxHistorySize q ->
  len (history (fold_left (fun acc s => _addToHistory s acc) skipped q))
    <= maxHistorySize q /\
  maxHistorySize (fold_left (fun acc s => _addToHistory s acc) skipped q)
    = maxHistorySize q.
Proof.
  induction skipped as [|s rest IH]; intros q Hcap; simpl; [split; [exact Hcap | reflexivity]|].
  destruct (addToHistory_fields s q) as (_ & _ & _ & _ & _ & Hm). simpl in Hm.
  destruct (IH (_addToHistory s q)) as [Hb Hmm].
  - rewrite Hm. now apply addToHistory_cap.
  - rewrite Hm in *. split; assumption.
Qed.

End History.

(** jump(position) with a position inside the range returns the track
    at that position of the concatenated view and makes it current; the
    tracks before it and the track itself leave the queue, in the
    priority lane as in the concatenated view.  With room under the
    history cap, the history gains the old current track and then the
    skipped tracks, in order. *)
Theorem jump_in_range (q : Queue.t) (position : Z) :
  0 <= position < Queue.size q ->
  let q' := snd (Queue.jump position q) in
  let pushed :=
    match Queue.current q with Some c => [c] | None => [] end
    ++ take (Z.to_nat position) (Queue.upcoming q) in
  fst (Queue.jump position q) = Queue.upcoming q !! Z.to_nat position /\
  is_Some (fst (Queue.jump position q)) /\
  Queue.current q' = Queue.upcoming q !! Z.to_nat position /\
  Queue.upcoming q' = drop (S (Z.to_nat position)) (Queue.upcoming q) /\
  Queue.priorityTracks q' = drop (S (Z.to_nat position)) (Queue.priorityTracks q) /\
  Queue.size q' = Queue.size q - position - 1 /\
  (len (Queue.history q) + len pushed <= Queue.maxHistorySize q ->
   Queue.history q' = Queue.history q ++ pushed).
Proof.
  intros Hp. cbv zeta. unfold Queue.jump.
  assert (Hguard : (position <? 0) || (position >=? Queue.size q) = false).
  { apply orb_false_iff. split; [apply Z.ltb_ge | rewrite Z.geb_leb; apply Z.leb_gt]; lia. }
  rewrite Hguard. cbn [fst snd].
  set (q1 := match Queue.current q with
             | Some c => Queue._addToHistory c q
             | None => q
             end).
  assert (Hq1 : Queue.tracks q1 = Queue.tracks q /\
                Queue.priorityTracks q1 = Queue.priorityTracks q /\
                Queue.maxHistorySize q1 = Queue.maxHistorySize q).
  { subst q1. destruct (Queue.current q) as [c|]; [|repeat split].
    destruct (addToHistory_fields c q) as (Ht & Hpr & _ & _ & _ & Hm). repeat split; assumption. }
  destruct Hq1 as (Ht1 & Hp1 & Hm1).
  assert (Hup1 : Queue.upcoming q1 = Queue.upcoming q).
  { unfold Queue.upcoming. now rewrite Ht1, Hp1. }
  rewrite Hup1.
  set (skipped := take (Z.to_nat position) (Queue.upcoming q)).
  destruct (addToHistory_all_fields skipped q1) as (Ht2 & Hp2 & _).
  set (q2 := fold_left (fun acc s => Queue._addToHistory s acc) skipped q1) in *.
  cbn [Queue.current Queue.setCurrent Queue.setTracks Queue.setPriorityTracks
       Queue.priorityTracks Queue.tracks Queue.history Queue.upcoming Queue.size].
  rewrite Hp2, Hp1.
  pose proof Hp as Hp'. rewrite size_upcoming in Hp'. unfold len in Hp'.
  assert (Hhead : head (drop (Z.to_nat position) (Queue.upcoming q))
                  = Queue.upcoming q !! Z.to_nat position).
  { rewrite head_lookup, lookup_drop. f_equal. lia. }
  rewrite Hhead, tail_drop.
  assert (Hprio : take (Z.to_nat (Z.max 0 (len (Queue.priorityTracks q) - position - 1)))
                       (drop (S (Z.to_nat position)) (Queue.upcoming q))
                  = drop (S (Z.to_nat position)) (Queue.priorityTracks q)).
  { unfold Queue.upcoming, len.
    destruct (decide (S (Z.to_nat position) <= length (Queue.priorityTracks q))%nat) as [Hle|Hgt].
    - rewrite drop_app_le by exact Hle.
      rewrite take_app_length'; [reflexivity|]. rewrite length_drop. lia.
    - replace (Z.to_nat _) with 0%nat by lia.
      rewrite (drop_ge (Queue.priorityTracks q)) by lia. reflexivity. }
  rewrite Hprio.
  assert (Hview : drop (S (Z.to_nat position)) (Queue.priorityTracks q)
                  ++ drop (Z.to_nat (Z.max 0 (len (Queue.priorityTracks q) - position - 1)))
                          (drop (S (Z.to_nat position)) (Queue.upcoming q))
                  = drop (S (Z.to_nat position)) (Queue.upcoming q)).
  { rewrite <- Hprio at 1. apply take_drop. }
  assert (Hsome : is_Some (Queue.upcoming q !! Z.to_nat position)).
  { apply lookup_lt_is_Some. lia. }
  repeat split; try assumption.
  - apply (f_equal length) in Hview. rewrite length_app, !length_drop in Hview.
    unfold Queue.size at 1. simpl. unfold len. rewrite !length_drop.
    rewrite size_upcoming. unfold len. lia.
  - intros Hroom. subst q2.
    unfold len in Hroom. rewrite length_app in Hroom.
    rewrite addToHistory_all_room.
    + subst q1. destruct (Queue.current q) as [c|]; simpl.
      * rewrite addToHistory_room by (unfold len; simpl in Hroom; lia).
        now rewrite <- app_assoc.
      * reflexivity.
    + rewrite Hm1. subst q1. unfold len. destruct (Queue.current q) as [c|]; simpl in *.
      * rewrite addToHistory_room by (unfold len; lia). rewrite length_app. simpl.
        fold skipped in Hroom. lia.
      * fold skipped in Hroom. lia.
Qed.

(** jump(1) on [P1; M1; M2] with C current. *)
Lemma jump_in_range_witness :
  let q := Queue.setCurrent (Some (sampleTrack "C"))
             (sampleQueue [sampleTrack "P1"] [sampleTrack "M1"; sampleTrack "M2"]) in
  fst (Queue.jump 1 q) = Some (sampleTrack "M1") /\
  Queue.upcoming (snd (Queue.jump 1 q)) = [sampleTrack "M2"] /\
  Queue.history (snd (Queue.jump 1 q)) = [sampleTrack "C"; sampleTrack "P1"].
Proof.
  destruct (jump_in_range
              (Queue.setCurrent (Some (sampleTrack "C"))
                 (sampleQueue [sampleTrack "P1"] [sampleTrack "M1"; sampleTrack "M2"])) 1
              ltac:(vm_compute; split; [discriminate | reflexivity]))
    as (Hr & _ & _ & Hu & _ & _ & Hh).
  split; [exact Hr|]. split; [exact Hu|].
  apply Hh. vm_compute. discriminate.
Defined.

Section Pop.

Import Queue.

(** back() on a history whose top is [x]. *)
Lemma back_pop (q : t) (h : list Track) (x : Track) :
  history q = h ++ [x] ->
  back q =
    (Some x,
     setPrevious (last h)
       (setHistory h
          (setCurrent (Some x)
             match current q with
             | Some c => setPriorityTracks (c :: priorityTracks q) q
             | None => q
             end))).
Proof.
  intros Hh. unfold back.
  assert (Hne : history q <> []) by (rewrite Hh; destruct h; discriminate).
  destruct (history q) as [|h0 hs] eqn:Hq; [contradiction|].
  destruct (current q); simpl; rewrite Hq, Hh, last_snoc, removelast_last; reflexivity.
Qed.

End Pop.

(** With the loop off, a current track and room for one more history
    entry, next() followed by back() returns the old current track and
    restores it, the concatenated view of the queue and the history:
    the track next() had started goes back to the front, into the
    priority lane. *)
Theorem next_then_back_restores (q : Queue.t) (c : Track) :
  Queue.loop q = Queue.OFF -> Queue.current q = Some c ->
  len (Queue.history q) + 1 <= Queue.maxHistorySize q ->
  let q' := snd (Queue.back (snd (Queue.next q))) in
  fst (Queue.back (snd (Queue.next q))) = Some c /\
  Queue.current q' = Some c /\
  Queue.upcoming q' = Queue.upcoming q /\
  Queue.history q' = Queue.history q /\
  Queue.priorityTracks q' =
    match Queue.upcoming q with
    | [] => []
    | started :: _ => started :: tail (Queue.priorityTracks q)
    end.
Proof.
  intros Hoff Hcur Hroom. cbv zeta.
  destruct (next_off_step q Hoff) as (_ & _ & Hc1 & Hp1 & Ht1).
  assert (Hh1 : Queue.history (snd (Queue.next q)) = Queue.history q ++ [c]).
  { clear Hc1 Hp1 Ht1.
    destruct q as [main prio cur prev lp ap pr hist cap]. simpl in *. subst lp cur.
    unfold Queue.next, Queue._addToHistory. simpl.
    assert (Hfit : (len (hist ++ [c]) >? cap) = false).
    { rewrite Z.gtb_ltb. apply Z.ltb_ge. unfold len in *. rewrite length_app. simpl. lia. }
    rewrite Hfit. simpl. destruct prio, main; reflexivity. }
  rewrite (back_pop _ _ _ Hh1). simpl.
  rewrite Hc1. unfold Queue.upcoming in *.
  destruct (Queue.priorityTracks q) as [|p prio] eqn:Hprio;
    [destruct (Queue.tracks q) as [|m main] eqn:Hmain|];
    simpl; rewrite ?Hp1, ?Ht1; repeat split.
Qed.

(** next() and back() on [P1; M1] with C current. *)
Lemma next_then_back_restores_witness :
  let q := Queue.setCurrent (Some (sampleTrack "C"))
             (sampleQueue [sampleTrack "P1"] [sampleTrack "M1"]) in
  Queue.current (snd (Queue.back (snd (Queue.next q)))) = Some (sampleTrack "C") /\
  Queue.upcoming (snd (Queue.back (snd (Queue.next q)))) = [sampleTrack "P1"; sampleTrack "M1"].
Proof.
  destruct (next_then_back_restores
              (Queue.setCurrent (Some (sampleTrack "C"))
                 (sampleQueue [sampleTrack "P1"] [sampleTrack "M1"]))
              (sampleTrack "C") eq_refl eq_refl ltac:(vm_compute; discriminate))
    as (_ & Hc & Hu & _).
  split; [exact Hc | exact Hu].
Defined.

(** ** Queue: removeRange *)

Section RemoveRange.

Import Queue.

Lemma take_delete_ge {A} (m n : nat) (l : list A) :
  (m <= n)%nat -> take m (delete n l) = take m l.
Proof.
  revert m n. induction l as [|x l IH]; intros [|m] [|n] Hle; simpl; try reflexivity; try lia.
  f_equal. apply IH. lia.
Qed.

Lemma drop_delete_same {A} (n : nat) (l : list A) : drop n (delete n l) = drop (S n) l.
Proof.
  revert n. induction l as [|x l IH]; intros [|n]; simpl; try reflexivity.
  apply IH.
Qed.

Lemma remove_outside (q : t) (index : Z) :
  size q <= index -> remove index q = (None, q, []).
Proof. intros Hge. apply remove_out_of_range. now right. Qed.

(** The loop, started at the top index of a window of [rounds] indices
    that begins at [start]. *)
Lemma removeRangeFrom_window (rounds : nat) : forall (start : nat) (q : t) (acc : list Track),
  let result := removeRangeFrom rounds (Z.of_nat start + Z.of_nat rounds - 1) q acc in
  fst (fst result) = take rounds (drop start (upcoming q)) ++ acc /\
  upcoming (snd (fst result)) = take start (upcoming q) ++ drop (start + rounds) (upcoming q) /\
  current (snd (fst result)) = current q /\
  history (snd (fst result)) = history q /\
  maxHistorySize (snd (fst result)) = maxHistorySize q.
Proof.
  induction rounds as [|k IH]; intros start q acc; cbv zeta.
  - simpl. rewrite Nat.add_0_r, take_drop. repeat split.
  - simpl removeRangeFrom.
    remember (Z.of_nat start + Z.of_nat (S k) - 1) as i eqn:Hieq.
    assert (Hi : i - 1 = Z.of_nat start + Z.of_nat k - 1) by lia.
    assert (Hnat : Z.to_nat i = (start + k)%nat) by lia.
    assert (Hi0 : 0 <= i) by lia. clear Hieq.
    destruct (Z_lt_le_dec i (size q)) as [Hin | Hout].
    + destruct (remove_in_range q i ltac:(lia)) as (Hr & Hsome & Hup & _ & _ & Hc & Hh).
      assert (Hm : maxHistorySize (snd (fst (remove i q))) = maxHistorySize q).
      { unfold remove. repeat (destruct (_ <? _)); reflexivity. }
      destruct (remove i q) as [[track q1] e1]. simpl in Hr, Hsome, Hup, Hc, Hh, Hm.
      destruct Hsome as [x Hx]. subst track. rewrite Hnat in *. rewrite Hx.
      specialize (IH start q1 (x :: acc)). cbv zeta in IH. rewrite <- Hi in IH.
      destruct (removeRangeFrom k (i - 1) q1 (x :: acc)) as [[result q2] e2].
      cbn [fst snd] in *. destruct IH as (Hres & Hup2 & Hc2 & Hh2 & Hm2).
      rewrite Hres, Hup2, Hup, Hc2, Hh2, Hm2.
      assert (Hlen : (start + k < length (upcoming q))%nat).
      { apply lookup_lt_Some with x. now rewrite Hx. }
      repeat split; try congruence.
      * rewrite take_drop_commute, (take_delete_ge (start + k) (start + k)) by lia.
        rewrite <- take_drop_commute.
        rewrite (take_S_r (drop start (upcoming q)) k x) by (now rewrite lookup_drop).
        now rewrite <- app_assoc.
      * rewrite (take_delete_ge start (start + k)) by lia.
        rewrite drop_delete_same.
        replace (start + S k)%nat with (S (start + k)) by lia. reflexivity.
    + rewrite (remove_outside q i Hout).
      specialize (IH start q acc). cbv zeta in IH. rewrite <- Hi in IH.
      destruct (removeRangeFrom k (i - 1) q acc) as [[result q2] e2].
      cbn [fst snd] in *. destruct IH as (Hres & Hup2 & Hc2 & Hh2 & Hm2).
      rewrite size_upcoming in Hout. unfold len in Hout.
      rewrite Hres, Hup2. repeat split; try assumption.
      * f_equal. rewrite !take_ge; try reflexivity; rewrite length_drop; lia.
      * f_equal. rewrite !drop_ge; try reflexivity; lia.
Qed.

End RemoveRange.

(** removeRange(start, end) with 0 <= start <= end returns the tracks at
    the indices start to end of the concatenated view, in order, and
    leaves the tracks before and after them, in order; indices at or
    beyond the size are skipped, so an end beyond the last index removes
    up to the last track. *)
Theorem removeRange_window (q : Queue.t) (start stop : Z) :
  0 <= start <= stop ->
  let result := Queue.removeRange start stop q in
  fst (fst result) =
    take (Z.to_nat (stop - start + 1)) (drop (Z.to_nat start) (Queue.upcoming q)) /\
  Queue.upcoming (snd (fst result)) =
    take (Z.to_nat start) (Queue.upcoming q) ++ drop (Z.to_nat (stop + 1)) (Queue.upcoming q) /\
  Queue.current (snd (fst result)) = Queue.current q /\
  Queue.history (snd (fst result)) = Queue.history q.
Proof.
  intros Hrange. cbv zeta. unfold Queue.removeRange.
  pose proof (removeRangeFrom_window (Z.to_nat (stop - start + 1)) (Z.to_nat start) q [])
    as Hloop.
  cbv zeta in Hloop.
  replace (Z.of_nat (Z.to_nat start) + Z.of_nat (Z.to_nat (stop - start + 1)) - 1)
    with stop in Hloop by lia.
  destruct Hloop as (Hres & Hup & Hc & Hh & _).
  rewrite Hres, Hup, app_nil_r.
  replace (Z.to_nat start + Z.to_nat (stop - start + 1))%nat with (Z.to_nat (stop + 1)) by lia.
  repeat split; assumption.
Qed.

(** removeRange(1, 5) on [P1; M1; M2]. *)
Lemma removeRange_window_witness :
  let q := sampleQueue [sampleTrack "P1"] [sampleTrack "M1"; sampleTrack "M2"] in
  fst (fst (Queue.removeRange 1 5 q)) = [sampleTrack "M1"; sampleTrack "M2"] /\
  Queue.upcoming (snd (fst (Queue.removeRange 1 5 q))) = [sampleTrack "P1"].
Proof.
  destruct (removeRange_window
              (sampleQueue [sampleTrack "P1"] [sampleTrack "M1"; sampleTrack "M2"]) 1 5
              ltac:(lia))
    as (Hr & Hu & _).
  split; [exact Hr | exact Hu].
Defined.

(** ** Queue: shuffle *)

Section Shuffle.

Context {A : Type}.

Lemma exchange_permutes (i j : nat) (l : list A) : Util.exchange i j l ≡ₚ l.
Proof.
  unfold Util.exchange.
  destruct (l !! i) as [a|] eqn:Ha; [|reflexivity].
  destruct (l !! j) as [b|] eqn:Hb; [|reflexivity].
  now destruct (exchange_writes i j a b l Ha Hb) as (_ & _ & _ & _ & _ & Hperm).
Qed.

Lemma shuffleFrom_permutes (i : nat) (random : nat -> Q) : forall (drawn : nat) (l : list A),
  Util.shuffleFrom i random drawn l ≡ₚ l.
Proof.
  induction i as [|i IH]; intros drawn l; simpl; [reflexivity|].
  rewrite IH. apply exchange_permutes.
Qed.

(** A draw in [0, 1) picks an index between 0 and [i]. *)
Lemma draw_in_range (r : Q) (i : nat) :
  (0 <= r < 1)%Q ->
  (Z.to_nat (Qfloor (r * inject_Z (Z.of_nat i + 1))) <= i)%nat.
Proof.
  intros [Hlo Hhi].
  assert (Hpos : (0 < inject_Z (Z.of_nat i + 1))%Q).
  { change 0%Q with (inject_Z 0). rewrite <- Zlt_Qlt. lia. }
  assert (Hlt : (r * inject_Z (Z.of_nat i + 1) < inject_Z (Z.of_nat i + 1))%Q).
  { rewrite <- (Qmult_1_l (inject_Z (Z.of_nat i + 1))) at 2.
    apply Qmult_lt_compat_r; assumption. }
  pose proof (Qfloor_le (r * inject_Z (Z.of_nat i + 1))) as Hfloor.
  assert (Hz : (inject_Z (Qfloor (r * inject_Z (Z.of_nat i + 1)))
                < inject_Z (Z.of_nat i + 1))%Q) by (eapply Qle_lt_trans; eassumption).
  rewrite <- Zlt_Qlt in Hz. lia.
Qed.

End Shuffle.

(** shuffle() reorders the main lane only: for all values Math.random()
    can draw, the main lane afterwards is a permutation of the main lane
    before, and the priority lane, the current track and the history are
    untouched. *)
Theorem shuffle_permutes_main_lane (random : nat -> Q) (q : Queue.t) :
  (forall k, (0 <= random k < 1)%Q) ->
  Queue.tracks (Queue.shuffle random q) ≡ₚ Queue.tracks q /\
  Queue.priorityTracks (Queue.shuffle random q) = Queue.priorityTracks q /\
  Queue.current (Queue.shuffle random q) = Queue.current q /\
  Queue.history (Queue.shuffle random q) = Queue.history q /\
  Queue.size (Queue.shuffle random q) = Queue.size q.
Proof.
  intros Hdraws.
  assert (Hperm : Queue.tracks (Queue.shuffle random q) ≡ₚ Queue.tracks q).
  { unfold Queue.shuffle, Util.shuffle. simpl. apply shuffleFrom_permutes. }
  repeat split; try exact Hperm.
  unfold Queue.size, len. rewrite (Permutation_length Hperm). reflexivity.
Qed.

(** A shuffle of [M1; M2; M3] with every draw at one half. *)
Lemma shuffle_permutes_main_lane_witness :
  let q := sampleQueue [sampleTrack "P1"]
             [sampleTrack "M1"; sampleTrack "M2"; sampleTrack "M3"] in
  Queue.tracks (Queue.shuffle (fun _ => 1 # 2) q)
    ≡ₚ [sampleTrack "M1"; sampleTrack "M2"; sampleTrack "M3"] /\
  Queue.tracks (Queue.shuffle (fun _ => 1 # 2) q)
    = [sampleTrack "M1"; sampleTrack "M3"; sampleTrack "M2"].
Proof.
  split; [|reflexivity].
  apply (shuffle_permutes_main_lane (fun _ => 1 # 2)
           (sampleQueue [sampleTrack "P1"]
              [sampleTrack "M1"; sampleTrack "M2"; sampleTrack "M3"])).
  intros k. split; [discriminate | reflexivity].
Defined.

(** ** Queue: the history cap over any sequence of calls *)

Section Cap.

Import Queue.

Lemma remove_history (index : Z) (q : t) :
  history (snd (fst (remove index q))) = history q /\
  maxHistorySize (snd (fst (remove index q))) = maxHistorySize q.
Proof. unfold remove. repeat (destruct (_ <? _)); split; reflexivity. Qed.

Lemma removeRangeFrom_history (rounds : nat) : forall (i : Z) (q : t) (acc : list Track),
  history (snd (fst (removeRangeFrom rounds i q acc))) = history q /\
  maxHistorySize (snd (fst (removeRangeFrom rounds i q acc))) = maxHistorySize q.
Proof.
  induction rounds as [|k IH]; intros i q acc; simpl; [split; reflexivity|].
  destruct (remove_history i q) as [Hh Hm].
  destruct (remove i q) as [[track q1] e1]. simpl in Hh, Hm.
  specialize (IH (i - 1) q1 (match track with Some x => x :: acc | None => acc end)).
  destruct (removeRangeFrom k (i - 1) q1 _) as [[result q2] e2]. simpl in *.
  destruct IH as [Hh2 Hm2]. split; congruence.
Qed.

Lemma add_history (added : list Track) (options : AddOptions) : forall q : t,
  history (fold_left (addOne options) added q) = history q /\
  maxHistorySize (fold_left (addOne options) added q) = maxHistorySize q.
Proof.
  induction added as [|x added IH]; intros q; simpl; [split; reflexivity|].
  destruct (IH (addOne options q x)) as [Hh Hm]. rewrite Hh, Hm.
  unfold addOne. destruct (priority options); [|destruct (position options)];
    split; reflexivity.
Qed.

Lemma next_history (q : t) :
  history (snd (next q)) =
    history match current q with
            | Some c => _addToHistory c (setPrevious (Some c) q)
            | None => q
            end /\
  maxHistorySize (snd (next q)) = maxHistorySize q.
Proof.
  unfold next.
  set (q1 := match current q with
             | Some c => _addToHistory c (setPrevious (Some c) q)
             | None => q
             end).
  assert (Hm : maxHistorySize q1 = maxHistorySize q).
  { subst q1. destruct (current q) as [c|]; [|reflexivity].
    now destruct (addToHistory_fields c (setPrevious (Some c) q)) as (_ & _ & _ & _ & _ & ->). }
  rewrite <- Hm.
  destruct (loop q1) eqn:Hl, (current q1), (priorityTracks q1), (tracks q1),
           (previous q1) eqn:Hprev;
    simpl; rewrite ?Hl, ?Hprev; split; reflexivity.
Qed.

(** A call keeps the cap itself and keeps the history within it. *)
Lemma call_within_cap (q : t) (c : Call) :
  len (history q) <= maxHistorySize q ->
  len (history (call q c)) <= maxHistorySize q /\
  maxHistorySize (call q c) = maxHistorySize q.
Proof.
  intros Hcap.
  destruct c as [added options | index | start stop | includePriority | random
                 | from to | index1 index2 | | | p | | ]; simpl.
  - destruct (add_history added options q) as [-> ->]. split; [exact Hcap | reflexivity].
  - destruct (remove_history index q) as [-> ->]. split; [exact Hcap | reflexivity].
  - unfold removeRange.
    destruct (removeRangeFrom_history (Z.to_nat (stop - start + 1)) stop q []) as [-> ->].
    split; [exact Hcap | reflexivity].
  - unfold clear. destruct includePriority; split; assumption || reflexivity.
  - split; [exact Hcap | reflexivity].
  - unfold move. destruct (_ || _); [split; assumption || reflexivity|].
    cbv zeta. cbn [snd]. unfold rebuildSlots.
    destruct (tracksOf _); split; assumption || reflexivity.
  - unfold swap. destruct (_ || _); [split; assumption || reflexivity|].
    cbv zeta. cbn [snd]. unfold rebuildSlots.
    destruct (tracksOf _); split; assumption || reflexivity.
  - split; [exact Hcap | reflexivity].
  - destruct (next_history q) as [-> ->]. split; [|reflexivity].
    destruct (current q) as [c|]; [|exact Hcap].
    apply (addToHistory_cap c (setPrevious (Some c) q)). exact Hcap.
  - unfold jump. destruct (_ || _); [split; assumption || reflexivity|]. simpl.
    set (q1 := match current q with Some c => _addToHistory c q | None => q end).
    assert (Hq1 : len (history q1) <= maxHistorySize q /\ maxHistorySize q1 = maxHistorySize q).
    { subst q1. destruct (current q) as [c|]; [|split; [exact Hcap | reflexivity]].
      split; [now apply addToHistory_cap|].
      now destruct (addToHistory_fields c q) as (_ & _ & _ & _ & _ & ->). }
    destruct Hq1 as [Hb Hm].
    destruct (addToHistory_all_cap (take (Z.to_nat p) (upcoming q1)) q1) as [Hb2 Hm2].
    { now rewrite Hm. }
    rewrite Hm in *. split; assumption.
  - assert (Hshorter : len (removelast (history q)) <= maxHistorySize q).
    { unfold len in *.
      assert (length (removelast (history q)) <= length (history q))%nat; [|lia].
      generalize (history q). intros l. induction l as [|x [|y l] IH]; simpl in *; lia. }
    unfold back. destruct (history q) as [|h0 hs] eqn:Hh.
    { simpl. rewrite Hh. split; [exact Hcap | reflexivity]. }
    destruct (current q); simpl; rewrite Hh; (split; [exact Hshorter | reflexivity]).
  - unfold len in *. simpl. split; [lia | reflexivity].
Qed.

End Cap.

(** Whatever calls are made on a queue (add, remove, removeRange, clear,
    shuffle, move, swap, reverse, next, jump, back, clearHistory, with
    any arguments), a history that is within maxHistorySize stays
    within it, and the calls never change maxHistorySize. *)
Theorem history_stays_within_cap (q : Queue.t) (cs : list Queue.Call) :
  len (Queue.history q) <= Queue.maxHistorySize q ->
  len (Queue.history (Queue.calls q cs)) <= Queue.maxHistorySize q /\
  Queue.maxHistorySize (Queue.calls q cs) = Queue.maxHistorySize q.
Proof.
  revert q. induction cs as [|c cs IH]; intros q Hcap; simpl.
  - split; [exact Hcap | reflexivity].
  - destruct (call_within_cap q c Hcap) as [Hb Hm].
    destruct (IH (Queue.call q c)) as [Hb2 Hm2]; [now rewrite Hm|].
    rewrite Hm in *. split; assumption.
Qed.

(** Sixty rounds of add and next on a new queue leave fifty entries. *)
Lemma history_stays_within_cap_witness :
  let cs := concat (replicate 60 [Queue.CallAdd [sampleTrack "T"] Queue.defaultAddOptions;
                                  Queue.CallNext]) in
  len (Queue.history (Queue.calls Queue.create cs)) <= 50 /\
  length (Queue.history (Queue.calls Queue.create cs)) = 50%nat.
Proof.
  split; [|vm_compute; reflexivity].
  apply (history_stays_within_cap Queue.create). vm_compute. discriminate.
Defined.

(** ** Node: penalty *)

(** The penalty does not decrease when the player count, the count of
    playing players, the system load (not negative), the frame deficit
    or the nulled frames grow and the others stay or grow too; without
    stats it is 0. *)
Theorem penalty_monotone (n1 n2 n0 : Node.t) (s1 s2 : Node.NodeStats) :
  Node.stats n1 = Some s1 -> Node.stats n2 = Some s2 -> Node.stats n0 = None ->
  (Node.players s1 <= Node.players s2)%Q ->
  (Node.playingPlayers s1 <= Node.playingPlayers s2)%Q ->
  match Node.cpu s1, Node.cpu s2 with
  | Some load1, Some load2 => (0 <= load1 <= load2)%Q
  | None, None => True
  | _, _ => False
  end ->
  match Node.frameStats s1, Node.frameStats s2 with
  | Some f1, Some f2 =>
      (Node.deficit f1 <= Node.deficit f2 /\ Node.nulled f1 <= Node.nulled f2)%Q
  | None, None => True
  | _, _ => False
  end ->
  (Node.penalty n1 <= Node.penalty n2)%Q /\ (Node.penalty n0 == 0)%Q.
Proof.
  intros H1 H2 H0 Hplayers Hplaying Hcpu Hframes.
  unfold Node.penalty. rewrite H1, H2, H0. split; [|reflexivity].
  destruct (Node.cpu s1) as [a|], (Node.cpu s2) as [b|]; try contradiction;
    destruct (Node.frameStats s1) as [f|], (Node.frameStats s2) as [g|]; try contradiction;
    simpl; try (assert (Hsq : (a * a <= b * b)%Q) by nra); lra.
Qed.

(** Two stats snapshots that differ in load and players. *)
Lemma penalty_monotone_witness :
  let light := {| Node.players := 2; Node.playingPlayers := 1; Node.cpu := Some (1 # 10);
                  Node.frameStats := Some {| Node.deficit := 0; Node.nulled := 0 |} |} in
  let heavy := {| Node.players := 5; Node.playingPlayers := 4; Node.cpu := Some (9 # 10);
                  Node.frameStats := Some {| Node.deficit := 3; Node.nulled := 1 |} |} in
  (Node.penalty (Node._handleStats light sampleRetryOnce)
   <= Node.penalty (Node._handleStats heavy sampleRetryOnce))%Q /\
  (Node.penalty sampleRetryOnce == 0)%Q.
Proof.
  apply (penalty_monotone
           (Node._handleStats
              {| Node.players := 2; Node.playingPlayers := 1; Node.cpu := Some (1 # 10);
                 Node.frameStats := Some {| Node.deficit := 0; Node.nulled := 0 |} |}
              sampleRetryOnce)
           (Node._handleStats
              {| Node.players := 5; Node.playingPlayers := 4; Node.cpu := Some (9 # 10);
                 Node.frameStats := Some {| Node.deficit := 3; Node.nulled := 1 |} |}
              sampleRetryOnce)
           sampleRetryOnce _ _ eq_refl eq_refl eq_refl).
  - unfold Qle; simpl; lia.
  - unfold Qle; simpl; lia.
  - simpl. split; unfold Qle; simpl; lia.
  - simpl. split; unfold Qle; simpl; lia.
Defined.

(** ** Node: disconnect and destroy *)

(** disconnect() leaves the node disconnected with no socket and with
    the timer handle it holds cleared: it clears at most that one timer,
    and a second disconnect() changes and does nothing.  It does not
    stop reconnection.  When the socket's close event is handled
    afterwards and attempts remain, the node goes to reconnecting and
    arms a timer.  And a timer whose handle a later one has overwritten
    is never cleared: on a node that is not destroyed and has two
    attempts left, after a close, a connect(), a second close and
    disconnect(), two timers were armed and one cleared, the node is
    disconnected with an empty handle, and when the other timer fires
    connect() opens a socket and the node is connecting.  After
    destroy() a close event arms nothing and the node stays
    destroyed. *)
Theorem disconnect_then_close (n : Node.t) (code : Z) (reason : string) (random : Q) :
  Node._reconnectAttempts n < Node.retryAmount n ->
  let off := fst (Node.disconnect n) in
  let gone := fst (Node.destroy n) in
  (Node.state off = Node.DISCONNECTED /\ Node._ws off = Node.NoSocket /\
   Node._reconnectTimeout off = None /\ (Node.cleared (snd (Node.disconnect n)) <= 1)%nat /\
   Node.disconnect off = (off, [])) /\
  (Node.state (fst (Node._onClose code reason random off)) = Node.RECONNECTING /\
   Node.scheduled (snd (Node._onClose code reason random off)) <> []) /\
  (Node._reconnectAttempts n + 1 < Node.retryAmount n ->
   Node.state n <> Node.DESTROYED ->
   let closed := Node.run n [Node.OnClose code reason random; Node.CallConnect;
                             Node.OnClose code reason random; Node.CallDisconnect] in
   length (Node.scheduled (snd closed)) = 2%nat /\
   Node.cleared (snd closed) = 1%nat /\
   Node.state (fst closed) = Node.DISCONNECTED /\
   Node._reconnectTimeout (fst closed) = None /\
   Node.step (fst closed) Node.ReconnectTimerFired =
     (Node.setWs Node.SocketNotOpen (Node.setState Node.CONNECTING (fst closed)),
      [Node.OpenSocket])) /\
  (Node.state gone = Node.DESTROYED /\
   Node._onClose code reason random gone = (gone, [Node.NODE_DISCONNECT code reason])).
Proof.
  intros Hleft. cbv zeta. apply Z.ltb_lt in Hleft.
  destruct n as [nm amount delay prio regs st sid sts ws attempts timeout].
  split; [|split; [|split]].
  - unfold Node.disconnect, Node.cleared. simpl.
    destruct timeout as [timer|], ws; simpl; repeat split; try lia.
  - unfold Node.disconnect, Node._onClose, Node._scheduleReconnect. simpl in *.
    destruct timeout as [timer|], ws; simpl; rewrite ?Hleft; simpl;
      repeat split; discriminate.
  - simpl in Hleft |- *. intros Htwo Hst.
    assert (Hlive : negb (Node.NodeState_eqb st Node.DESTROYED) = true)
      by (destruct st; try reflexivity; contradiction).
    assert (Hone : (attempts + 1 <? amount) = true) by (apply Z.ltb_lt; lia).
    unfold Node._onClose, Node._scheduleReconnect, Node.connect, Node.disconnect,
      Node.cleared.
    destruct ws; simpl; rewrite ?Hlive, ?Hleft; simpl; rewrite ?Hone; simpl;
      repeat split.
  - unfold Node.destroy, Node.disconnect, Node._onClose. simpl.
    destruct timeout as [timer|], ws; simpl; repeat split.
Qed.

(** A connected node with the default five attempts. *)
Lemma disconnect_then_close_witness :
  let n := sampleNode "A" 1 [] Node.CONNECTED 0 in
  let closed := Node.run n [Node.OnClose 1006 "lost" (1 # 2); Node.CallConnect;
                            Node.OnClose 1006 "lost" (1 # 2); Node.CallDisconnect] in
  Node.state (fst (Node._onClose 1000 "Normal closure" (1 # 2) (fst (Node.disconnect n))))
    = Node.RECONNECTING /\
  length (Node.scheduled (snd closed)) = 2%nat /\
  Node.cleared (snd closed) = 1%nat /\
  Node.state (fst (Node.step (fst closed) Node.ReconnectTimerFired)) = Node.CONNECTING.
Proof.
  cbv zeta.
  destruct (disconnect_then_close (sampleNode "A" 1 [] Node.CONNECTED 0)
              1000 "Normal closure" (1 # 2) ltac:(vm_compute; reflexivity))
    as (_ & [Hstate _] & _ & _).
  destruct (disconnect_then_close (sampleNode "A" 1 [] Node.CONNECTED 0)
              1006 "lost" (1 # 2) ltac:(vm_compute; reflexivity))
    as (_ & _ & Hagain & _).
  destruct (Hagain ltac:(vm_compute; reflexivity) ltac:(discriminate))
    as (Harmed & Hcleared & _ & _ & Hfired).
  split; [exact Hstate|]. split; [exact Harmed|]. split; [exact Hcleared|].
  now rewrite Hfired.
Defined.

(** ** Node: the number of reconnections *)

Section Retries.

(** A step that is not the socket's open event keeps the retry limit
    and raises the attempt counter by the number of timers it arms: one
    below the limit, none otherwise. *)
Lemma step_counts (n : Node.t) (i : Node.Input) :
  Node.isOnOpen i = false ->
  Node.retryAmount (fst (Node.step n i)) = Node.retryAmount n /\
  Node._reconnectAttempts (fst (Node.step n i))
  = Node._reconnectAttempts n + Z.of_nat (length (Node.scheduled (snd (Node.step n i)))) /\
  (Node.scheduled (snd (Node.step n i)) = [] \/
   length (Node.scheduled (snd (Node.step n i))) = 1%nat /\
   Node._reconnectAttempts n < Node.retryAmount n).
Proof.
  intros Hi.
  destruct n as [nm amount delay prio regs st sid sts ws attempts timeout].
  destruct i as [| | |sid'|payload|code reason random|]; try discriminate; simpl.
  - unfold Node.connect; simpl. destruct ws; simpl; repeat split; try lia; now left.
  - unfold Node.disconnect; simpl.
    destruct timeout, ws; simpl; repeat split; try lia; now left.
  - repeat split; try lia; now left.
  - repeat split; try lia; now left.
  - unfold Node._onClose, Node._scheduleReconnect.
    destruct ws; simpl;
      destruct (negb (Node.NodeState_eqb st Node.DESTROYED)); simpl;
      destruct (attempts <? amount) eqn:Hlt; simpl;
      try apply Z.ltb_lt in Hlt;
      (split; [reflexivity|]); (split; [lia|]);
      first [now left | right; split; [reflexivity|lia]].
  - unfold Node.connect; simpl. destruct ws; simpl; repeat split; try lia; now left.
Qed.

(** Over inputs without an open event the attempt counter grows by the
    number of timers armed and does not pass the limit. *)
Lemma run_counts (inputs : list Node.Input) : forall n : Node.t,
  forallb (fun i => negb (Node.isOnOpen i)) inputs = true ->
  Node._reconnectAttempts n <= Node.retryAmount n ->
  Node.retryAmount (fst (Node.run n inputs)) = Node.retryAmount n /\
  Node._reconnectAttempts (fst (Node.run n inputs))
  = Node._reconnectAttempts n + Z.of_nat (length (Node.scheduled (snd (Node.run n inputs)))) /\
  Node._reconnectAttempts (fst (Node.run n inputs)) <= Node.retryAmount n.
Proof.
  induction inputs as [|i rest IH]; intros n Hall Hle; simpl.
  - repeat split; lia.
  - simpl in Hall. apply andb_true_iff in Hall as [Hi Hrest].
    apply negb_true_iff in Hi.
    destruct (step_counts n i Hi) as (Ham & Hat & Hone).
    destruct (Node.step n i) as [n1 e1] eqn:Hstep. simpl in Ham, Hat, Hone.
    assert (Hle1 : Node._reconnectAttempts n1 <= Node.retryAmount n1).
    { rewrite Ham, Hat. destruct Hone as [Hnone|[Hone Hlt]].
      - rewrite Hnone. simpl. lia.
      - rewrite Hone. lia. }
    specialize (IH n1 Hrest Hle1) as (Ham' & Hat' & Hle').
    destruct (Node.run n1 rest) as [n2 e2]. simpl in *.
    unfold Node.scheduled in *. rewrite flat_map_app, length_app.
    repeat split; try congruence; lia.
Qed.

End Retries.

(** Between two open events of the socket a node arms at most as many
    reconnection timers as it has attempts left, whatever calls and
    socket events arrive in whatever order. *)
Theorem reconnects_bounded (n : Node.t) (inputs : list Node.Input) :
  forallb (fun i => negb (Node.isOnOpen i)) inputs = true ->
  Node._reconnectAttempts n <= Node.retryAmount n ->
  Z.of_nat (length (Node.scheduled (snd (Node.run n inputs))))
  <= Node.retryAmount n - Node._reconnectAttempts n.
Proof.
  intros Hall Hle. destruct (run_counts inputs n Hall Hle) as (_ & Hat & Hle'). lia.
Qed.

(** A node with one attempt whose socket closes three times. *)
Lemma reconnects_bounded_witness :
  Z.of_nat (length (Node.scheduled (snd (Node.run sampleRetryOnce
    [Node.CallConnect; Node.OnClose 1006 "lost" (1 # 2);
     Node.ReconnectTimerFired; Node.OnClose 1006 "lost" (1 # 2);
     Node.OnClose 1006 "lost" (1 # 2)]))))
  <= Node.retryAmount sampleRetryOnce - Node._reconnectAttempts sampleRetryOnce.
Proof.
  apply (reconnects_bounded sampleRetryOnce
           [Node.CallConnect; Node.OnClose 1006 "lost" (1 # 2);
            Node.ReconnectTimerFired; Node.OnClose 1006 "lost" (1 # 2);
            Node.OnClose 1006 "lost" (1 # 2)]).
  - reflexivity.
  - vm_compute. discriminate.
Defined.

(** ** NodeManager: ties, regions, the sorted list, the registry *)

Section Sorting.

Context {A : Type} (compare : A -> A -> Q).

Lemma insertBy_permutes (x : A) (l : list A) :
  NodeManager.insertBy compare x l ≡ₚ x :: l.
Proof.
  induction l as [|y rest IH]; simpl; [reflexivity|].
  destruct (Qle_bool (compare x y) 0); [reflexivity|].
  rewrite IH. apply Permutation_swap.
Qed.

Lemma sortBy_permutes (l : list A) : NodeManager.sortBy compare l ≡ₚ l.
Proof.
  induction l as [|x rest IH]; simpl; [reflexivity|].
  unfold NodeManager.sortBy in *. simpl. now rewrite insertBy_permutes, IH.
Qed.

(** The head of the sorted list is the first element of the list that
    no earlier element is at or below. *)
Lemma head_sortBy_first (l : list A) (m : A) :
  head (NodeManager.sortBy compare l) = Some m ->
  exists pre post, l = pre ++ m :: post /\
    forall c, In c pre -> Qle_bool (compare c m) 0 = false.
Proof.
  revert m. induction l as [|x rest IH]; intros m; [discriminate|].
  unfold NodeManager.sortBy in *. simpl fold_right.
  destruct (fold_right (NodeManager.insertBy compare) [] rest) as [|y sorted] eqn:Hsorted.
  - simpl. intros [= <-].
    assert (Hrest : rest = []).
    { apply Permutation_nil_r. rewrite <- Hsorted.
      symmetry. apply (sortBy_permutes rest). }
    subst rest. exists [], []. split; [reflexivity|]. intros c [].
  - simpl. destruct (Qle_bool (compare x y) 0) eqn:Hcmp; simpl; intros [= <-].
    + exists [], rest. split; [reflexivity|]. intros c [].
    + destruct (IH y eq_refl) as (pre & post & -> & Hpre).
      exists (x :: pre), post. split; [reflexivity|].
      intros c [<- | Hc]; [exact Hcmp | now apply Hpre].
Qed.

End Sorting.

Section Sorted.

Context {A : Type} (compare : A -> A -> Q) (le : A -> A -> Prop).
Hypothesis compare_le : forall a b, Qle_bool (compare a b) 0 = true <-> le a b.
Hypothesis total : forall a b, le a b \/ le b a.
Hypothesis trans : forall a b c, le a b -> le b c -> le a c.

Lemma insertBy_sorted (x : A) (l : list A) :
  StronglySorted le l -> StronglySorted le (NodeManager.insertBy compare x l).
Proof.
  induction l as [|y rest IH]; simpl; intros Hsorted.
  - constructor; [constructor | constructor].
  - apply StronglySorted_inv in Hsorted as [Hrest Hy].
    destruct (Qle_bool (compare x y) 0) eqn:Hcmp.
    + apply compare_le in Hcmp. constructor; [now constructor|].
      constructor; [exact Hcmp|].
      eapply Forall_impl; [exact Hy|]. intros c Hc. now apply trans with y.
    + constructor; [auto|].
      rewrite (insertBy_permutes compare x rest). constructor; [|exact Hy].
      destruct (total y x) as [Hyx | Hxy]; [exact Hyx|].
      apply compare_le in Hxy. congruence.
Qed.

Lemma sortBy_sorted (l : list A) : StronglySorted le (NodeManager.sortBy compare l).
Proof.
  induction l as [|x rest IH]; simpl; [constructor|].
  now apply insertBy_sorted.
Qed.

End Sorted.

(** getSortedByPenalty() returns the connected nodes, each once as often
    as the pool holds it, in an order in which no node has a higher
    penalty than a node after it. *)
Theorem getSortedByPenalty_sorted (pool : NodeManager.Pool) :
  NodeManager.getSortedByPenalty pool ≡ₚ NodeManager.getConnected pool /\
  StronglySorted (fun a b => (Node.penalty a <= Node.penalty b)%Q)
                 (NodeManager.getSortedByPenalty pool) /\
  (forall n, In n (NodeManager.getSortedByPenalty pool) <->
             In n pool /\ Node.state n = Node.CONNECTED).
Proof.
  unfold NodeManager.getSortedByPenalty. split; [apply sortBy_permutes|]. split.
  - apply sortBy_sorted.
    + intros a b. rewrite Qle_bool_iff. split; intros; lra.
    + intros a b. destruct (Qlt_le_dec (Node.penalty b) (Node.penalty a)); [right|left]; lra.
    + intros a b c. lra.
  - intros n. rewrite <- connected_state.
    unfold NodeManager.getConnected. rewrite <- filter_In.
    split; apply Permutation_in; [|symmetry]; apply sortBy_permutes.
Qed.

(** A region is a preference.  getBest(region) is getBest() over the
    nodes of the pool that serve the region when the region is not
    empty and a connected node serves it, and getBest() over the whole
    pool otherwise. *)
Theorem getBest_region_is_preference (r : string) (pool : NodeManager.Pool) :
  NodeManager.getBest (Some r) pool =
    if Js.truthy (Some r) &&
       existsb (NodeManager.servesRegion r) (NodeManager.getConnected pool)
    then NodeManager.getBest None (List.filter (NodeManager.servesRegion r) pool)
    else NodeManager.getBest None pool.
Proof.
  unfold NodeManager.getBest.
  assert (Hswap : NodeManager.getConnected (List.filter (NodeManager.servesRegion r) pool)
                  = List.filter (NodeManager.servesRegion r) (NodeManager.getConnected pool)).
  { unfold NodeManager.getConnected. induction pool as [|n pool IH]; simpl; [reflexivity|].
    destruct (NodeManager.servesRegion r n) eqn:Hs, (Node.connected n) eqn:Hc;
      simpl; rewrite ?Hs, ?Hc, IH; reflexivity. }
  rewrite Hswap.
  assert (Hserved : forall l : list Node.t,
             existsb (NodeManager.servesRegion r) l
             = (len (List.filter (NodeManager.servesRegion r) l) >? 0)).
  { induction l as [|n l IH]; simpl; [reflexivity|].
    destruct (NodeManager.servesRegion r n); simpl; [|exact IH].
    unfold len. simpl length. symmetry. rewrite Z.gtb_ltb. apply Z.ltb_lt. lia. }
  rewrite Hserved.
  destruct (len (NodeManager.getConnected pool) =? 0) eqn:Hnone.
  - apply len_zero in Hnone. rewrite Hnone. simpl. now destruct (_ && _).
  - destruct (Js.truthy (Some r)); simpl; [|reflexivity].
    destruct (len (List.filter _ _) >? 0) eqn:Hsome; [|reflexivity].
    rewrite Z.gtb_ltb in Hsome. apply Z.ltb_lt in Hsome.
    destruct (len (List.filter _ _) =? 0) eqn:Hzero; [|reflexivity].
    apply Z.eqb_eq in Hzero. lia.
Qed.

(** Among the connected nodes that tie for the lowest priority value
    and penalty, getBest() returns the one the pool holds first: every
    connected node before it in the pool sorts strictly after it. *)
Theorem getBest_ties_earliest (pool : NodeManager.Pool) (best : Node.t) :
  NodeManager.getBest None pool = Some best ->
  exists pre post,
    NodeManager.getConnected pool = pre ++ best :: post /\
    forall c, In c pre -> before best c /\ ~ before c best.
Proof.
  unfold NodeManager.getBest.
  destruct (len (NodeManager.getConnected pool) =? 0); [discriminate|].
  intros Hhead. destruct (head_sortBy_first _ _ _ Hhead) as (pre & post & Hsplit & Hpre).
  exists pre, post. split; [exact Hsplit|].
  intros c Hc. specialize (Hpre c Hc).
  assert (Hnot : ~ before c best).
  { intros Hb. apply compareNodes_before in Hb. congruence. }
  split; [|exact Hnot]. destruct (before_total best c); [assumption|contradiction].
Qed.

(** Two connected nodes with the same priority and the same penalty:
    the first of the pool is returned. *)
Lemma getBest_ties_earliest_witness :
  NodeManager.getBest None
    [sampleNode "A" 1 [] Node.CONNECTED 4; sampleNode "B" 1 [] Node.CONNECTED 4]
  = Some (sampleNode "A" 1 [] Node.CONNECTED 4) /\
  exists pre post,
    NodeManager.getConnected
      [sampleNode "A" 1 [] Node.CONNECTED 4; sampleNode "B" 1 [] Node.CONNECTED 4]
    = pre ++ sampleNode "A" 1 [] Node.CONNECTED 4 :: post /\
    forall c, In c pre -> before (sampleNode "A" 1 [] Node.CONNECTED 4) c /\
                          ~ before c (sampleNode "A" 1 [] Node.CONNECTED 4).
Proof.
  split; [reflexivity|].
  apply (getBest_ties_earliest
           [sampleNode "A" 1 [] Node.CONNECTED 4; sampleNode "B" 1 [] Node.CONNECTED 4]
           (sampleNode "A" 1 [] Node.CONNECTED 4)).
  reflexivity.
Defined.

(** ** NodeManager: the registry of nodes *)

Section Registry.

Lemma get_set_same (name : string) (node : Node.t) (m : NodeManager.Registry) :
  NodeManager.get name (NodeManager.set name node m) = Some node.
Proof.
  induction m as [|[k n] rest IH]; simpl.
  - now rewrite String.eqb_refl.
  - destruct (String.eqb name k) eqn:Hk; simpl; rewrite Hk; [reflexivity | exact IH].
Qed.

Lemma get_set_other (name other : string) (node : Node.t) (m : NodeManager.Registry) :
  other <> name ->
  NodeManager.get other (NodeManager.set name node m) = NodeManager.get other m.
Proof.
  intros Hne. induction m as [|[k n] rest IH]; simpl.
  - apply String.eqb_neq in Hne. now rewrite Hne.
  - destruct (String.eqb name k) eqn:Hk; simpl.
    + apply String.eqb_eq in Hk. subst k. apply String.eqb_neq in Hne. now rewrite Hne.
    + now rewrite IH.
Qed.

Lemma get_keys (name : string) (m : NodeManager.Registry) :
  is_Some (NodeManager.get name m) <-> In name (map fst m).
Proof.
  induction m as [|[k n] rest IH]; simpl.
  - split; [intros [x Hx]; discriminate | intros []].
  - destruct (String.eqb name k) eqn:Hk.
    + apply String.eqb_eq in Hk. split; [now left | intros _; now eexists].
    + apply String.eqb_neq in Hk. rewrite IH. split; [now right | intros [?|?]; congruence].
Qed.

Lemma set_keys (name : string) (node : Node.t) (m : NodeManager.Registry) :
  map fst (NodeManager.set name node m) =
    if NodeManager.has name m then map fst m else map fst m ++ [name].
Proof.
  unfold NodeManager.has. induction m as [|[k n] rest IH]; simpl.
  - reflexivity.
  - destruct (String.eqb name k) eqn:Hk; simpl.
    + reflexivity.
    + rewrite IH. now destruct (bool_decide _).
Qed.

Lemma get_delete_other (name other : string) (m : NodeManager.Registry) :
  other <> name ->
  NodeManager.get other (snd (NodeManager.delete name m)) = NodeManager.get other m.
Proof.
  intros Hne. induction m as [|[k n] rest IH]; simpl; [reflexivity|].
  destruct (String.eqb name k) eqn:Hk.
  - apply String.eqb_eq in Hk. subst k. apply String.eqb_neq in Hne. simpl. now rewrite Hne.
  - destruct (NodeManager.delete name rest) as [found rest'] eqn:Hdel. simpl in *.
    now rewrite IH.
Qed.

Lemma delete_keys (name : string) (m : NodeManager.Registry) :
  NoDup (map fst m) ->
  NoDup (map fst (snd (NodeManager.delete name m))) /\
  ~ In name (map fst (snd (NodeManager.delete name m))) /\
  (forall k, In k (map fst (snd (NodeManager.delete name m))) -> In k (map fst m)) /\
  fst (NodeManager.delete name m) = NodeManager.has name m.
Proof.
  unfold NodeManager.has. induction m as [|[k n] rest IH]; simpl; intros Hnodup.
  - repeat split; auto; constructor.
  - apply NoDup_cons in Hnodup as [Hk Hrest].
    destruct (String.eqb name k) eqn:Heq.
    + apply String.eqb_eq in Heq. subst k. simpl.
      repeat split; auto; try reflexivity.
      intros Hin. apply Hk. now apply list_elem_of_In.
    + apply String.eqb_neq in Heq.
      destruct (IH Hrest) as (Hnd & Hnot & Hsub & Hfound).
      destruct (NodeManager.delete name rest) as [found rest'] eqn:Hdel. simpl in *.
      repeat split.
      * apply NoDup_cons. split; [|exact Hnd].
        intros Hin. apply Hk. apply list_elem_of_In, Hsub. now apply list_elem_of_In.
      * intros [?|?]; [congruence | contradiction].
      * intros k' [?|?]; [now left | right; auto].
      * exact Hfound.
Qed.

(** What holds of every registry: a name is held once, and under a name
    lies a node of that name. *)
Lemma change_keeps (m : NodeManager.Registry) (c : NodeManager.Change) :
  NoDup (map fst m) /\ (forall k n, NodeManager.get k m = Some n -> Node.name n = k) ->
  NoDup (map fst (NodeManager.change m c)) /\
  (forall k n, NodeManager.get k (NodeManager.change m c) = Some n -> Node.name n = k).
Proof.
  intros [Hnodup Hnames]. destruct c as [options | name]; simpl.
  - unfold NodeManager.add.
    destruct (NodeManager.get (Node.opt_name options) m) as [existing|] eqn:Hget; simpl.
    + now split.
    + split.
      * rewrite set_keys. unfold NodeManager.has.
        rewrite bool_decide_eq_false_2 by (rewrite Hget; intros [x Hx]; discriminate).
        apply NoDup_app. split; [exact Hnodup|]. split; [|apply NoDup_singleton].
        intros k Hk Hin. apply list_elem_of_singleton in Hin. subst k.
        apply list_elem_of_In, get_keys in Hk. rewrite Hget in Hk.
        destruct Hk as [x Hx]; discriminate.
      * intros k n. destruct (String.eqb_spec k (Node.opt_name options)) as [-> | Hne].
        -- rewrite get_set_same. intros [= <-]. reflexivity.
        -- rewrite get_set_other by exact Hne. apply Hnames.
  - unfold NodeManager.remove.
    destruct (NodeManager.get name m) as [node|] eqn:Hget; simpl; [|now split].
    destruct (Node.destroy node) as [gone effects].
    destruct (delete_keys name m Hnodup) as (Hnd & Hnot & _ & _).
    destruct (NodeManager.delete name m) as [found m'] eqn:Hdel. simpl in *.
    split; [exact Hnd|].
    intros k n Hk. destruct (String.eqb_spec k name) as [-> | Hne].
    + exfalso. apply Hnot, get_keys. exists n. exact Hk.
    + apply Hnames. rewrite <- Hk. change m' with (snd (found, m')). rewrite <- Hdel.
      symmetry. now apply get_delete_other.
Qed.

Lemma changes_keep (cs : list NodeManager.Change) : forall m : NodeManager.Registry,
  NoDup (map fst m) /\ (forall k n, NodeManager.get k m = Some n -> Node.name n = k) ->
  NoDup (map fst (NodeManager.changes m cs)) /\
  (forall k n, NodeManager.get k (NodeManager.changes m cs) = Some n -> Node.name n = k).
Proof.
  induction cs as [|c cs IH]; intros m Hm; [exact Hm|].
  apply (IH (NodeManager.change m c)), change_keeps, Hm.
Qed.

End Registry.

(** Whatever nodes were added and removed before: add(options) returns
    a node called options.name that the manager then holds under that
    name; a second add under the name returns the same node and leaves
    the manager as it is, whatever the other options say; remove(name)
    then returns true, the manager no longer has the name, and the other
    names keep their nodes. *)
Theorem add_registers_once (cs : list NodeManager.Change)
    (options again : Node.NodeOptions) (other : string) :
  Node.opt_name again = Node.opt_name options ->
  other <> Node.opt_name options ->
  let m := NodeManager.changes [] cs in
  let node := fst (NodeManager.add options m) in
  let m1 := snd (NodeManager.add options m) in
  Node.name node = Node.opt_name options /\
  NodeManager.get (Node.opt_name options) m1 = Some node /\
  NodeManager.add again m1 = (node, m1) /\
  NodeManager.get other m1 = NodeManager.get other m /\
  fst (fst (NodeManager.remove (Node.opt_name options) m1)) = true /\
  NodeManager.has (Node.opt_name options)
    (snd (fst (NodeManager.remove (Node.opt_name options) m1))) = false /\
  NodeManager.get other (snd (fst (NodeManager.remove (Node.opt_name options) m1)))
  = NodeManager.get other m.
Proof.
  intros Hagain Hother. cbv zeta.
  destruct (changes_keep cs []) as [Hnodup Hnames].
  { split; [constructor | discriminate]. }
  set (m := NodeManager.changes [] cs) in *.
  destruct (change_keeps m (NodeManager.Add options) (conj Hnodup Hnames)) as [Hnodup1 _].
  simpl in Hnodup1.
  assert (Hheld : NodeManager.get (Node.opt_name options) (snd (NodeManager.add options m))
                  = Some (fst (NodeManager.add options m)) /\
                  Node.name (fst (NodeManager.add options m)) = Node.opt_name options /\
                  NodeManager.get other (snd (NodeManager.add options m))
                  = NodeManager.get other m).
  { unfold NodeManager.add.
    destruct (NodeManager.get (Node.opt_name options) m) as [existing|] eqn:Hget; simpl.
    - split; [exact Hget|]. split; [now apply Hnames | reflexivity].
    - split; [apply get_set_same|]. split; [reflexivity|]. now apply get_set_other. }
  destruct Hheld as (Hget1 & Hname & Hother1).
  set (node := fst (NodeManager.add options m)) in *.
  set (m1 := snd (NodeManager.add options m)) in *.
  split; [exact Hname|]. split; [exact Hget1|]. split.
  { unfold NodeManager.add. now rewrite Hagain, Hget1. }
  split; [exact Hother1|].
  unfold NodeManager.remove. rewrite Hget1.
  destruct (Node.destroy node) as [gone effects].
  destruct (delete_keys (Node.opt_name options) m1 Hnodup1) as (_ & Hnot & _ & Hfound).
  pose proof (get_delete_other (Node.opt_name options) other m1 Hother) as Hkept.
  destruct (NodeManager.delete (Node.opt_name options) m1) as [found m2]. simpl in *.
  split.
  { rewrite Hfound. unfold NodeManager.has. apply bool_decide_eq_true_2.
    rewrite Hget1. now eexists. }
  split.
  { unfold NodeManager.has. apply bool_decide_eq_false_2.
    intros Hsome. now apply Hnot, get_keys. }
  now rewrite Hkept.
Qed.

(** A registry with two nodes, a second add of the first name with
    another priority, and a look at the second name. *)
Lemma add_registers_once_witness :
  let first := {| Node.opt_name := "main"; Node.opt_retryAmount := None;
                  Node.opt_retryDelay := None; Node.opt_priority := Some (1 # 1)%Q;
                  Node.opt_regions := None |} in
  let second := {| Node.opt_name := "backup"; Node.opt_retryAmount := None;
                   Node.opt_retryDelay := None; Node.opt_priority := Some (2 # 1)%Q;
                   Node.opt_regions := None |} in
  let again := {| Node.opt_name := "main"; Node.opt_retryAmount := Some 9;
                  Node.opt_retryDelay := None; Node.opt_priority := Some (7 # 1)%Q;
                  Node.opt_regions := None |} in
  let m1 := snd (NodeManager.add first (NodeManager.changes [] [NodeManager.Add second])) in
  NodeManager.add again m1 = (Node.create first, m1).
Proof.
  destruct (add_registers_once
              [NodeManager.Add
                 {| Node.opt_name := "backup"; Node.opt_retryAmount := None;
                    Node.opt_retryDelay := None; Node.opt_priority := Some (2 # 1)%Q;
                    Node.opt_regions := None |}]
              {| Node.opt_name := "main"; Node.opt_retryAmount := None;
                 Node.opt_retryDelay := None; Node.opt_priority := Some (1 # 1)%Q;
                 Node.opt_regions := None |}
              {| Node.opt_name := "main"; Node.opt_retryAmount := Some 9;
                 Node.opt_retryDelay := None; Node.opt_priority := Some (7 # 1)%Q;
                 Node.opt_regions := None |}
              "backup" eq_refl ltac:(discriminate))
    as (_ & _ & Hagain & _).
  exact Hagain.
Defined.

(** ** Connection: the two halves of the handshake *)

(** The two gateway events of a handshake may arrive in either order.
    On a connection that holds no session id and no token, as after
    connect() on a new connection or after disconnect(), a voice-state
    update followed by a voice-server update leaves the same connection
    and the same emissions, resolutions and timer calls as the two in
    the other order. *)
Theorem handshake_order_irrelevant (fresh : nat) (c : Connection.t)
    (sid ch tok ep : option string) :
  Connection.sessionId c = None -> Connection.token c = None ->
  Connection.run fresh c [Connection.VoiceStateUpdate sid ch; Connection.VoiceServerUpdate tok ep]
  = Connection.run fresh c [Connection.VoiceServerUpdate tok ep; Connection.VoiceStateUpdate sid ch].
Proof.
  intros Hsid Htok.
  destruct c as [channel session token endpoint region connected deaf mute timer pending].
  simpl in Hsid, Htok. subst session token.
  assert (Hnone : Js.truthy None = false) by reflexivity.
  unfold Connection.run, Connection.step, Connection.handleVoiceStateUpdate,
    Connection.handleVoiceServerUpdate, Connection._checkReady, Connection._clearTimeout.
  cbn [Connection.channelId Connection.sessionId Connection.token Connection.endpoint
       Connection.region Connection.connected Connection._connectTimeout
       Connection._pendingConnection Connection.setChannelId Connection.setSessionId
       Connection.setToken Connection.setEndpoint Connection.setRegion
       Connection.setConnected Connection.setConnectTimeout
       Connection.setPendingConnection].
  rewrite ?Hnone.
  destruct (negb (Js.truthy ch) && Js.truthy channel) eqn:Hdrop;
    destruct (Js.truthy ch && Js.truthy channel
              && negb (Connection.optionStringEqb ch channel)) eqn:Hmove;
    destruct ep as [e|]; try destruct (Js.truthy (Some e)) eqn:He;
    cbn -[Js.truthy Connection.matchRegion Connection.optionStringEqb];
    rewrite ?Hnone, ?Hdrop, ?Hmove, ?He, ?andb_false_r;
    cbn -[Js.truthy Connection.matchRegion Connection.optionStringEqb];
    rewrite ?Hnone, ?Hdrop, ?Hmove, ?He, ?andb_false_r;
    cbn -[Js.truthy Connection.matchRegion Connection.optionStringEqb];
    try reflexivity.
  all: destruct (Js.truthy sid && Js.truthy tok); destruct timer, pending;
    rewrite ?He; reflexivity.
Qed.

(** connect() on a new connection, then the two events. *)
Lemma handshake_order_irrelevant_witness :
  let c := fst (Connection.connect 0
                  {| Connection.opt_channelId := Some "channel"; Connection.opt_selfDeaf := None;
                     Connection.opt_selfMute := None; Connection.opt_timeout := None |}
                  Connection.create) in
  Connection.run 1 c [Connection.VoiceStateUpdate (Some "session") (Some "channel");
                      Connection.VoiceServerUpdate (Some "token") (Some "us-east42.discord.media")]
  = Connection.run 1 c [Connection.VoiceServerUpdate (Some "token") (Some "us-east42.discord.media");
                        Connection.VoiceStateUpdate (Some "session") (Some "channel")] /\
  Connection.connected
    (fst (Connection.run 1 c
            [Connection.VoiceServerUpdate (Some "token") (Some "us-east42.discord.media");
             Connection.VoiceStateUpdate (Some "session") (Some "channel")])) = true.
Proof.
  split; [|reflexivity].
  apply (handshake_order_irrelevant 1
           (fst (Connection.connect 0
                   {| Connection.opt_channelId := Some "channel";
                      Connection.opt_selfDeaf := None;
                      Connection.opt_selfMute := None; Connection.opt_timeout := None |}
                   Connection.create))
           (Some "session") (Some "channel") (Some "token") (Some "us-east42.discord.media")
           eq_refl eq_refl).
Defined.

(** ** Connection: the region of an endpoint *)

Section Region.

Lemma takeWhile_dropWhile (p : ascii -> bool) (s : string) :
  s = String.append (Connection.takeWhile p s) (Connection.dropWhile p s).
Proof.
  induction s as [|ch rest IH]; simpl; [reflexivity|].
  destruct (p ch); [rewrite IH at 1|]; reflexivity.
Qed.

Lemma takeWhile_all (p : ascii -> bool) (s : string) :
  forallb p (String.list_ascii_of_string (Connection.takeWhile p s)) = true.
Proof.
  induction s as [|ch rest IH]; simpl; [reflexivity|].
  destruct (p ch) eqn:Hp; simpl; [now rewrite Hp | reflexivity].
Qed.

(** A run of characters that satisfy [p], followed by a text that does
    not start with one, is split at the seam. *)
Lemma takeWhile_seam (p : ascii -> bool) (run rest : string) :
  forallb p (String.list_ascii_of_string run) = true ->
  match rest with String ch _ => p ch = false | EmptyString => True end ->
  Connection.takeWhile p (String.append run rest) = run /\
  Connection.dropWhile p (String.append run rest) = rest.
Proof.
  intros Hrun Hrest. induction run as [|ch run IH].
  - change (String.append EmptyString rest) with rest.
    destruct rest as [|ch rest]; simpl; [now split|]. now rewrite Hrest.
  - change (String.append (String ch run) rest) with (String ch (String.append run rest)).
    simpl in *. apply andb_true_iff in Hrun as [Hch Hrun]. rewrite Hch.
    destruct (IH Hrun) as [-> ->]. now split.
Qed.

Lemma digit_not_label (ch : ascii) :
  Connection.isDigit ch = true -> Connection.isLowerOrDash ch = false.
Proof.
  unfold Connection.isDigit, Connection.isLowerOrDash. cbv zeta.
  intros H. apply andb_true_iff in H as [Hlo Hhi].
  apply Nat.leb_le in Hlo, Hhi.
  apply orb_false_iff. split.
  - apply andb_false_iff. left. apply Nat.leb_gt. lia.
  - apply Nat.eqb_neq. lia.
Qed.

End Region.

(** The region is read off the endpoint as the pattern says: a label
    is found exactly when the endpoint is that label, not empty and made
    of lower-case letters and dashes, then digits, maybe none, then a
    dot, then anything. *)
Theorem matchRegion_pattern (endpointText label : string) :
  Connection.matchRegion endpointText = Some label <->
  label <> EmptyString /\
  forallb Connection.isLowerOrDash (String.list_ascii_of_string label) = true /\
  exists digits rest,
    forallb Connection.isDigit (String.list_ascii_of_string digits) = true /\
    endpointText = String.append label (String.append digits (String "." rest)).
Proof.
  unfold Connection.matchRegion. split.
  - intros Hmatch.
    pose proof (takeWhile_dropWhile Connection.isLowerOrDash endpointText) as Hsplit.
    pose proof (takeWhile_all Connection.isLowerOrDash endpointText) as Hall.
    destruct (Connection.takeWhile Connection.isLowerOrDash endpointText)
      as [|ch run] eqn:Htake; [discriminate|].
    pose proof (takeWhile_dropWhile Connection.isDigit
                  (Connection.dropWhile Connection.isLowerOrDash endpointText)) as Hsplit2.
    pose proof (takeWhile_all Connection.isDigit
                  (Connection.dropWhile Connection.isLowerOrDash endpointText)) as Hall2.
    destruct (Connection.dropWhile Connection.isDigit
                (Connection.dropWhile Connection.isLowerOrDash endpointText))
      as [|dot rest] eqn:Hdrop; [discriminate|].
    assert (Hdot : dot = "."%char /\ label = String ch run).
    { destruct dot as [[] [] [] [] [] [] [] []]; try discriminate.
      injection Hmatch as <-. now split. }
    destruct Hdot as [-> ->].
    split; [discriminate|]. split; [exact Hall|].
    eexists _, rest. split; [exact Hall2|].
    rewrite <- Hsplit2. exact Hsplit.
  - intros (Hne & Hlabel & digits & rest & Hdigits & ->).
    assert (Hseam : match String.append digits (String "." rest) with
                    | String ch _ => Connection.isLowerOrDash ch = false
                    | EmptyString => True
                    end).
    { destruct digits as [|d digits]; [reflexivity|].
      change (String.append (String d digits) (String "." rest))
        with (String d (String.append digits (String "." rest))).
      simpl in Hdigits. apply andb_true_iff in Hdigits as [Hd _].
      now apply digit_not_label. }
    destruct (takeWhile_seam _ label _ Hlabel Hseam) as [-> ->].
    destruct (takeWhile_seam Connection.isDigit digits (String "." rest) Hdigits eq_refl)
      as [_ ->].
    destruct label; [contradiction | reflexivity].
Qed.

(** ** Connection: a second connect() *)

Section Orphan.

(** A deferred that is older than the next fresh number and not
    pending is not settled by any run. *)
Lemma run_never_settles (inputs : list Connection.Input) :
  forall (fresh : nat) (c : Connection.t) (d : nat),
  (d < fresh)%nat -> Connection._pendingConnection c <> Some d ->
  d ∉ Connection.settled (snd (Connection.run fresh c inputs)).
Proof.
  induction inputs as [|i rest IH]; intros fresh c d Hold Hpending; simpl.
  - apply not_elem_of_nil.
  - pose proof (step_settles fresh c i) as Hstep.
    destruct (Connection.step fresh c i) as [c1 e1]. simpl in Hstep.
    assert (Hnext : Connection._pendingConnection c1 <> Some d).
    { destruct Hstep as [[_ [Hp | Hp]] | (x & _ & _ & Hp)]; rewrite Hp.
      - exact Hpending.
      - intros [= ->]. lia.
      - discriminate. }
    specialize (IH (S fresh) c1 d ltac:(lia) Hnext).
    destruct (Connection.run (S fresh) c1 rest) as [c2 e2]. simpl in *.
    rewrite settled_app. apply not_elem_of_app. split; [|exact IH].
    destruct Hstep as [[-> _] | (x & Hx & -> & _)].
    + apply not_elem_of_nil.
    + intros Hin. apply list_elem_of_singleton in Hin. subst x. contradiction.
Qed.

End Orphan.

(** A second connect() before the first has settled abandons the first
    call: its timer is not cleared, and whatever calls and events follow,
    the deferred the first connect() awaits is neither resolved nor
    rejected. *)
Theorem second_connect_orphans_first (fresh : nat) (c : Connection.t)
    (first second : Connection.ConnectOptions) (inputs : list Connection.Input) :
  let twice := Connection.run fresh c [Connection.CallConnect first; Connection.CallConnect second] in
  Connection._pendingConnection (fst twice) = Some (S fresh) /\
  Connection.settled (snd twice) = [] /\
  (Connection.ClearTimeout fresh ∉ snd twice) /\
  (fresh ∉ Connection.settled (snd (Connection.run (S (S fresh)) (fst twice) inputs))).
Proof.
  cbv zeta. simpl. repeat split.
  - intros Hin. repeat (apply elem_of_cons in Hin as [Hin | Hin]; [discriminate|]).
    now apply elem_of_nil in Hin.
  - apply run_never_settles; [lia|]. simpl. intros [= H]. lia.
Qed.

(** ** Player: playing the queue *)

Section Playing.

Variable restOk : list Player.Effect -> Player.RestCall -> bool.
Variable provider : Queue.ProviderId -> Track -> Queue.t -> Player.ProviderOutcome.
Variable hasLogger : bool.

(** The track next() returns is the current track it leaves. *)
Lemma next_some_current (q : Queue.t) (t : Track) :
  fst (Queue.next q) = Some t -> Queue.current (snd (Queue.next q)) = Some t.
Proof.
  destruct q as [main prio cur prev lp ap pr hist cap].
  unfold Queue.next, Queue._addToHistory. simpl.
  destruct cur as [c|]; simpl; [destruct (_ >? _); simpl|];
    destruct lp; simpl; destruct prio, main; simpl;
    try destruct prev; simpl; congruence.
Qed.

(** What play() leaves alone after a successful update. *)
Lemma started_fields (p : Player.t) :
  let p' := Player._preloadNextTrack
              (Player._resetInactivityTimer
                 (Player.setState Player.PLAYING
                    (Player.setPaused false (Player.setPlaying true p)))) in
  Player.effects p' = Player.effects p /\ Player.queue p' = Player.queue p /\
  Player.node p' = Player.node p /\ Player.guildId p' = Player.guildId p /\
  Player.filters p' = Player.filters p /\ Player.volume p' = Player.volume p /\
  Player.connection p' = Player.connection p /\
  Player.playing p' = true /\ Player.paused p' = false /\ Player.state p' = Player.PLAYING.
Proof.
  cbv zeta. unfold Player._preloadNextTrack, Player._resetInactivityTimer. simpl.
  destruct (Player._inactivityTimer p); simpl;
    destruct (Queue.at_ 0 (Player.queue p)) as [t|]; simpl;
    try destruct (Js.truthy (encoded t)); simpl; repeat split.
Qed.

(** play() without a track, when next() has one and the update
    succeeds. *)
Lemma play_next_sent (fuel : nat) (options : Player.PlayOptions) (p : Player.t)
    (n : string) (t : Track) :
  Player.node p = Some n ->
  fst (Queue.next (Player.queue p)) = Some t ->
  restOk (Player.effects p) (playCall n options p t) = true ->
  exists p',
    Player.play restOk provider hasLogger (S fuel) None options p
      = Some (Player.Returned (Some t), p') /\
    Player.effects p' = Player.effects p ++ [Player.Rest (playCall n options p t)] /\
    Player.queue p' = snd (Queue.next (Player.queue p)) /\
    Player.node p' = Some n /\ Player.guildId p' = Player.guildId p /\
    Player.filters p' = Player.filters p /\ Player.volume p' = Player.volume p /\
    Player.playing p' = true /\ Player.paused p' = false /\
    Player.state p' = Player.PLAYING.
Proof.
  intros Hnode Hnext Hok. pose proof (next_some_current _ _ Hnext) as Hcur.
  simpl. unfold Player.playBody.
  destruct (Queue.next (Player.queue p)) as [following q1]. simpl in Hnext, Hcur.
  subst following. cbn [Player.queue Player.setQueue]. rewrite Hcur.
  unfold Player.updatePlayer. cbn [Player.node Player.setQueue Player.guildId
    Player.effects Player.filters Player.volume]. rewrite Hnode.
  unfold playCall in Hok. rewrite Hok.
  match goal with
  | |- context [Player._preloadNextTrack (Player._resetInactivityTimer
                  (Player.setState _ (Player.setPaused _ (Player.setPlaying _ ?x))))] =>
      destruct (started_fields x) as (He & Hq & Hn & Hg & Hf & Hv & _ & Hpl & Hpa & Hs)
  end.
  eexists. split.
  - rewrite Hq. simpl. rewrite Hcur. reflexivity.
  - rewrite He, Hq, Hn, Hg, Hf, Hv, Hpl, Hpa, Hs. simpl. rewrite Hnode.
    repeat split.
Qed.

End Playing.

(** play() is not undone by a failed update.  When next() has a track
    and the update fails, or the player has no node to send it to, the
    call throws after the queue has advanced: the track is current and
    has left its lane, while the flags and the state of the player are
    what they were. *)
Theorem play_failure_consumes_track
    (restOk : list Player.Effect -> Player.RestCall -> bool)
    (provider : Queue.ProviderId -> Track -> Queue.t -> Player.ProviderOutcome)
    (hasLogger : bool) (fuel : nat) (options : Player.PlayOptions) (p : Player.t) (t : Track) :
  fst (Queue.next (Player.queue p)) = Some t ->
  match Player.node p with
  | Some n => restOk (Player.effects p) (playCall n options p t) = false
  | None => True
  end ->
  exists p',
    Player.play restOk provider hasLogger (S fuel) None options p = Some (Player.Thrown, p') /\
    Player.queue p' = snd (Queue.next (Player.queue p)) /\
    Queue.current (Player.queue p') = Some t /\
    Player.effects p' =
      Player.effects p ++
      match Player.node p with
      | Some n => [Player.Rest (playCall n options p t)]
      | None => []
      end /\
    Player.playing p' = Player.playing p /\ Player.paused p' = Player.paused p /\
    Player.state p' = Player.state p.
Proof.
  intros Hnext Hfail. pose proof (next_some_current _ _ Hnext) as Hcur.
  simpl. unfold Player.playBody.
  destruct (Queue.next (Player.queue p)) as [following q1]. simpl in Hnext, Hcur.
  subst following. cbn [Player.queue Player.setQueue]. rewrite Hcur.
  unfold Player.updatePlayer. cbn [Player.node Player.setQueue Player.guildId
    Player.effects Player.filters Player.volume].
  destruct (Player.node p) as [n|].
  - unfold playCall in Hfail. rewrite Hfail. eexists. split; [reflexivity|].
    simpl. repeat split. exact Hcur.
  - eexists. split; [reflexivity|]. simpl. rewrite app_nil_r. repeat split. exact Hcur.
Qed.

(** A player whose node refuses every update. *)
Lemma play_failure_consumes_track_witness :
  let p := Player.setQueue (sampleQueue [] [sampleTrack "A"; sampleTrack "B"])
             (Player.create "guild" (Some "X")) in
  exists p',
    Player.play (fun _ _ => false) sampleProvider true 1 None Player.noPlayOptions p
      = Some (Player.Thrown, p') /\
    Queue.current (Player.queue p') = Some (sampleTrack "A") /\
    Queue.tracks (Player.queue p') = [sampleTrack "B"] /\
    Player.playing p' = false.
Proof.
  destruct (play_failure_consumes_track (fun _ _ => false) sampleProvider true 0
              Player.noPlayOptions
              (Player.setQueue (sampleQueue [] [sampleTrack "A"; sampleTrack "B"])
                 (Player.create "guild" (Some "X")))
              (sampleTrack "A") eq_refl eq_refl)
    as (p' & Hplay & Hq & Hcur & _ & Hplaying & _).
  exists p'. split; [exact Hplay|]. split; [exact Hcur|].
  split; [now rewrite Hq | exact Hplaying].
Defined.

Section Playlist.

Variable restOk : list Player.Effect -> Player.RestCall -> bool.
Variable provider : Queue.ProviderId -> Track -> Queue.t -> Player.ProviderOutcome.
Variable hasLogger : bool.
Variable n : string.
Variable fuel : nat.

Lemma finished_step (p : Player.t) (t : Track) (rest : list Track) :
  Player.node p = Some n -> Queue.loop (Player.queue p) = Queue.OFF ->
  Queue.upcoming (Player.queue p) = t :: rest ->
  restOk (Player.effects p) (playCall n Player.noPlayOptions p t) = true ->
  exists p',
    Player._handleTrackEnd restOk provider hasLogger (S fuel) "finished" p
      = Some ([Player.TRACK_END (Queue.current (Player.queue p)) "finished"], p') /\
    Player.effects p' =
      Player.effects p ++ [Player.Rest (playCall n Player.noPlayOptions p t)] /\
    Queue.upcoming (Player.queue p') = rest /\
    Queue.current (Player.queue p') = Some t /\
    Queue.loop (Player.queue p') = Queue.OFF /\
    Player.node p' = Some n /\ Player.guildId p' = Player.guildId p /\
    Player.filters p' = Player.filters p /\ Player.volume p' = Player.volume p /\
    Player.playing p' = true /\ Player.state p' = Player.PLAYING.
Proof.
  intros Hnode Hoff Hup Hok.
  destruct (next_off_step _ Hoff) as (Hloop & Hfst & Hcur & _ & _).
  pose proof (next_off_upcoming _ Hoff) as Htail.
  rewrite Hup in Hfst, Hcur, Htail. simpl in Hfst, Hcur, Htail.
  destruct (play_next_sent restOk provider hasLogger fuel Player.noPlayOptions p n t
              Hnode Hfst Hok)
    as (p' & Hplay & He & Hq & Hn & Hg & Hf & Hv & Hpl & _ & Hs).
  exists p'. unfold Player._handleTrackEnd.
  change (String.eqb "finished" "finished") with true. cbv iota. rewrite Hplay.
  rewrite Hq. repeat split; assumption.
Qed.

Lemma finished_run (k : nat) : forall p : Player.t,
  Player.node p = Some n -> Queue.loop (Player.queue p) = Queue.OFF ->
  (forall log data,
     restOk log (Player.UpdatePlayer n (Player.guildId p) data false) = true) ->
  (k <= length (Queue.upcoming (Player.queue p)))%nat ->
  exists p',
    Player.trackEnds restOk provider hasLogger (S fuel) (replicate k "finished"%string) p
      = Some (map (fun t => Player.TRACK_END t "finished")
                  (take k (Queue.current (Player.queue p)
                           :: map Some (Queue.upcoming (Player.queue p)))),
              p') /\
    Player.effects p' =
      Player.effects p ++
      map (fun t => Player.Rest (playCall n Player.noPlayOptions p t))
          (take k (Queue.upcoming (Player.queue p))) /\
    Queue.upcoming (Player.queue p') = drop k (Queue.upcoming (Player.queue p)) /\
    ((0 < k)%nat ->
     Player.playing p' = true /\ Player.state p' = Player.PLAYING /\
     Queue.current (Player.queue p') = Queue.upcoming (Player.queue p) !! (k - 1)%nat).
Proof.
  induction k as [|k IH]; intros p Hnode Hoff Hok Hlen.
  - exists p. simpl. rewrite app_nil_r, drop_0. repeat split; lia.
  - destruct (Queue.upcoming (Player.queue p)) as [|t rest] eqn:Hup; [simpl in Hlen; lia|].
    destruct (finished_step p t rest Hnode Hoff Hup (Hok _ _))
      as (p1 & Hend & He1 & Hup1 & Hcur1 & Hoff1 & Hn1 & Hg1 & Hf1 & Hv1 & Hpl1 & Hs1).
    destruct (IH p1 Hn1 Hoff1) as (p' & Hrun & He & Hup' & Hlast).
    { intros log data. rewrite Hg1. apply Hok. }
    { rewrite Hup1. simpl in Hlen. lia. }
    exists p'. simpl replicate. cbn [Player.trackEnds]. rewrite Hend, Hrun.
    rewrite Hcur1, Hup1 in *. split; [reflexivity|]. split.
    + rewrite He, He1. rewrite <- app_assoc. f_equal. simpl. f_equal.
      apply map_ext. intros x. unfold playCall. now rewrite Hg1, Hf1, Hv1.
    + split; [exact Hup'|]. intros _.
      destruct k as [|k'].
      * simpl in Hrun. injection Hrun as <-. simpl. auto.
      * destruct (Hlast ltac:(lia)) as (Hpl & Hs & Hc). repeat split; try assumption.
        rewrite Hc. simpl. now rewrite Nat.sub_0_r.
Qed.

End Playlist.

(** The player plays the queue in order.  With the loop off, a node
    that takes every update, and k tracks or more waiting, k track-end
    events with the reason finished announce the track that was current
    and then each track played, send the node one play update for each
    of the first k tracks of the concatenated view, priority lane first,
    in that order and nothing else, and leave the k-th of them current
    and the rest waiting. *)
Theorem finished_tracks_play_in_order
    (restOk : list Player.Effect -> Player.RestCall -> bool)
    (provider : Queue.ProviderId -> Track -> Queue.t -> Player.ProviderOutcome)
    (hasLogger : bool) (fuel : nat) (n : string) (k : nat) (p : Player.t) :
  Player.node p = Some n -> Queue.loop (Player.queue p) = Queue.OFF ->
  (forall log data,
     restOk log (Player.UpdatePlayer n (Player.guildId p) data false) = true) ->
  (0 < k <= length (Queue.upcoming (Player.queue p)))%nat ->
  exists p',
    Player.trackEnds restOk provider hasLogger (S fuel) (replicate k "finished"%string) p
      = Some (map (fun t => Player.TRACK_END t "finished")
                  (take k (Queue.current (Player.queue p)
                           :: map Some (Queue.upcoming (Player.queue p)))),
              p') /\
    Player.effects p' =
      Player.effects p ++
      map (fun t => Player.Rest (playCall n Player.noPlayOptions p t))
          (take k (Queue.upcoming (Player.queue p))) /\
    Queue.upcoming (Player.queue p') = drop k (Queue.upcoming (Player.queue p)) /\
    Queue.current (Player.queue p') = Queue.upcoming (Player.queue p) !! (k - 1)%nat /\
    Player.playing p' = true /\ Player.state p' = Player.PLAYING.
Proof.
  intros Hnode Hoff Hok [Hpos Hlen].
  destruct (finished_run restOk provider hasLogger n fuel k p Hnode Hoff Hok Hlen)
    as (p' & Hrun & He & Hup & Hlast).
  destruct (Hlast Hpos) as (Hpl & Hs & Hc).
  exists p'. repeat split; assumption.
Qed.

(** A priority track and two main tracks, all three played. *)
Lemma finished_tracks_play_in_order_witness :
  let p := Player.setQueue
             (sampleQueue [sampleTrack "P"] [sampleTrack "A"; sampleTrack "B"])
             (Player.create "guild" (Some "X")) in
  exists p',
    Player.trackEnds restAlways sampleProvider true 1
      ["finished"; "finished"; "finished"]%string p
    = Some ([Player.TRACK_END None "finished";
             Player.TRACK_END (Some (sampleTrack "P")) "finished";
             Player.TRACK_END (Some (sampleTrack "A")) "finished"], p') /\
    Player.effects p' =
      map (fun t => Player.Rest (playCall "X" Player.noPlayOptions p t))
          [sampleTrack "P"; sampleTrack "A"; sampleTrack "B"] /\
    Queue.current (Player.queue p') = Some (sampleTrack "B").
Proof.
  destruct (finished_tracks_play_in_order restAlways sampleProvider true 0 "X" 3
              (Player.setQueue
                 (sampleQueue [sampleTrack "P"] [sampleTrack "A"; sampleTrack "B"])
                 (Player.create "guild" (Some "X")))
              eq_refl eq_refl (fun _ _ => eq_refl) ltac:(simpl; lia))
    as (p' & Hrun & He & _ & Hcur & _).
  exists p'. split; [exact Hrun|]. split; [exact He | exact Hcur].
Defined.

(** ** Player: the node of a player without one *)

(** A player without a node takes one when its connection reports
    ready: [_sendVoiceUpdate] binds it to the best node for the region
    of the connection, and the update it sends there carries the session
    id, the token and the endpoint of the connection.  When no node is
    connected [_sendVoiceUpdate] throws on the missing node, sends
    nothing and leaves the player as it was.  The listener of the ready
    event drops that outcome either way: it returns, with the player as
    [_sendVoiceUpdate] left it. *)
Theorem ready_binds_best_node
    (restOk : list Player.Effect -> Player.RestCall -> bool) (nodes : NodeManager.Pool)
    (p : Player.t) :
  Player.node p = None ->
  let sent := Player._sendVoiceUpdate restOk nodes
                (Connection.readyPayload (Player.connection p)) p in
  match NodeManager.getBest (Connection.region (Player.connection p)) nodes with
  | Some best =>
      let call :=
        Player.UpdatePlayer (Node.name best) (Player.guildId p)
          (Player.VoiceData
             (Js.ofField (Connection.sessionId (Player.connection p)))
             (Js.ofField (Connection.token (Player.connection p)))
             (Js.ofField (Connection.endpoint (Player.connection p))))
          false in
      sent =
        (if restOk (Player.effects p) call then Player.Returned tt else Player.Thrown,
         Player.record [Player.Rest call] (Player.setNode (Some (Node.name best)) p)) /\
      Player.onConnectionReady restOk nodes p =
        Player.record [Player.Rest call] (Player.setNode (Some (Node.name best)) p)
  | None =>
      sent = (Player.Thrown, p) /\ Player.onConnectionReady restOk nodes p = p
  end.
Proof.
  intros Hnode. cbv zeta. unfold Player.onConnectionReady, Player._sendVoiceUpdate.
  rewrite Hnode.
  destruct (NodeManager.getBest _ nodes) as [best|]; simpl.
  - unfold Player.updatePlayer. simpl. now destruct (restOk _ _).
  - unfold Player.updatePlayer. simpl.
    destruct p. simpl in Hnode. now subst.
Qed.

(** A new player, a handshake, and two connected nodes of which the
    second serves the region of the endpoint. *)
Lemma ready_binds_best_node_witness :
  let nodes := [sampleNode "eu" 1 ["eu-west"%string] Node.CONNECTED 0;
                sampleNode "us" 1 ["us-east"%string] Node.CONNECTED 9] in
  let p := Player.mk "guild" 100 Player.CONNECTING Queue.create None
             (fst (Connection.run 0 Connection.create sampleHandshake))
             None false false 0 0 false Player.defaultInactivity None None [] in
  let call :=
    Player.UpdatePlayer "us" "guild"
      (Player.VoiceData (Js.Str "session") (Js.Str "token")
                        (Js.Str "us-east42.discord.media")) false in
  Player._sendVoiceUpdate restAlways nodes (Connection.readyPayload (Player.connection p)) p =
    (Player.Returned tt,
     Player.record [Player.Rest call] (Player.setNode (Some "us"%string) p)) /\
  Player.onConnectionReady restAlways nodes p =
    Player.record [Player.Rest call] (Player.setNode (Some "us"%string) p).
Proof.
  exact (ready_binds_best_node restAlways
           [sampleNode "eu" 1 ["eu-west"%string] Node.CONNECTED 0;
            sampleNode "us" 1 ["us-east"%string] Node.CONNECTED 9]
           (Player.mk "guild" 100 Player.CONNECTING Queue.create None
              (fst (Connection.run 0 Connection.create sampleHandshake))
              None false false 0 0 false Player.defaultInactivity None None [])
           eq_refl).
Defined.

(** ** NodeManager: the players of a failed node *)

Section Rebinding.

Variable restOk : list Player.Effect -> Player.RestCall -> bool.
Variable provider : Queue.ProviderId -> Track -> Queue.t -> Player.ProviderOutcome.
Variable nodes : NodeManager.Pool.
Variable hasLogger : bool.

Lemma updatePlayer_keeps (data : Player.UpdateData) (replace : option bool) (p : Player.t) :
  Player.node (snd (Player.updatePlayer restOk data replace p)) = Player.node p /\
  Player.guildId (snd (Player.updatePlayer restOk data replace p)) = Player.guildId p /\
  Player.connection (snd (Player.updatePlayer restOk data replace p)) = Player.connection p.
Proof.
  unfold Player.updatePlayer. destruct (Player.node p) eqn:Hnode; [|now simpl].
  destruct (restOk _ _); now simpl.
Qed.

(** play(track) returns or throws, and keeps the node, the guild and the
    connection of the player. *)
Lemma play_given_keeps (fuel : nat) (given : Track) (options : Player.PlayOptions)
    (p : Player.t) :
  exists o p',
    Player.play restOk provider hasLogger (S fuel) (Some given) options p = Some (o, p') /\
    Player.node p' = Player.node p /\ Player.guildId p' = Player.guildId p /\
    Player.connection p' = Player.connection p.
Proof.
  simpl. unfold Player.playBody. simpl.
  match goal with
  | |- context [Player.updatePlayer restOk ?d ?r ?x] =>
      destruct (updatePlayer_keeps d r x) as (Hn & Hg & Hc);
      destruct (Player.updatePlayer restOk d r x) as [[u|] p1]
  end; simpl in Hn, Hg, Hc.
  - destruct (started_fields p1) as (_ & _ & Hn' & Hg' & _ & _ & Hc' & _).
    eexists _, _. split; [reflexivity|]. rewrite Hn', Hg', Hc'. now rewrite Hn, Hg, Hc.
  - eexists _, _. split; [reflexivity|]. now rewrite Hn, Hg, Hc.
Qed.

(** migrateNode(newNode) returns or throws with the player bound to the
    new node. *)
Lemma migrateNode_rebinds (fuel : nat) (now : Z) (newNode : string) (p : Player.t) :
  exists o p',
    Player.migrateNode restOk provider nodes hasLogger (S fuel) now newNode p = Some (o, p') /\
    Player.node p' = Some newNode /\ Player.guildId p' = Player.guildId p /\
    Player.connection p' = Player.connection p.
Proof.
  unfold Player.migrateNode.
  set (p1 := match Player.node p with
             | Some old => Player.record [Player.Rest (Player.DestroyPlayer old (Player.guildId p))] p
             | None => p
             end).
  assert (H1 : Player.guildId p1 = Player.guildId p /\
               Player.connection p1 = Player.connection p)
    by (subst p1; destruct (Player.node p); now split).
  destruct H1 as [Hg1 Hc1].
  set (p2 := Player.setNode (Some newNode) p1).
  assert (H3 : exists o3 p3,
             (if Player.connected p2
              then Player._sendVoiceUpdate restOk nodes
                     (Connection.getVoicePayload (Player.connection p2)) p2
              else (Player.Returned tt, p2)) = (o3, p3) /\
             Player.node p3 = Some newNode /\ Player.guildId p3 = Player.guildId p /\
             Player.connection p3 = Player.connection p).
  { destruct (Player.connected p2).
    - unfold Player._sendVoiceUpdate. cbn [Player.node p2 Player.setNode].
      match goal with
      | |- context [Player.updatePlayer restOk ?d ?r ?x] =>
          destruct (updatePlayer_keeps d r x) as (Hn & Hg & Hc);
          destruct (Player.updatePlayer restOk d r x) as [o3 p3]
      end. simpl in Hn, Hg, Hc.
      exists o3, p3. split; [reflexivity|]. rewrite Hn, Hg, Hc. now split.
    - exists (Player.Returned tt), p2. split; [reflexivity|]. now split. }
  destruct H3 as (o3 & p3 & -> & Hn3 & Hg3 & Hc3).
  destruct o3 as [u|]; [|eexists _, _; split; [reflexivity|]; now split].
  assert (H4 : exists o4 p4,
             match Queue.current (Player.queue p3) with
             | Some cur =>
                 if Player.playing p3
                 then Player.play restOk provider hasLogger (S fuel) (Some cur)
                        {| Player.startTime := Some (Player.estimatedPosition now p3);
                           Player.endTime := None; Player.noReplace := None |} p3
                 else Some (Player.Returned None, p3)
             | None => Some (Player.Returned None, p3)
             end = Some (o4, p4) /\
             Player.node p4 = Some newNode /\ Player.guildId p4 = Player.guildId p /\
             Player.connection p4 = Player.connection p).
  { destruct (Queue.current (Player.queue p3)) as [cur|];
      [destruct (Player.playing p3)|].
    - destruct (play_given_keeps fuel cur
                  {| Player.startTime := Some (Player.estimatedPosition now p3);
                     Player.endTime := None; Player.noReplace := None |} p3)
        as (o4 & p4 & Hplay & Hn & Hg & Hc).
      exists o4, p4. split; [exact Hplay|]. rewrite Hn, Hg, Hc. now split.
    - eexists _, p3. split; [reflexivity|]. now split.
    - eexists _, p3. split; [reflexivity|]. now split. }
  destruct H4 as (o4 & p4 & Hreplay & Hn4 & Hg4 & Hc4).
  cbn -[Player.play] in Hreplay |- *. rewrite Hreplay.
  destruct o4 as [u4|]; [|eexists _, _; split; [reflexivity|]; now split].
  destruct hasLogger; [destruct (Player.node p)|];
    eexists _, _; (split; [reflexivity|]); now split.
Qed.

Lemma migrateEach_rebinds (fuel : nat) (players : list Player.t) : forall nows : list Z,
  exists migrated,
    Failover.migrateEach restOk provider nodes hasLogger (S fuel) nows players
      = Some migrated /\
    Forall2 (fun p p' =>
               Player.guildId p' = Player.guildId p /\
               Player.node p' =
                 match NodeManager.getBest (Connection.region (Player.connection p)) nodes with
                 | Some best => Some (Node.name best)
                 | None => Player.node p
                 end)
            players migrated.
Proof.
  induction players as [|p rest IH]; intros nows.
  - exists []. split; [reflexivity | constructor].
  - destruct (IH (tl nows)) as (rest' & Hrest & Hall).
    cbn [Failover.migrateEach]. unfold Failover.migrateOne.
    destruct (NodeManager.getBest (Connection.region (Player.connection p)) nodes)
      as [best|] eqn:Hbest.
    + destruct (migrateNode_rebinds fuel (hd 0 nows) (Node.name best) p)
        as (o & p' & Hmig & Hn & Hg & _).
      rewrite Hmig, Hrest. exists (p' :: rest'). split; [reflexivity|].
      constructor; [|exact Hall]. rewrite Hbest. now split.
    + rewrite Hrest. exists (p :: rest'). split; [reflexivity|].
      constructor; [|exact Hall]. rewrite Hbest. now split.
Qed.

End Rebinding.

(** handleNodeFailure(failedNode) always comes to an end, and takes the
    players bound to the failed node, in the order of the manager, and
    no others.  Each of them with a connected node to go to ends bound
    to the best node for the region of its connection, whether its
    migration returned or threw; nothing keeps that node from being the
    failed node when the pool still counts it as connected.  A player
    with no connected node to go to stays bound to the failed node. *)
Theorem handleNodeFailure_rebinds
    (restOk : list Player.Effect -> Player.RestCall -> bool)
    (provider : Queue.ProviderId -> Track -> Queue.t -> Player.ProviderOutcome)
    (nodes : NodeManager.Pool) (hasLogger : bool)
    (fuel : nat) (nows : list Z) (failedNode : string) (players : list Player.t) :
  exists migrated,
    Failover.handleNodeFailure restOk provider nodes hasLogger (S fuel) nows failedNode players
      = Some migrated /\
    Forall2 (fun p p' =>
               Player.node p = Some failedNode /\
               Player.guildId p' = Player.guildId p /\
               Player.node p' =
                 match NodeManager.getBest (Connection.region (Player.connection p)) nodes with
                 | Some best => Some (Node.name best)
                 | None => Some failedNode
                 end)
            (List.filter (fun p => bool_decide (Player.node p = Some failedNode)) players)
            migrated.
Proof.
  unfold Failover.handleNodeFailure.
  assert (Hfilter : List.filter (Failover.onNode failedNode) players
                    = List.filter (fun p => bool_decide (Player.node p = Some failedNode)) players).
  { apply filter_ext. intros p. unfold Failover.onNode.
    destruct (Player.node p) as [m|].
    - destruct (String.eqb_spec m failedNode) as [-> | Hne].
      + now rewrite bool_decide_eq_true_2.
      + rewrite bool_decide_eq_false_2; [reflexivity | congruence].
    - now rewrite bool_decide_eq_false_2. }
  rewrite Hfilter.
  destruct (migrateEach_rebinds restOk provider nodes hasLogger fuel
              (List.filter (fun p => bool_decide (Player.node p = Some failedNode)) players)
              nows) as (migrated & Hrun & Hall).
  exists migrated. split; [exact Hrun|].
  assert (Hon : Forall (fun p => Player.node p = Some failedNode)
                  (List.filter (fun p => bool_decide (Player.node p = Some failedNode)) players)).
  { apply Forall_forall. intros p Hp. apply list_elem_of_In, filter_In in Hp as [_ Hp].
    now apply bool_decide_eq_true in Hp. }
  clear Hrun Hfilter.
  remember (List.filter (fun p => bool_decide (Player.node p = Some failedNode)) players)
    as onFailed eqn:Hl.
  clear Hl. revert Hon.
  induction Hall as [|p p' l l' [Hg Hn] Hall IH]; intros Hon; constructor.
  - apply Forall_cons in Hon as [Hp _]. split; [exact Hp|]. split; [exact Hg|].
    rewrite Hn. now destruct (NodeManager.getBest _ nodes).
  - apply IH. now apply Forall_cons in Hon as [_ Hon].
Qed.

(** ** Util: chunk *)

Section Chunk.

Context {A : Type}.

Lemma slice_inside (i size : Z) (l : list A) :
  0 <= i < len l -> 1 <= size ->
  Util.slice i (i + size) l =
    take (Z.to_nat (Z.min (i + size) (len l)) - Z.to_nat i) (drop (Z.to_nat i) l).
Proof.
  intros Hi Hsize. unfold Util.slice.
  destruct (i + size <? 0) eqn:Hneg; [apply Z.ltb_lt in Hneg; lia|].
  destruct (i <? 0) eqn:Hneg'; [apply Z.ltb_lt in Hneg'; lia|].
  now rewrite (Z.min_l i (len l)) by lia.
Qed.

Lemma chunkFrom_concat (size : Z) (l : list A) (fuel : nat) : forall i : Z,
  1 <= size -> 0 <= i -> len l - i <= Z.of_nat fuel ->
  exists chunks,
    Util.chunkFrom fuel i size l = Some chunks /\
    concat chunks = drop (Z.to_nat i) l /\
    Forall (fun c => 1 <= len c <= size) chunks.
Proof.
  induction fuel as [|fuel IH]; intros i Hsize Hi Hfuel.
  - exists []. simpl. destruct (i <? len l) eqn:Hlt; [apply Z.ltb_lt in Hlt; lia|].
    apply Z.ltb_ge in Hlt. split; [reflexivity|]. split; [|constructor].
    symmetry. apply drop_ge. unfold len in Hlt. lia.
  - simpl. destruct (i <? len l) eqn:Hlt.
    + apply Z.ltb_lt in Hlt.
      destruct (IH (i + size) Hsize ltac:(lia) ltac:(lia)) as (rest & -> & Hconcat & Hall).
      eexists. split; [reflexivity|]. rewrite slice_inside by lia.
      simpl. rewrite Hconcat. unfold len in *.
      destruct (Z.le_gt_cases (i + size) (Z.of_nat (length l))) as [Hfits | Hover].
      * rewrite Z.min_l by lia. split.
        -- replace (Z.to_nat (i + size)) with (Z.to_nat i + (Z.to_nat (i + size) - Z.to_nat i))%nat
             at 2 by lia.
           rewrite <- drop_drop. apply take_drop.
        -- constructor; [|exact Hall]. rewrite length_take, length_drop. lia.
      * rewrite Z.min_r by lia. split.
        -- rewrite (drop_ge l (Z.to_nat (i + size))) by lia. rewrite app_nil_r.
           apply take_ge. rewrite length_drop. lia.
        -- constructor; [|exact Hall]. rewrite length_take, length_drop. lia.
    + apply Z.ltb_ge in Hlt. exists []. split; [reflexivity|]. split; [|constructor].
      symmetry. apply drop_ge. unfold len in Hlt. lia.
Qed.

Lemma chunkFrom_stuck (size : Z) (l : list A) (fuel : nat) : forall i : Z,
  size <= 0 -> i <= 0 -> l <> [] -> Util.chunkFrom fuel i size l = None.
Proof.
  induction fuel as [|fuel IH]; intros i Hsize Hi Hne; simpl;
    (destruct (i <? len l) eqn:Hlt;
     [|apply Z.ltb_ge in Hlt; unfold len in Hlt; destruct l; [contradiction | simpl in Hlt; lia]]).
  - reflexivity.
  - now rewrite IH by (assumption || lia).
Qed.

End Chunk.

(** chunk(array, size) with a size of one or more cuts the array into
    pieces that, put back together in order, are the array; no piece is
    empty and none is longer than the size. *)
Theorem chunk_concat {A : Type} (l : list A) (size : Z) (fuel : nat) :
  1 <= size -> (length l <= fuel)%nat ->
  exists chunks,
    Util.chunk fuel l size = Some chunks /\
    concat chunks = l /\
    Forall (fun c => 1 <= len c <= size) chunks.
Proof.
  intros Hsize Hfuel. unfold Util.chunk.
  destruct (chunkFrom_concat size l fuel 0 Hsize ltac:(lia) ltac:(unfold len; lia))
    as (chunks & Hrun & Hconcat & Hall).
  exists chunks. now rewrite drop_0 in Hconcat.
Qed.

(** Five elements in pieces of two. *)
Lemma chunk_concat_witness :
  exists chunks,
    Util.chunk 5 [1; 2; 3; 4; 5] 2 = Some chunks /\
    concat chunks = [1; 2; 3; 4; 5] /\
    Forall (fun c => 1 <= len c <= 2) chunks.
Proof.
  apply (chunk_concat [1; 2; 3; 4; 5] 2 5).
  - lia.
  - simpl. lia.
Defined.

(** chunk(array, size) with a size of zero or less never returns on an
    array that is not empty: the index never reaches the length. *)
Theorem chunk_without_size_never_returns {A : Type} (l : list A) (size : Z) (fuel : nat) :
  size <= 0 -> l <> [] -> Util.chunk fuel l size = None.
Proof. intros Hsize Hne. now apply chunkFrom_stuck. Qed.

(** One element and the size zero, after a thousand rounds. *)
Lemma chunk_without_size_never_returns_witness : Util.chunk 1000 [7] 0 = None.
Proof.
  apply (chunk_without_size_never_returns [7] 0 1000).
  - lia.
  - discriminate.
Defined.

(** ** VoiceAdapter: the two pending maps *)

Section Pending.

Lemma checkPending_neverBoth (g : string) (a : VoiceAdapter.t) :
  (forall g', g' <> g ->
     VoiceAdapter._pendingStates a !! g' = None \/
     VoiceAdapter._pendingServers a !! g' = None) ->
  neverBoth (VoiceAdapter._checkPendingConnection g a) /\
  VoiceAdapter.userId (VoiceAdapter._checkPendingConnection g a) = VoiceAdapter.userId a /\
  VoiceAdapter.connections (VoiceAdapter._checkPendingConnection g a)
  = VoiceAdapter.connections a.
Proof.
  intros Hothers. unfold VoiceAdapter._checkPendingConnection.
  destruct (VoiceAdapter._pendingStates a !! g) as [state|] eqn:Hstate;
    [destruct (VoiceAdapter._pendingServers a !! g) as [server|] eqn:Hserver|];
    (split; [|now split]); intros g'; simpl;
    destruct (decide (g' = g)) as [-> | Hne]; auto.
  - left. apply lookup_delete_eq.
  - rewrite !lookup_delete_ne by congruence. auto.
Qed.

(** The guilds with a connection after an update of one of them. *)
Lemma routed_dom (g : string) (players : gmap string Connection.t)
    (handle : Connection.t -> Connection.t * list Connection.Effect) :
  dom (match players !! g with
       | Some c => let '(c', e) := handle c in (<[g := c']> players, map (pair g) e)
       | None => (players, [])
       end).1 = dom players.
Proof.
  destruct (players !! g) as [c|] eqn:Hc; [|reflexivity].
  destruct (handle c) as [c' e]. simpl. apply dom_insert_lookup_L. now rewrite Hc.
Qed.

Lemma packet_neverBoth (packet : VoiceAdapter.Packet) (a : VoiceAdapter.t) :
  neverBoth a ->
  neverBoth (fst (VoiceAdapter._handleRawPacket packet a)) /\
  VoiceAdapter.userId (fst (VoiceAdapter._handleRawPacket packet a)) = VoiceAdapter.userId a /\
  dom (VoiceAdapter.connections (fst (VoiceAdapter._handleRawPacket packet a)))
  = dom (VoiceAdapter.connections a).
Proof.
  intros Hinv.
  destruct packet as [user g sid ch | g tok ep | other]; simpl; [| |now split].
  - unfold VoiceAdapter._handleVoiceStateUpdate.
    destruct (negb (Connection.optionStringEqb (Some user) (VoiceAdapter.userId a)));
      [now split|].
    pose proof (routed_dom g (VoiceAdapter.connections a)
                  (Connection.handleVoiceStateUpdate sid ch)) as Hdom.
    destruct (match VoiceAdapter.connections a !! g with
              | Some c => _
              | None => _
              end) as [players emitted].
    simpl in Hdom |- *.
    match goal with
    | |- context [VoiceAdapter._checkPendingConnection g ?x] =>
        destruct (checkPending_neverBoth g x) as (Hnb & Hu & Hc)
    end.
    { intros g' Hne. simpl. rewrite lookup_insert_ne by congruence. apply Hinv. }
    split; [exact Hnb|]. rewrite Hu, Hc. now split.
  - unfold VoiceAdapter._handleVoiceServerUpdate.
    pose proof (routed_dom g (VoiceAdapter.connections a)
                  (Connection.handleVoiceServerUpdate tok ep)) as Hdom.
    destruct (match VoiceAdapter.connections a !! g with
              | Some c => _
              | None => _
              end) as [players emitted].
    simpl in Hdom |- *.
    match goal with
    | |- context [VoiceAdapter._checkPendingConnection g ?x] =>
        destruct (checkPending_neverBoth g x) as (Hnb & Hu & Hc)
    end.
    { intros g' Hne. simpl. rewrite lookup_insert_ne by congruence. apply Hinv. }
    split; [exact Hnb|]. rewrite Hu, Hc. now split.
Qed.

End Pending.

(** Whatever packets arrive, for whatever guilds and users and in
    whatever order, no guild is left waiting in both pending maps of the
    adapter: the second half of a pair removes the guild from both.  The
    adapter neither gains nor loses a connection, and keeps its user. *)
Theorem pending_never_both (ps : list VoiceAdapter.Packet) (user : option string)
    (players : gmap string Connection.t) :
  let a := fst (VoiceAdapter.packets ps (VoiceAdapter.create user players)) in
  (forall g, ~ (is_Some (VoiceAdapter._pendingStates a !! g) /\
                is_Some (VoiceAdapter._pendingServers a !! g))) /\
  VoiceAdapter.userId a = user /\
  dom (VoiceAdapter.connections a) = dom players.
Proof.
  cbv zeta.
  assert (Hrun : forall a0,
            neverBoth a0 ->
            neverBoth (fst (VoiceAdapter.packets ps a0)) /\
            VoiceAdapter.userId (fst (VoiceAdapter.packets ps a0)) = VoiceAdapter.userId a0 /\
            dom (VoiceAdapter.connections (fst (VoiceAdapter.packets ps a0)))
            = dom (VoiceAdapter.connections a0)).
  { induction ps as [|packet rest IH]; intros a0 Hinv; [now split|].
    simpl. destruct (packet_neverBoth packet a0 Hinv) as (Hnb & Hu & Hd).
    destruct (VoiceAdapter._handleRawPacket packet a0) as [a1 e1]. simpl in Hnb, Hu, Hd.
    destruct (IH a1 Hnb) as (Hnb' & Hu' & Hd').
    destruct (VoiceAdapter.packets rest a1) as [a2 e2]. simpl in *.
    split; [exact Hnb'|]. split; congruence. }
  destruct (Hrun (VoiceAdapter.create user players)) as (Hnb & Hu & Hd).
  { intros g. left. apply lookup_empty. }
  split; [|now split].
  intros g [[s Hs] [v Hv]]. destruct (Hnb g) as [H | H]; congruence.
Qed.
